(** * ModelAccessWrapper: permission-enforcing access to a unimodel model

    A shallow embedding of [lib/model-access-wrapper.js] and of the
    collaborators it talks to (objtools, lodash, flexperm, common-query,
    unimodel), followed by the properties of the wrapper's authorization
    logic. *)

From Stdlib Require Import String Ascii List Bool ZArith Lia.
Import ListNotations.
Open Scope string_scope.

(* ================================================================== *)
(** * Plain data *)
(* ================================================================== *)

(** A JavaScript value as the wrapper sees it: document payloads, match
    objects and request data are plain nested objects.  Objects keep their
    keys in insertion order, which is the order [for..in] and [_.keys]
    walk them in. *)
#[local] Unset Elimination Schemes.
Inductive Value : Type :=
| VUndef
| VNull
| VBool (b : bool)
| VNum (n : Z)
| VStr (s : string)
| VArr (items : list Value)
| VObj (props : list (string * Value)).
#[local] Set Elimination Schemes.

(** Property lookup in an object literal: the first binding of the key. *)
Fixpoint assoc {A : Type} (k : string) (l : list (string * A)) : option A :=
  match l with
  | [] => None
  | (k', v) :: t => if String.eqb k k' then Some v else assoc k t
  end.

(** [obj[k] = v]: overwrite the binding in place, or add it at the end. *)
Fixpoint assocSet {A : Type} (k : string) (v : A) (l : list (string * A))
  : list (string * A) :=
  match l with
  | [] => [(k, v)]
  | (k', v') :: t =>
      if String.eqb k k' then (k', v) :: t else (k', v') :: assocSet k v t
  end.

Definition memStr (s : string) (l : list string) : bool :=
  existsb (String.eqb s) l.

(** ** lodash *)

(** [_.includes(list, x)] on strings. *)
Definition includes (l : list string) (x : string) : bool := memStr x l.

(** [_.union(a, b, ...)]: the distinct values of the concatenation, in order
    of first occurrence. *)
Fixpoint uniq (seen l : list string) : list string :=
  match l with
  | [] => []
  | x :: t => if memStr x seen then uniq seen t else x :: uniq (x :: seen) t
  end.

Definition union (ls : list (list string)) : list string :=
  uniq [] (concat ls).

(** [_.pull(list, x)] and [_.pullAll(list, xs)]. *)
Definition pull (l : list string) (x : string) : list string :=
  filter (fun y => negb (String.eqb y x)) l.

Definition pullAll (l xs : list string) : list string :=
  filter (fun y => negb (memStr y xs)) l.

(** [_.keys(obj)]. *)
Definition keys {A : Type} (o : list (string * A)) : list string :=
  map fst o.

(** ** objtools: paths, scalars, merge *)

(** ['a.b.c'.split('.')]. *)
Fixpoint splitFrom (acc s : string) : list string :=
  match s with
  | EmptyString => [acc]
  | String c rest =>
      if Ascii.eqb c "."%char then acc :: splitFrom "" rest
      else splitFrom (acc ++ String c "") rest
  end.

Definition splitPath (path : string) : list string := splitFrom "" path.

Definition isScalar (v : Value) : bool :=
  match v with
  | VArr _ | VObj _ => false
  | _ => true
  end.

Definition isUndef (v : Value) : bool :=
  match v with VUndef => true | _ => false end.

(** JavaScript truthiness, as used by [if (!data)] and [x || {}]. *)
Definition truthy (v : Value) : bool :=
  match v with
  | VUndef | VNull => false
  | VBool b => b
  | VNum n => negb (Z.eqb n 0)
  | VStr s => negb (String.eqb s "")
  | VArr _ | VObj _ => true
  end.

Definition prop (v : Value) (k : string) : Value :=
  match v with
  | VObj ps => match assoc k ps with Some x => x | None => VUndef end
  | _ => VUndef
  end.

Fixpoint getPathL (v : Value) (parts : list string) : Value :=
  match parts with
  | [] => v
  | k :: rest => getPathL (prop v k) rest
  end.

(** [getPath(obj, 'a.b')]; a missing step yields [undefined]. *)
Definition getPath (v : Value) (path : string) : Value :=
  getPathL v (splitPath path).

Fixpoint setPathL (v : Value) (parts : list string) (x : Value) : Value :=
  match parts with
  | [] => x
  | k :: rest =>
      match v with
      | VObj ps => VObj (assocSet k (setPathL (prop v k) rest x) ps)
      | _ => VObj [(k, setPathL VUndef rest x)]
      end
  end.

(** [setPath(obj, 'a.b', x)], creating the intermediate objects. *)
Definition setPath (v : Value) (path : string) (x : Value) : Value :=
  setPathL v (splitPath path) x.

(** The object built by [for (k in m) setPath(o, k, m[k])] from [{}]. *)
Definition objectFromPaths (m : list (string * Value)) : Value :=
  fold_left (fun o kv => setPath o (fst kv) (snd kv)) m (VObj []).

(** The bindings of [l] whose key passes [keep], each value rebuilt by [F]. *)
Definition mapKept {A B : Type} (keep : string -> bool) (F : string -> A -> B)
  (l : list (string * A)) : list (string * B) :=
  flat_map (fun kv =>
              if keep (fst kv) then [(fst kv, F (fst kv) (snd kv))] else []) l.

Definition hasKey {A : Type} (k : string) (l : list (string * A)) : bool :=
  match assoc k l with Some _ => true | None => false end.

(** Modelled from the spec: objtools [merge(object, source)], which is not
    part of this repository.  For every key of the source,
    [object[key]] becomes the merge of [object[key]] with [source[key]]:
    two objects merge key by key, any other value of the source replaces
    the object's, and an [undefined] source leaves the object as it is. *)
Fixpoint mergeInto (source : Value) : Value -> Value :=
  match source with
  | VUndef => fun object => object
  | VObj sps =>
      let subs :=
        (fix go (l : list (string * Value)) : list (string * (Value -> Value)) :=
           match l with
           | [] => []
           | (k, sv) :: t => (k, mergeInto sv) :: go t
           end) sps in
      let mergedWith := fun k old =>
        match assoc k subs with Some f => f old | None => old end in
      let defined := fun k => negb (isUndef (prop source k)) in
      fun object =>
        let ops := match object with VObj ops => ops | _ => [] end in
        VObj (mapKept (fun _ => true) mergedWith ops
              ++ mapKept (fun k => negb (hasKey k ops) && defined k)
                         (fun k _ => mergedWith k VUndef) subs)
  | _ => fun _ => source
  end.

Definition merge (object source : Value) : Value := mergeInto source object.

(* ================================================================== *)
(** * ObjectMask *)
(* ================================================================== *)

(** Modelled from the spec: the objtools [ObjectMask] class, which is not
    part of this repository.  A mask is a tree of booleans over field
    paths: [true] includes the whole subtree, a nested object includes
    part of it, and a missing key is excluded unless the object carries
    the wildcard key [_]. *)
#[local] Unset Elimination Schemes.
Inductive Mask : Type :=
| MBool (b : bool)
| MObj (entries : list (string * Mask)).
#[local] Set Elimination Schemes.

Definition assocW {A : Type} (k : string) (l : list (string * A)) : option A :=
  match assoc k l with
  | Some v => Some v
  | None => assoc "_" l
  end.

(** One step of [getSubMask]: the mask that governs key [k]. *)
Definition subMaskAt (m : Mask) (k : string) : Mask :=
  match m with
  | MBool b => MBool b
  | MObj es => match assocW k es with Some v => v | None => MBool false end
  end.

Fixpoint getSubMaskL (m : Mask) (parts : list string) : Mask :=
  match parts with
  | [] => m
  | k :: rest => getSubMaskL (subMaskAt m k) rest
  end.

Definition getSubMask (m : Mask) (path : string) : Mask :=
  getSubMaskL m (splitPath path).

Definition isTrueMask (m : Mask) : bool :=
  match m with MBool true => true | _ => false end.

(** [mask.checkPath(path)]: the path is wholly included. *)
Definition checkPath (m : Mask) (path : string) : bool :=
  isTrueMask (getSubMask m path).

Fixpoint addFieldL (parts : list string) (m : Mask) : Mask :=
  match parts with
  | [] => MBool true
  | k :: rest =>
      match m with
      | MBool true => MBool true
      | MBool false => MObj [(k, addFieldL rest (MBool false))]
      | MObj es => MObj (assocSet k (addFieldL rest (subMaskAt m k)) es)
      end
  end.

(** [mask.addField(path)]: include the path; nothing changes when an
    ancestor already includes it. *)
Definition addField (m : Mask) (path : string) : Mask :=
  addFieldL (splitPath path) m.

(** [ObjectMask.invertMask]: every boolean flipped; an object without a
    wildcard gains [_: true] for the keys it did not mention. *)
Fixpoint invertMask (m : Mask) : Mask :=
  match m with
  | MBool b => MBool (negb b)
  | MObj es =>
      let es' :=
        (fix go (l : list (string * Mask)) : list (string * Mask) :=
           match l with
           | [] => []
           | (k, v) :: t => (k, invertMask v) :: go t
           end) es in
      MObj (if hasKey "_" es then es' else es' ++ [("_", MBool true)])
  end.

(** The object case of [andMasks]: [ks] holds, per key of the left mask,
    the intersection with that key's submask.  Keys of the left mask meet
    the right mask's entry (or its wildcard), keys only the right mask has
    meet the left wildcard, and the wildcard survives when both have one. *)
Definition andEntries (ks : list (string * (Mask -> Mask)))
  (eb : list (string * Mask)) : list (string * Mask) :=
  let wa := assoc "_" ks in
  let left :=
    mapKept (fun k => negb (String.eqb k "_"))
            (fun k f => f (subMaskAt (MObj eb) k)) ks in
  let right :=
    mapKept (fun k => negb (String.eqb k "_") && negb (hasKey k ks))
            (fun _ vb => match wa with
                         | Some f => f vb
                         | None => MBool false
                         end) eb in
  let wild :=
    match wa, assoc "_" eb with
    | Some f, Some wb => [("_", f wb)]
    | _, _ => []
    end in
  left ++ right ++ wild.

(** [ObjectMask.andMasks(a, b)]: the paths included by both. *)
Fixpoint andMasks (a : Mask) : Mask -> Mask :=
  match a with
  | MBool true => fun b => b
  | MBool false => fun _ => MBool false
  | MObj ea =>
      let ks :=
        (fix go (l : list (string * Mask)) : list (string * (Mask -> Mask)) :=
           match l with
           | [] => []
           | (k, v) :: t => (k, andMasks v) :: go t
           end) ea in
      fun b =>
        match b with
        | MBool true => MObj ea
        | MBool false => MBool false
        | MObj eb => MObj (andEntries ks eb)
        end
  end.

(** [ObjectMask.subtractMasks(min, sub)]. *)
Definition subtractMasks (min sub : Mask) : Mask :=
  andMasks min (invertMask sub).

(** [mask.filterObject(obj)]: the object cut down to the included paths;
    [undefined] when nothing of it is included.  For every key of the
    object, [obj[key]] is filtered by the mask that governs the key and kept
    unless nothing is left of it; array items are governed by the wildcard. *)
Fixpoint filterObject (obj : Value) : Mask -> Value :=
  match obj with
  | VObj ps =>
      let subs :=
        (fix go (l : list (string * Value)) : list (string * (Mask -> Value)) :=
           match l with
           | [] => []
           | (k, v) :: t => (k, filterObject v) :: go t
           end) ps in
      fun m =>
        match m with
        | MBool true => obj
        | MBool false => VUndef
        | MObj _ =>
            let filtered := fun k =>
              match assoc k subs with
              | Some f => f (subMaskAt m k)
              | None => VUndef
              end in
            VObj (mapKept (fun k => negb (isUndef (filtered k)))
                          (fun k _ => filtered k) subs)
        end
  | VArr items =>
      let subs :=
        (fix go (l : list Value) : list (Mask -> Value) :=
           match l with
           | [] => []
           | v :: t => filterObject v :: go t
           end) items in
      fun m =>
        match m with
        | MBool true => obj
        | MBool false => VUndef
        | MObj _ =>
            VArr (flat_map (fun f =>
                              let r := f (subMaskAt m "_") in
                              if isUndef r then [] else [r]) subs)
        end
  | _ => fun m => match m with MBool true => obj | _ => VUndef end
  end.

(** [q] names [p] or an ancestor of [p]; a wildcard step of [q] stands for
    any key. *)
Fixpoint coversL (qs ps : list string) : bool :=
  match qs, ps with
  | [], _ => true
  | q :: qs', p :: ps' =>
      (String.eqb p q || String.eqb q "_") && coversL qs' ps'
  | _ :: _, [] => false
  end.

Definition pathCovers (q p : string) : bool :=
  coversL (splitPath q) (splitPath p).

(* ================================================================== *)
(** * Errors, promises and the world *)
(* ================================================================== *)

(** The [XError] codes the wrapper throws or inspects; any other failure
    carries [OtherCode]. *)
Inductive ErrorCode : Type :=
| ACCESS_DENIED
| INVALID_ARGUMENT
| NOT_FOUND
| INTERNAL_ERROR
| OtherCode (name : string).

Record XError : Type := mkXError { code : ErrorCode; message : string }.

Definition codeEqb (a b : ErrorCode) : bool :=
  match a, b with
  | ACCESS_DENIED, ACCESS_DENIED => true
  | INVALID_ARGUMENT, INVALID_ARGUMENT => true
  | NOT_FOUND, NOT_FOUND => true
  | INTERNAL_ERROR, INTERNAL_ERROR => true
  | OtherCode x, OtherCode y => String.eqb x y
  | _, _ => false
  end.

(** How a call or a promise ends. *)
Inductive Outcome (A : Type) : Type :=
| Resolved (a : A)
| Rejected (e : XError).
Arguments Resolved {A} a.
Arguments Rejected {A} e.

(** A unimodel document: the store's identity for it (absent until the
    first save) and its payload [doc.data]. *)
Record Doc : Type := mkDoc { docId : option nat; getData : Value }.

Definition setData (d : Doc) (v : Value) : Doc := mkDoc (docId d) v.

(** The collection behind the model. *)
Record Store : Type := mkStore { docs : list Doc; nextId : nat }.

(** The calls the trace records, in call order: the store's lookups and
    writes, and a permission set's query checks, grant resolutions and
    grant checks.  Calls to the parsers, the masks and the filters a
    permission set builds are not recorded. *)
Inductive Event : Type :=
| EvFindOne
| EvFind
| EvFindStream
| EvModelUpdate
| EvModelUpsert
| EvModelRemove
| EvSave (d : Doc)
| EvRemove (d : Doc)
| EvCheckExecuteQuery (target : string)
| EvGetTargetGrant (target : string) (matchObj : Value)
| EvGrantCheck (key : string)
| EvCheckMask (mask : string).

Record World : Type := mkWorld { store : Store; trace : list Event }.

(** Asynchronous code: it runs against the world, may change it, and
    resolves or rejects.  A rejection keeps the changes made so far. *)
Definition M (A : Type) : Type := World -> Outcome A * World.

Definition ret {A : Type} (a : A) : M A := fun w => (Resolved a, w).

Definition throw {A : Type} (c : ErrorCode) (msg : string) : M A :=
  fun w => (Rejected (mkXError c msg), w).

Definition rethrow {A : Type} (e : XError) : M A := fun w => (Rejected e, w).

Definition bind {A B : Type} (m : M A) (k : A -> M B) : M B :=
  fun w =>
    match m w with
    | (Resolved a, w') => k a w'
    | (Rejected e, w') => (Rejected e, w')
    end.

(** [p.catch(handler)] and [try { } catch (ex) { }]. *)
Definition catch {A : Type} (m : M A) (handler : XError -> M A) : M A :=
  fun w =>
    match m w with
    | (Resolved a, w') => (Resolved a, w')
    | (Rejected e, w') => handler e w'
    end.

Definition lift {A : Type} (o : Outcome A) : M A := fun w => (o, w).

Definition log (e : Event) : M unit :=
  fun w => (Resolved tt, mkWorld (store w) (trace w ++ [e])).

Definition getStore : M Store := fun w => (Resolved (store w), w).

Definition putStore (s : Store) : M unit :=
  fun w => (Resolved tt, mkWorld s (trace w)).

Declare Scope async_scope.
Delimit Scope async_scope with async.
Notation "x <- m ;; k" := (bind m (fun x => k))
  (at level 100, m at next level, right associativity) : async_scope.
Notation "m ;;; k" := (bind m (fun _ => k))
  (at level 100, right associativity) : async_scope.
Open Scope async_scope.

(** Run [f] on the items one after the other, stopping at the first
    rejection: a [for] loop whose body may throw, and [grant.check] over a
    list of keys. *)
Fixpoint eachSeries {A : Type} (f : A -> M unit) (l : list A) : M unit :=
  match l with
  | [] => ret tt
  | x :: t => f x ;;; eachSeries f t
  end.

(** Run [f] on every item, dropping its rejections. *)
Fixpoint drainSeries {A : Type} (f : A -> M unit) (l : list A) : M unit :=
  match l with
  | [] => ret tt
  | x :: t => fun w => drainSeries f t (snd (f x w))
  end.

(** A stream's [each(f)] followed by [intoPromise()]: the promise is
    rejected with the first rejection of the callback, but the stream is
    not stopped by it; the items that follow are still handed to the
    callback, one after the other, and their own rejections are dropped. *)
Fixpoint eachStream {A : Type} (f : A -> M unit) (l : list A) : M unit :=
  match l with
  | [] => ret tt
  | x :: t =>
      fun w =>
        match f x w with
        | (Resolved _, w') => eachStream f t w'
        | (Rejected e, w') => (Rejected e, snd (drainSeries f t w'))
        end
  end.

(* ================================================================== *)
(** * Collaborators *)
(* ================================================================== *)

(** A flexperm grant.  [checkKey k] is the verdict of [grant.check(k)] on
    one grant key such as [write] or [writeMask.age]: it passes or throws,
    normally ACCESS_DENIED. *)
Record Grant : Type := mkGrant {
  checkKey : string -> Outcome unit;
  checkMask : string -> Value -> Outcome unit
}.

(** A parsed common-query query. *)
Record Query : Type := mkQuery {
  matches : Value -> bool;
  getExactMatches : list (string * Value)
}.

(** A parsed common-query update. *)
Record Update : Type := mkUpdate {
  getUpdatedFields : list string;
  isFullReplace : bool;
  applyUpdate : Value -> Value
}.

(** A query as handed to a collaborator: the caller's raw object or the
    parsed form. *)
Inductive QuerySpec : Type :=
| RawQuery (q : Value)
| ParsedQuery (q : Query).

(** A flexperm permission set. *)
Record PermissionSet : Type := mkPermissionSet {
  getTargetGrant : string -> Value -> Grant;
  checkExecuteQuery : string -> QuerySpec -> list string -> Outcome unit;
  createFilterByMask : string -> string -> string -> Value -> Value;
  getTargetQueryFields : list string
}.

(** The literals flexperm's constructor is given. *)
Inductive GrantSpec : Type :=
| GrantAll
| GrantObj (caps : list string) (masks : list (string * Mask)).

Record PermissionSpec : Type := mkPermissionSpec {
  specTarget : string;
  specMatch : Value;
  specGrant : GrantSpec
}.

Record Subschema : Type := mkSubschema {
  isPrivate : bool;
  isProtected : bool
}.

(** A common-schema schema: the subschemas [traverseSchema] visits, with
    their paths, and its [normalize]. *)
Record Schema : Type := mkSchema {
  traverseSchema : list (Subschema * string);
  normalize : Value -> Outcome Value
}.

(** The schema side of a unimodel model; [create data] is the payload of
    [model.create(data)], the caller's data with the schema defaults, or
    the model's refusal of data its schema does not accept. *)
Record Model : Type := mkModel {
  getName : string;
  getKeys : option (list string);
  schema : Schema;
  create : Value -> Outcome Value
}.

(** The modules the wrapper requires. *)
Record Env : Type := mkEnv {
  createQuery : Value -> Outcome Query;
  createUpdate : Value -> bool -> Outcome Update;
  createFromDiff : Value -> Value -> Value;
  newPermissionSet : list PermissionSpec -> PermissionSet;
  filterSchema : Schema -> (Subschema -> option bool) -> Schema
}.

Module Params.

(** The per-call parameter bag. *)
Record t : Type := mk {
  permissions : option PermissionSet;
  fields : option (list string);
  extraFields : option (list string);
  requestFields : option (list string);
  filterFields : option (list string);
  skipFilterFields : bool;
  skipFilterPermissions : bool;
  filterFieldsMask : option Mask;
  filterFieldsFunc : option (Value -> Value);
  filterPermissionsFunc : option (Value -> Value);
  allowPrivateFields : bool;
  overwriteProtected : bool;
  query : Value;
  update : Value;
  data : Value
}.

Definition setRequestFields (p : t) (x : option (list string)) : t :=
  mk (permissions p) (fields p) (extraFields p) x (filterFields p)
     (skipFilterFields p) (skipFilterPermissions p) (filterFieldsMask p)
     (filterFieldsFunc p) (filterPermissionsFunc p) (allowPrivateFields p)
     (overwriteProtected p) (query p) (update p) (data p).

Definition setFilterFields (p : t) (x : option (list string)) : t :=
  mk (permissions p) (fields p) (extraFields p) (requestFields p) x
     (skipFilterFields p) (skipFilterPermissions p) (filterFieldsMask p)
     (filterFieldsFunc p) (filterPermissionsFunc p) (allowPrivateFields p)
     (overwriteProtected p) (query p) (update p) (data p).

Definition setFields (p : t) (x : option (list string)) : t :=
  mk (permissions p) x (extraFields p) (requestFields p) (filterFields p)
     (skipFilterFields p) (skipFilterPermissions p) (filterFieldsMask p)
     (filterFieldsFunc p) (filterPermissionsFunc p) (allowPrivateFields p)
     (overwriteProtected p) (query p) (update p) (data p).

Definition setFilterFieldsFunc (p : t) (m : Mask) (f : Value -> Value) : t :=
  mk (permissions p) (fields p) (extraFields p) (requestFields p)
     (filterFields p) (skipFilterFields p) (skipFilterPermissions p)
     (Some m) (Some f) (filterPermissionsFunc p) (allowPrivateFields p)
     (overwriteProtected p) (query p) (update p) (data p).

Definition setFilterPermissionsFunc (p : t) (f : Value -> Value) : t :=
  mk (permissions p) (fields p) (extraFields p) (requestFields p)
     (filterFields p) (skipFilterFields p) (skipFilterPermissions p)
     (filterFieldsMask p) (filterFieldsFunc p) (Some f)
     (allowPrivateFields p) (overwriteProtected p) (query p) (update p)
     (data p).

End Params.

(** ** flexperm: checking a grant *)

(** [grant.check(k, prefix)] on one key. *)
Definition grantCheck (g : Grant) (k prefix : string) : M unit :=
  log (EvGrantCheck (prefix ++ k)) ;;; lift (checkKey g (prefix ++ k)).

(** [grant.check(ks, prefix)] on a list of keys, and on the keys of an
    object: each key in turn, the first failure thrown. *)
Definition grantCheckAll (g : Grant) (ks : list string) (prefix : string)
  : M unit :=
  eachSeries (fun k => grantCheck g k prefix) ks.

Definition grantCheckMask (g : Grant) (mask : string) (obj : Value) : M unit :=
  log (EvCheckMask mask) ;;; lift (checkMask g mask obj).

Definition permGetTargetGrant (p : PermissionSet) (target : string)
  (matchObj : Value) : M Grant :=
  log (EvGetTargetGrant target matchObj) ;;; ret (getTargetGrant p target matchObj).

Definition permCheckExecuteQuery (p : PermissionSet) (target : string)
  (q : QuerySpec) (caps : list string) : M unit :=
  log (EvCheckExecuteQuery target) ;;; lift (checkExecuteQuery p target q caps).

(** ** unimodel: the store *)

(** Modelled from the spec: the store/model collaborator (unimodel), which
    is not part of this repository.  The collection is a list of documents
    in insertion order; a query selects the documents whose payload it
    matches; the sort, skip and limit options of a caller are not
    modelled. *)
Section StoreOps.

Variable env : Env.

Definition parseQuery (q : QuerySpec) : M Query :=
  match q with
  | RawQuery v => lift (createQuery env v)
  | ParsedQuery q' => ret q'
  end.

Definition matching (q : Query) (s : Store) : list Doc :=
  filter (fun d => matches q (getData d)) (docs s).

(** [model.findOne(query)]: the first match, or a NOT_FOUND rejection. *)
Definition modelFindOne (q : QuerySpec) : M Doc :=
  log EvFindOne ;;;
  q' <- parseQuery q ;;
  s <- getStore ;;
  match matching q' s with
  | d :: _ => ret d
  | [] => throw NOT_FOUND "No matching document"
  end.

Definition modelFind (q : QuerySpec) : M (list Doc) :=
  log EvFind ;;;
  q' <- parseQuery q ;;
  s <- getStore ;;
  ret (matching q' s).

(** [model.findStream(query)]: the finite sequence the stream yields. *)
Definition modelFindStream (q : QuerySpec) : M (list Doc) :=
  log EvFindStream ;;;
  q' <- parseQuery q ;;
  s <- getStore ;;
  ret (matching q' s).

(** [model.findStream(query, params)] on the params object that was
    handed to [model.findOne] just before: the lookup of one document has
    left its mark on the object, and the stream yields the first match
    only. *)
Definition modelFindStreamLimited (q : QuerySpec) : M (list Doc) :=
  log EvFindStream ;;;
  q' <- parseQuery q ;;
  s <- getStore ;;
  ret (firstn 1 (matching q' s)).

Definition sameId (i : option nat) (d : Doc) : bool :=
  match i, docId d with
  | Some a, Some b => Nat.eqb a b
  | _, _ => false
  end.

(** [doc.save()]: a document the store knows is replaced in place, a new
    one is appended under a fresh identity. *)
Definition docSave (d : Doc) : M Doc :=
  log (EvSave d) ;;;
  s <- getStore ;;
  match docId d with
  | Some i =>
      if existsb (sameId (Some i)) (docs s) then
        putStore (mkStore (map (fun x => if sameId (Some i) x then d else x)
                               (docs s)) (nextId s)) ;;;
        ret d
      else
        putStore (mkStore (docs s ++ [d]) (nextId s)) ;;; ret d
  | None =>
      let d' := mkDoc (Some (nextId s)) (getData d) in
      putStore (mkStore (docs s ++ [d']) (S (nextId s))) ;;; ret d'
  end.

(** [doc.remove()]. *)
Definition docRemove (d : Doc) : M unit :=
  log (EvRemove d) ;;;
  s <- getStore ;;
  putStore (mkStore (filter (fun x => negb (sameId (docId d) x)) (docs s))
                    (nextId s)).

(** [model.update(query, update)]: every match updated by the store. *)
Definition modelUpdate (q : Query) (u : Update) : M unit :=
  log EvModelUpdate ;;;
  s <- getStore ;;
  putStore (mkStore (map (fun d => if matches q (getData d)
                                   then setData d (applyUpdate u (getData d))
                                   else d) (docs s)) (nextId s)).

(** [model.upsert(query, update)]: as [update], or one insert built
    from the exact matches when nothing matches; the insert is rejected
    when the model refuses the document. *)
Definition modelUpsert (m : Model) (q : Query) (u : Update) : M unit :=
  log EvModelUpsert ;;;
  s <- getStore ;;
  match matching q s with
  | [] =>
      data <- lift (create m (applyUpdate u (objectFromPaths (getExactMatches q)))) ;;
      putStore (mkStore (docs s ++ [mkDoc (Some (nextId s)) data])
                        (S (nextId s)))
  | _ :: _ =>
      putStore (mkStore (map (fun d => if matches q (getData d)
                                       then setData d (applyUpdate u (getData d))
                                       else d) (docs s)) (nextId s))
  end.

(** [model.remove(query)]. *)
Definition modelRemove (q : Query) : M unit :=
  log EvModelRemove ;;;
  s <- getStore ;;
  putStore (mkStore (filter (fun d => negb (matches q (getData d))) (docs s))
                    (nextId s)).

End StoreOps.

(* ================================================================== *)
(** * ModelAccessWrapper *)
(* ================================================================== *)

(** The [{ data, doc }] pair handed back by the read operations. *)
Record ResultObject : Type := mkResultObject {
  resultData : Value;
  resultDoc : Doc
}.

(** The hook registry inherited from CrispHooks.  A handler receives the
    parameter bag, may change it, may touch the world, and may reject. *)
Record CrispHooks : Type := mkCrispHooks {
  triggerSync : string -> Params.t -> string -> M Params.t;
  trigger : string -> Params.t -> M Params.t
}.

Definition noHooks : CrispHooks :=
  mkCrispHooks (fun _ p _ => ret p) (fun _ p => ret p).

Module Options.

(** The constructor's options. *)
Record t : Type := mk {
  model : Model;
  serialize : option (Doc -> Params.t -> M Value);
  keys : option (list string);
  permissionsTarget : option string;
  allowNoPermissions : bool
}.

End Options.

(** The wrapper instance, [this]. *)
Record ModelAccessWrapper : Type := mkModelAccessWrapper {
  permissionsTarget : string;
  allowNoPermissions : bool;
  model : Model;
  serialize : Doc -> Params.t -> M Value;
  keyFields : list string;
  hasPrivateFields : bool;
  hasProtectedFields : bool;
  publicMask : Mask;
  privateMask : Mask;
  protectedMask : Mask;
  protectedFields : list string;
  publicPrivateMask : Mask;
  globalPermissions : PermissionSet;
  publicSchema : Schema;
  hooks : CrispHooks
}.

(** What the schema traversal in the constructor accumulates. *)
Record Classification : Type := mkClassification {
  cHasPrivateFields : bool;
  cHasProtectedFields : bool;
  cPrivateMask : Mask;
  cProtectedMask : Mask;
  cProtectedFields : list string
}.

(** The [onSubschema] callback of the constructor. *)
Definition onSubschema (c : Classification) (visit : Subschema * string)
  : Classification :=
  let (subschema, path) := visit in
  let c1 :=
    if isPrivate subschema then
      mkClassification true (cHasProtectedFields c)
        (addField (cPrivateMask c) path) (cProtectedMask c) (cProtectedFields c)
    else c in
  if isProtected subschema then
    mkClassification (cHasPrivateFields c1) true (cPrivateMask c1)
      (addField (cProtectedMask c1) path) (cProtectedFields c1 ++ [path])
  else c1.

Definition classify (s : Schema) : Classification :=
  fold_left onSubschema (traverseSchema s)
    (mkClassification false false (MObj []) (MObj []) []).

Section Wrapper.

Variable env : Env.

(** [new ModelAccessWrapper(options)]. *)
Definition constructor (options : Options.t) : Outcome ModelAccessWrapper :=
  let model := Options.model options in
  let target :=
    match Options.permissionsTarget options with
    | Some t => if String.eqb t "" then getName model else t
    | None => getName model
    end in
  let serialize :=
    match Options.serialize options with
    | Some f => f
    | None => fun doc _ => ret (getData doc)
    end in
  let keyFields :=
    match Options.keys options with
    | Some ks => Some ks
    | None => getKeys model
    end in
  match keyFields with
  | None | Some [] =>
      Rejected (mkXError INTERNAL_ERROR "No key fields could be found")
  | Some keyFields =>
      let universal := MObj [("_", MBool true)] in
      let c := classify (schema model) in
      let publicMask := subtractMasks universal (cPrivateMask c) in
      Resolved
        (mkModelAccessWrapper target (Options.allowNoPermissions options)
           model serialize keyFields
           (cHasPrivateFields c) (cHasProtectedFields c)
           publicMask (cPrivateMask c) (cProtectedMask c)
           (cProtectedFields c) universal
           (newPermissionSet env
              [mkPermissionSpec "global" (VObj [])
                 (GrantObj ["global"]
                    [("readMask", publicMask); ("writeMask", publicMask)])])
           (filterSchema env (schema model)
              (fun subschema =>
                 if isPrivate subschema then Some false else None))
           noHooks)
  end.

(** Registering hook handlers on an instance. *)
Definition withHooks (this : ModelAccessWrapper) (h : CrispHooks)
  : ModelAccessWrapper :=
  mkModelAccessWrapper (permissionsTarget this) (allowNoPermissions this)
    (model this) (serialize this) (keyFields this) (hasPrivateFields this)
    (hasProtectedFields this) (publicMask this) (privateMask this)
    (protectedMask this) (protectedFields this) (publicPrivateMask this)
    (globalPermissions this) (publicSchema this) h.

Variable this : ModelAccessWrapper.

Definition isSome {A : Type} (o : option A) : bool :=
  match o with Some _ => true | None => false end.

Definition orNil (o : option (list string)) : list string :=
  match o with Some l => l | None => [] end.

(** [x || {}]. *)
Definition orEmptyObject (v : Value) : Value :=
  if truthy v then v else VObj [].

(** The mask object built by [setPath(mask, field, true)]. *)
Fixpoint maskSetPathL (m : Mask) (parts : list string) : Mask :=
  match parts with
  | [] => MBool true
  | k :: rest =>
      match m with
      | MObj es =>
          MObj (assocSet k
                  (maskSetPathL (match assoc k es with
                                 | Some v => v
                                 | None => MObj []
                                 end) rest) es)
      | MBool _ => MObj [(k, maskSetPathL (MObj []) rest)]
      end
  end.

(** The first two steps of [prepareResultObject]: private fields are
    normalized away from the in-memory document, then the document is
    serialized. *)
Definition serializeDocument (doc : Doc) (params : Params.t)
  : M (Doc * Value) :=
  doc <- (if negb (Params.allowPrivateFields params) && hasPrivateFields this
          then d <- lift (normalize (publicSchema this) (getData doc)) ;;
               ret (setData doc d)
          else ret doc) ;;
  data <- serialize this doc params ;;
  ret (doc, data).

Definition prepareResultObject (doc : Doc) (params : Params.t)
  : M (option ResultObject) :=
  serialized <- serializeDocument doc params ;;
  let (doc, data) := serialized in
  if negb (truthy data) then ret None
  else
    data <- match Params.filterPermissionsFunc params with
            | Some filterPermissionsFunc =>
                let data := filterPermissionsFunc data in
                if negb (truthy data)
                then throw ACCESS_DENIED "No access to data fields"
                else ret data
            | None => ret data
            end ;;
    data <- match Params.filterFieldsFunc params with
            | Some filterFieldsFunc =>
                let data := filterFieldsFunc data in
                if negb (truthy data)
                then throw ACCESS_DENIED "No access to any requested fields"
                else ret data
            | None => ret data
            end ;;
    ret (Some (mkResultObject data doc)).

Definition _preprocessParams (params : Params.t) (method : string)
  : M Params.t :=
  params <- triggerSync (hooks this) "preprocess-params" params method ;;
  if negb (isSome (Params.permissions params)) && negb (allowNoPermissions this)
  then throw INVALID_ARGUMENT "No permissions supplied"
  else
    let params :=
      if negb (isSome (Params.requestFields params))
         && isSome (Params.fields params)
      then
        let permissionsFields :=
          match Params.permissions params with
          | Some permissions => getTargetQueryFields permissions
          | None => []
          end in
        Params.setRequestFields params
          (Some (union [orNil (Params.fields params);
                        orNil (Params.extraFields params);
                        permissionsFields]))
      else params in
    let params :=
      if isSome (Params.fields params)
         && negb (isSome (Params.filterFields params))
      then Params.setFilterFields params (Params.fields params)
      else params in
    let params :=
      if isSome (Params.requestFields params)
      then Params.setFields params (Params.requestFields params)
      else params in
    let params :=
      match Params.filterFields params with
      | Some filterFields =>
          if negb (Params.skipFilterFields params) then
            let filterFieldsMask :=
              fold_left (fun m field => maskSetPathL m (splitPath field))
                        filterFields (MObj []) in
            Params.setFilterFieldsFunc params filterFieldsMask
              (fun obj => filterObject obj filterFieldsMask)
          else params
      | None => params
      end in
    let params :=
      match Params.permissions params with
      | Some permissions =>
          if negb (Params.skipFilterPermissions params) then
            Params.setFilterPermissionsFunc params
              (createFilterByMask permissions (permissionsTarget this)
                 "read" "readMask")
          else params
      | None => params
      end in
    ret params.

(** The iteratee of [query]: a result, [null] for a document the caller
    may not see, and whether the document was counted as filtered. *)
Definition prepareOrNull (params : Params.t) (doc : Doc)
  : M (option ResultObject * bool) :=
  catch (r <- prepareResultObject doc params ;; ret (r, false))
        (fun err =>
           if codeEqb (code err) ACCESS_DENIED then ret (None, true)
           else rethrow err).

(** [pasync.mapSeries]. *)
Fixpoint mapSeries {A B : Type} (f : A -> M B) (l : list A) : M (list B) :=
  match l with
  | [] => ret []
  | x :: t => y <- f x ;; ys <- mapSeries f t ;; ret (y :: ys)
  end.

Definition countTrue (l : list bool) : nat := length (filter (fun b => b) l).

(** What [query] does with the documents the store found. *)
Definition queryResults (params : Params.t) (docs : list Doc)
  : M (list (option ResultObject)) :=
  rs <- mapSeries (prepareOrNull params) docs ;;
  let numFilteredDocs := countTrue (map snd rs) in
  if Nat.leb (length docs) numFilteredDocs && negb (Nat.eqb (length docs) 0)
  then throw ACCESS_DENIED "All results filtered."
  else ret (map fst rs).

(** Every operation starts with [_preprocessParams] and its pre-hook. *)
Definition prelude (params : Params.t) (method hook : string) : M Params.t :=
  params <- _preprocessParams params method ;;
  trigger (hooks this) hook params.

(** [query] up to and including [model.find]. *)
Definition queryDocuments (params : Params.t) : M (Params.t * list Doc) :=
  params <- prelude params "query" "pre-query" ;;
  match Params.permissions params with
  | Some permissions =>
      permCheckExecuteQuery permissions (permissionsTarget this)
        (RawQuery (Params.query params)) ["query"]
  | None => ret tt
  end ;;;
  (if negb (Params.allowPrivateFields params) && hasPrivateFields this
   then permCheckExecuteQuery (globalPermissions this) "global"
          (RawQuery (Params.query params)) ["global"]
   else ret tt) ;;;
  docs <- modelFind env (RawQuery (Params.query params)) ;;
  ret (params, docs).

Definition query (params : Params.t) : M (list (option ResultObject)) :=
  found <- queryDocuments params ;;
  queryResults (fst found) (snd found).

(** [try { body } catch (ex) { onError(ex) }] followed by [next], where
    the handler returns from the enclosing function; also
    [p.then(next, onError)]. *)
Definition tryThen {A B : Type} (body : M A) (next : A -> M B)
  (onError : XError -> M B) : M B :=
  fun w =>
    match body w with
    | (Resolved a, w') => next a w'
    | (Rejected ex, w') => onError ex w'
    end.

Definition _checkDiffPermissions (permissions : PermissionSet) (doc : Doc)
  (data : Value) (overwriteProtected : bool) : M unit :=
  grant <- permGetTargetGrant permissions (permissionsTarget this) data ;;
  let patch := createFromDiff env (getData doc) data in
  u <- lift (createUpdate env patch false) ;;
  let fields := pull (getUpdatedFields u) "_id" in
  fields <-
    (if overwriteProtected then
       grantCheck grant "overwriteProtected" "" ;;; ret fields
     else if hasProtectedFields this then
       if existsb (fun field => negb (isUndef (getPath data field)))
                  (protectedFields this)
       then throw INVALID_ARGUMENT "Target document contains protected fields."
       else ret (pullAll fields (protectedFields this))
     else ret fields) ;;
  grantCheck grant "write" "" ;;;
  grantCheckAll grant fields "writeMask.".

(** The key values [put] reads off the data, one per key field. *)
Fixpoint extractKeys (data : Value) (keyFields : list string)
  : M (list (string * Value)) :=
  match keyFields with
  | [] => ret []
  | field :: rest =>
      let value := getPath data field in
      match value with
      | VUndef | VNull =>
          throw INVALID_ARGUMENT ("Missing document key " ++ field)
      | _ =>
          if negb (isScalar value)
          then throw INVALID_ARGUMENT (field ++ " key must be a scalar")
          else ks <- extractKeys data rest ;; ret (assocSet field value ks)
      end
  end.

(** The existing document's private and protected fields copied onto the
    incoming data. *)
Definition mergeExisting (params : Params.t) (doc : Doc) (data : Value)
  : Value :=
  let data :=
    if hasPrivateFields this && negb (Params.allowPrivateFields params)
    then merge data (orEmptyObject (filterObject (getData doc) (privateMask this)))
    else data in
  if hasProtectedFields this && negb (Params.overwriteProtected params)
  then merge data (orEmptyObject (filterObject (getData doc) (protectedMask this)))
  else data.

(** The authorization step of [put], against the existing document or a
    fresh one; skipped when the call carries no permissions. *)
Definition putCheck (params : Params.t) (doc : Doc) (data : Value) : M unit :=
  match Params.permissions params with
  | Some permissions =>
      _checkDiffPermissions permissions doc data
        (Params.overwriteProtected params)
  | None => ret tt
  end.

(** The [.catch] of [put]: anything but NOT_FOUND is rethrown; NOT_FOUND
    turns into the creation of a new document, which the model may refuse.
    [model.create()] is only called when there are permissions to check. *)
Definition putNotFound (params : Params.t) (data : Value) (err : XError)
  : M Doc :=
  if negb (codeEqb (code err) NOT_FOUND) then rethrow err
  else
    match Params.permissions params with
    | Some _ =>
        fresh <- lift (create (model this) VUndef) ;;
        putCheck params (mkDoc None fresh) data
    | None => ret tt
    end ;;;
    created <- lift (create (model this) data) ;;
    ret (mkDoc None created).

(** The [findOne(keys).then(...).catch(...)] chain of [put].  The handler
    sees [data] as the chain left it: merged once the merge has run. *)
Definition putDocument (params : Params.t) (data : Value)
  (keys : list (string * Value)) : M Doc :=
  tryThen (modelFindOne env (RawQuery (VObj keys)))
    (fun doc =>
       tryThen (putCheck params doc data)
         (fun _ =>
            let data := mergeExisting params doc data in
            tryThen (lift (createUpdate env data true))
              (fun update =>
                 if negb (isFullReplace update) then
                   putNotFound params data
                     (mkXError INVALID_ARGUMENT "put() cannot use update operators")
                 else ret (setData doc (applyUpdate update (getData doc))))
              (putNotFound params data))
         (putNotFound params data))
    (putNotFound params data).

(** [put] before the lookup: protected fields are stripped from the data,
    the global write mask is checked, the key values are read off. *)
Definition putPrepare (params : Params.t)
  : M (Value * list (string * Value)) :=
  let data := Params.data params in
  let data :=
    if hasProtectedFields this && negb (Params.overwriteProtected params)
    then filterObject data
           (subtractMasks (publicPrivateMask this) (protectedMask this))
    else data in
  (if hasPrivateFields this && negb (Params.allowPrivateFields params)
   then grant <- permGetTargetGrant (globalPermissions this) "global" data ;;
        grantCheckMask grant "writeMask" data
   else ret tt) ;;;
  keys <- extractKeys data (keyFields this) ;;
  ret (data, keys).

Definition put (params : Params.t) : M (list (string * Value)) :=
  params <- prelude params "put" "pre-put" ;;
  prepared <- putPrepare params ;;
  let (data, keys) := prepared in
  doc <- putDocument params data keys ;;
  result <- docSave doc ;;
  if truthy (getData result)
  then ret (map (fun field => (field, getPath (getData result) field))
                (keyFields this))
  else ret keys.

(** The per-document steps shared by the update and upsert loops. *)
Definition updateOne (update : Update) (permissions : PermissionSet)
  (doc : Doc) : M unit :=
  grant <- permGetTargetGrant permissions (permissionsTarget this) (getData doc) ;;
  grantCheck grant "write" "" ;;;
  grantCheckAll grant (getUpdatedFields update) "writeMask." ;;;
  _ <- docSave (setData doc (applyUpdate update (getData doc))) ;;
  ret tt.

(** [_upsertLoop].  The source hands the one [params] object to
    [findOne] and then to [findStream], so the stream is the limited one. *)
Definition _upsertLoop (query : Query) (update : Update)
  (permissions : PermissionSet) (params : Params.t) : M unit :=
  let updatedFields := getUpdatedFields update in
  tryThen (modelFindOne env (ParsedQuery query))
    (fun _ =>
       docs <- modelFindStreamLimited env (ParsedQuery query) ;;
       eachStream (updateOne update permissions) docs)
    (fun err =>
       if negb (codeEqb (code err) NOT_FOUND) then rethrow err
       else
         let dataToInsert :=
           applyUpdate update (objectFromPaths (getExactMatches query)) in
         grant <- permGetTargetGrant permissions (permissionsTarget this)
                    dataToInsert ;;
         grantCheck grant "write" "" ;;;
         grantCheckAll grant updatedFields "writeMask." ;;;
         created <- lift (create (model this) dataToInsert) ;;
         _ <- docSave (mkDoc None created) ;;
         ret tt).

(** The guard both [update] and [upsert] apply to the parsed update. *)
Definition rejectProtected (params : Params.t) (updatedFields : list string)
  : M unit :=
  if hasProtectedFields this && negb (Params.overwriteProtected params) then
    let containsProtected :=
      existsb (fun field => includes updatedFields field) (protectedFields this) in
    if containsProtected
    then throw INVALID_ARGUMENT "Target document contains protected fields."
    else ret tt
  else ret tt.

(** The [try] block of [upsert]. *)
Definition upsertBulkCheck (grant : Grant) (query : Query) (update : Update)
  : M unit :=
  let fields := union [keys (getExactMatches query); getUpdatedFields update] in
  grantCheck grant "write" "" ;;;
  grantCheckAll grant fields "writeMask.".

(** The query checks every query-driven write starts with. *)
Definition authorizeQuery (params : Params.t) (permissions : PermissionSet)
  (query : Query) : M unit :=
  permCheckExecuteQuery permissions (permissionsTarget this)
    (ParsedQuery query) ["query"] ;;;
  if hasPrivateFields this && negb (Params.allowPrivateFields params)
  then permCheckExecuteQuery (globalPermissions this) "global"
         (ParsedQuery query) ["global"]
  else ret tt.

(** The grant for the query's exact matches, with the
    [overwriteProtected] capability checked when it is asked for. *)
Definition resolveGrant (params : Params.t) (permissions : PermissionSet)
  (query : Query) : M Grant :=
  let exactMatchObj := objectFromPaths (getExactMatches query) in
  grant <- permGetTargetGrant permissions (permissionsTarget this)
             exactMatchObj ;;
  (if Params.overwriteProtected params
   then grantCheck grant "overwriteProtected" ""
   else ret tt) ;;;
  ret grant.

(** [upsert] from the query checks up to the [try] block. *)
Definition upsertGrant (params : Params.t) (permissions : PermissionSet)
  (query : Query) : M Grant :=
  authorizeQuery params permissions query ;;;
  grant <- resolveGrant params permissions query ;;
  (if hasPrivateFields this && negb (Params.allowPrivateFields params)
   then g <- permGetTargetGrant (globalPermissions this) "global"
               (objectFromPaths (getExactMatches query)) ;;
        grantCheckAll g (keys (getExactMatches query)) "writeMask."
   else ret tt) ;;;
  ret grant.

(** [upsert] once the query and the update are parsed. *)
Definition upsertParsed (params : Params.t) (query : Query) (update : Update)
  : M unit :=
  rejectProtected params (getUpdatedFields update) ;;;
  match Params.permissions params with
  | Some permissions =>
      grant <- upsertGrant params permissions query ;;
      tryThen (upsertBulkCheck grant query update)
        (fun _ => modelUpsert (model this) query update)
        (fun ex =>
           if codeEqb (code ex) ACCESS_DENIED
           then _upsertLoop query update permissions params
           else rethrow ex)
  | None => modelUpsert (model this) query update
  end.

Definition upsert (params : Params.t) : M unit :=
  params <- prelude params "upsert" "pre-upsert" ;;
  query <- lift (createQuery env (Params.query params)) ;;
  update <- lift (createUpdate env (Params.update params) false) ;;
  upsertParsed params query update.

Definition _updateLoop (query : Query) (update : Update)
  (permissions : PermissionSet) (params : Params.t) : M unit :=
  docs <- modelFindStream env (ParsedQuery query) ;;
  eachStream (updateOne update permissions) docs.

(** The [try] block of [update]. *)
Definition updateBulkCheck (params : Params.t) (grant : Grant)
  (query : Query) (updatedFields : list string) : M unit :=
  grantCheck grant "write" "" ;;;
  grantCheckAll grant updatedFields "writeMask." ;;;
  if hasPrivateFields this && negb (Params.allowPrivateFields params)
  then g <- permGetTargetGrant (globalPermissions this) "global"
              (objectFromPaths (getExactMatches query)) ;;
       grantCheckAll g (keys (getExactMatches query)) "writeMask."
  else ret tt.

(** [update] from the query checks up to the [try] block. *)
Definition updateGrant (params : Params.t) (permissions : PermissionSet)
  (query : Query) : M Grant :=
  authorizeQuery params permissions query ;;;
  resolveGrant params permissions query.

(** [update] once the query and the update are parsed. *)
Definition updateParsed (params : Params.t) (query : Query) (update : Update)
  : M unit :=
  rejectProtected params (getUpdatedFields update) ;;;
  match Params.permissions params with
  | Some permissions =>
      grant <- updateGrant params permissions query ;;
      tryThen (updateBulkCheck params grant query (getUpdatedFields update))
        (fun _ => modelUpdate query update)
        (fun ex =>
           if codeEqb (code ex) ACCESS_DENIED
           then _updateLoop query update permissions params
           else rethrow ex)
  | None => modelUpdate query update
  end.

Definition update (params : Params.t) : M unit :=
  params <- prelude params "update" "pre-update" ;;
  query <- lift (createQuery env (Params.query params)) ;;
  update <- lift (createUpdate env (Params.update params) false) ;;
  updateParsed params query update.

Definition removeOne (permissions : PermissionSet) (doc : Doc) : M unit :=
  grant <- permGetTargetGrant permissions (permissionsTarget this) (getData doc) ;;
  grantCheck grant "delete" "" ;;;
  docRemove doc.

Definition _removeLoop (query : Query) (permissions : PermissionSet)
  (params : Params.t) : M unit :=
  docs <- modelFindStream env (ParsedQuery query) ;;
  eachStream (removeOne permissions) docs.

(** The [try] block of [remove]. *)
Definition removeBulkCheck (permissions : PermissionSet) (query : Query)
  : M unit :=
  let exactMatchObj := objectFromPaths (getExactMatches query) in
  grant <- permGetTargetGrant permissions (permissionsTarget this)
             exactMatchObj ;;
  grantCheck grant "delete" "".

(** [remove] once the query is parsed. *)
Definition removeParsed (params : Params.t) (query : Query) : M unit :=
  match Params.permissions params with
  | Some permissions =>
      authorizeQuery params permissions query ;;;
      tryThen (removeBulkCheck permissions query)
        (fun _ => modelRemove query)
        (fun ex =>
           if codeEqb (code ex) ACCESS_DENIED
           then _removeLoop query permissions params
           else rethrow ex)
  | None => modelRemove query
  end.

Definition remove (params : Params.t) : M unit :=
  params <- prelude params "remove" "pre-remove" ;;
  query <- lift (createQuery env (Params.query params)) ;;
  removeParsed params query.

End Wrapper.

(* ================================================================== *)
(** * Reference collaborators *)
(* ================================================================== *)

(** Executable stand-ins for the libraries the wrapper requires, and the
    [Animal] fixture of the test suite.  The general theorems do not
    depend on them; they serve to run the wrapper on concrete calls. *)
Module Ref.

Fixpoint valueEqb (a : Value) : Value -> bool :=
  match a with
  | VUndef => fun b => match b with VUndef => true | _ => false end
  | VNull => fun b => match b with VNull => true | _ => false end
  | VBool x => fun b => match b with VBool y => Bool.eqb x y | _ => false end
  | VNum x => fun b => match b with VNum y => Z.eqb x y | _ => false end
  | VStr x => fun b => match b with VStr y => String.eqb x y | _ => false end
  | VArr xs =>
      let eqs := (fix go (l : list Value) : list (Value -> bool) :=
                    match l with
                    | [] => []
                    | v :: t => valueEqb v :: go t
                    end) xs in
      fun b =>
        match b with
        | VArr ys =>
            Nat.eqb (length eqs) (length ys)
            && forallb (fun fy => fst fy (snd fy)) (combine eqs ys)
        | _ => false
        end
  | VObj ps =>
      let eqs := (fix go (l : list (string * Value))
                    : list (string * (Value -> bool)) :=
                    match l with
                    | [] => []
                    | (k, v) :: t => (k, valueEqb v) :: go t
                    end) ps in
      fun b =>
        match b with
        | VObj qs =>
            Nat.eqb (length eqs) (length qs)
            && forallb (fun kf => match assoc (fst kf) qs with
                                  | Some y => snd kf y
                                  | None => false
                                  end) eqs
        | _ => false
        end
  end.

Definition isOperator (k : string) : bool :=
  match k with
  | String c _ => Ascii.eqb c "$"%char
  | EmptyString => false
  end.

Definition joinPath (prefix k : string) : string :=
  if String.eqb prefix "" then k else prefix ++ "." ++ k.

(** ** common-query *)

(** One constraint of a raw query: a literal pins the field, [{$gt: n}]
    bounds it from below. *)
Definition matchesConstraint (d : Value) (kc : string * Value) : bool :=
  match snd kc with
  | VObj [("$gt", VNum n)] =>
      match getPath d (fst kc) with
      | VNum m => Z.ltb n m
      | _ => false
      end
  | c => valueEqb c (getPath d (fst kc))
  end.

Definition createQuery (raw : Value) : Outcome Query :=
  match raw with
  | VObj cs =>
      if existsb (fun kc => isOperator (fst kc)) cs
      then Rejected (mkXError (OtherCode "query_validation_error")
                       "Unsupported query operator")
      else Resolved
             (mkQuery (fun d => forallb (matchesConstraint d) cs)
                      (filter (fun kc => isScalar (snd kc)) cs))
  | _ => Rejected (mkXError (OtherCode "query_validation_error")
                     "Query must be an object")
  end.

Fixpoint deletePathL (v : Value) (parts : list string) : Value :=
  match parts with
  | [] => v
  | [k] =>
      match v with
      | VObj ps => VObj (filter (fun kv => negb (String.eqb (fst kv) k)) ps)
      | _ => v
      end
  | k :: rest =>
      match v with
      | VObj ps =>
          match assoc k ps with
          | Some x => VObj (assocSet k (deletePathL x rest) ps)
          | None => v
          end
      | _ => v
      end
  end.

Definition operand (raw : Value) (op : string) : list (string * Value) :=
  match prop raw op with
  | VObj ps => ps
  | _ => []
  end.

Definition createUpdate (raw : Value) (allowFullReplace : bool)
  : Outcome Update :=
  match raw with
  | VObj ps =>
      let hasOperators := existsb (fun kv => isOperator (fst kv)) ps in
      let hasPlain := existsb (fun kv => negb (isOperator (fst kv))) ps in
      if hasOperators && hasPlain then
        Rejected (mkXError (OtherCode "update_validation_error")
                    "Update mixes operators and plain fields")
      else if hasOperators then
        let sets := operand raw "$set" in
        let unsets := operand raw "$unset" in
        Resolved
          (mkUpdate (keys sets ++ keys unsets) false
             (fun d =>
                fold_left (fun o kv => deletePathL o (splitPath (fst kv)))
                  unsets
                  (fold_left (fun o kv => setPath o (fst kv) (snd kv)) sets d)))
      else if allowFullReplace then
        Resolved (mkUpdate (keys ps) true (fun _ => raw))
      else
        Resolved
          (mkUpdate (keys ps) false
             (fun d => fold_left (fun o kv => setPath o (fst kv) (snd kv)) ps d))
  | _ => Rejected (mkXError (OtherCode "update_validation_error")
                     "Update must be an object")
  end.

(** The changes that turn [from] into [to]: a path with its new value,
    or with nothing when the path is to be unset. *)
Fixpoint diffFrom (from : Value) : Value -> string -> list (string * option Value) :=
  match from with
  | VObj fps =>
      let subs := (fix go (l : list (string * Value))
                     : list (string * (Value -> string -> list (string * option Value))) :=
                     match l with
                     | [] => []
                     | (k, v) :: t => (k, diffFrom v) :: go t
                     end) fps in
      fun to prefix =>
        match to with
        | VObj tps =>
            (flat_map (fun kv =>
                        match assoc (fst kv) subs with
                        | Some f => f (snd kv) (joinPath prefix (fst kv))
                        | None => [(joinPath prefix (fst kv), Some (snd kv))]
                        end) tps
            ++ flat_map (fun kf =>
                           if hasKey (fst kf) tps then []
                           else [(joinPath prefix (fst kf), None)]) subs)%list
        | _ => [(prefix, Some to)]
        end
  | _ => fun to prefix =>
           if valueEqb from to then [] else [(prefix, Some to)]
  end.

Definition createFromDiff (from to : Value) : Value :=
  let changes := diffFrom from to "" in
  VObj [("$set", VObj (flat_map (fun c => match snd c with
                                           | Some v => [(fst c, v)]
                                           | None => []
                                           end) changes));
        ("$unset", VObj (flat_map (fun c => match snd c with
                                             | Some _ => []
                                             | None => [(fst c, VBool true)]
                                             end) changes))].

(** ** flexperm *)

Definition specApplies (target : string) (obj : Value) (s : PermissionSpec)
  : bool :=
  String.eqb (specTarget s) target
  && match specMatch s with
     | VObj ms => forallb (fun kv => valueEqb (snd kv) (getPath obj (fst kv))) ms
     | _ => true
     end.

(** The grant key split at its first dot: [writeMask.a.b] is the mask
    name [writeMask] and the path [a.b]. *)
Fixpoint splitKey (acc key : string) : string * option string :=
  match key with
  | EmptyString => (acc, None)
  | String c rest =>
      if Ascii.eqb c "."%char then (acc, Some rest)
      else splitKey (acc ++ String c "") rest
  end.

Definition grants (g : GrantSpec) (key : string) : bool :=
  match g with
  | GrantAll => true
  | GrantObj caps masks =>
      match splitKey "" key with
      | (cap, None) => memStr cap caps
      | (maskName, Some path) =>
          match assoc maskName masks with
          | Some m => checkPath m path
          | None => false
          end
      end
  end.

Definition denied (key : string) : Outcome unit :=
  Rejected (mkXError ACCESS_DENIED ("Access denied: " ++ key)).

Definition grantOf (gs : list GrantSpec) : Grant :=
  let has := fun key => existsb (fun g => grants g key) gs in
  mkGrant
    (fun key => if has key then Resolved tt else denied key)
    (fun maskName obj =>
       match obj with
       | VObj ps =>
           match find (fun kv => negb (has (maskName ++ "." ++ fst kv))) ps with
           | Some kv => denied (maskName ++ "." ++ fst kv)
           | None => Resolved tt
           end
       | _ => Resolved tt
       end).

Definition applicable (specs : list PermissionSpec) (target : string)
  (obj : Value) : list GrantSpec :=
  map specGrant (filter (specApplies target obj) specs).

Definition queriedFields (q : QuerySpec) : list string * Value :=
  match q with
  | RawQuery (VObj cs) =>
      (keys cs, objectFromPaths (filter (fun kc => isScalar (snd kc)) cs))
  | RawQuery _ => ([], VObj [])
  | ParsedQuery q' =>
      (keys (getExactMatches q'), objectFromPaths (getExactMatches q'))
  end.

Definition firstRejection (l : list (Outcome unit)) : Outcome unit :=
  match find (fun o => match o with Rejected _ => true | _ => false end) l with
  | Some o => o
  | None => Resolved tt
  end.

(** [new PermissionSet(specs)].  The wrapper calls [getTargetQueryFields]
    without a target, which flexperm answers with no field. *)
Definition PermissionSet_new (specs : list PermissionSpec) : PermissionSet :=
  mkPermissionSet
    (fun target obj => grantOf (applicable specs target obj))
    (fun target q caps =>
       let (fs, obj) := queriedFields q in
       let g := grantOf (applicable specs target obj) in
       firstRejection (map (checkKey g) caps
                       ++ map (fun f => checkKey g ("readMask." ++ f)) fs))
    (fun target cap maskName data =>
       let gs := applicable specs target data in
       if negb (existsb (fun g => grants g cap) gs) then VUndef
       else
         match find (fun g => grants g cap) gs with
         | Some GrantAll => data
         | Some (GrantObj _ masks) =>
             match assoc maskName masks with
             | Some m => filterObject data m
             | None => VUndef
             end
         | None => VUndef
         end)
    [].

(** ** common-schema *)

Definition filterSchema (s : Schema) (keep : Subschema -> option bool) : Schema :=
  let kept := filter (fun visit => match keep (fst visit) with
                                   | Some false => false
                                   | _ => true
                                   end) (traverseSchema s) in
  let known := fold_left addField (map snd kept) (MObj []) in
  mkSchema kept (fun v => Resolved (filterObject v known)).

Definition env : Env :=
  mkEnv createQuery createUpdate createFromDiff PermissionSet_new filterSchema.

(** ** The fixtures of the test suite *)

Definition plain : Subschema := mkSubschema false false.

Definition animalSchema : Schema :=
  mkSchema
    [(plain, "id"); (plain, "animalType"); (plain, "name"); (plain, "age");
     (mkSubschema true false, "ssn");
     (mkSubschema false true, "coolness");
     (mkSubschema false true, "favNumber")]
    (fun v => Resolved v).

(** The schema defaults: [animalType] is ['dog'], [coolness] is 4; a default
    fills a field that is missing or [undefined]. *)
Definition withDefault (k : string) (v : Value) (d : list (string * Value))
  : list (string * Value) :=
  match assoc k d with
  | Some VUndef => assocSet k v d
  | Some _ => d
  | None => (d ++ [(k, v)])%list
  end.

Definition animalCreate (data : Value) : Value :=
  let ps := match data with VObj ps => ps | _ => [] end in
  VObj (withDefault "coolness" (VNum 4)
          (withDefault "animalType" (VStr "dog") ps)).

(** [Animal.create(data)]: an [animalType] outside the schema's
    enumeration is refused. *)
Definition animalTypes : list string := ["cat"; "dog"; "horse"; "frog"].

Definition validationError : XError :=
  mkXError (OtherCode "validation_error") "Value is not in enum".

Definition createAnimal (data : Value) : Outcome Value :=
  match prop (animalCreate data) "animalType" with
  | VStr t =>
      if memStr t animalTypes then Resolved (animalCreate data)
      else Rejected validationError
  | _ => Rejected validationError
  end.

Definition Animal : Model :=
  mkModel "Animal" (Some ["id"]) animalSchema createAnimal.

Definition animal (id animalType name : string) (age : Z)
  (extra : list (string * Value)) : Value :=
  VObj ([("id", VStr id); ("animalType", VStr animalType);
         ("name", VStr name); ("age", VNum age)] ++ extra).

Definition testAnimals : Store :=
  mkStore
    [mkDoc (Some 0) (animalCreate (animal "foo" "cat" "Toby" 5 []));
     mkDoc (Some 1) (animalCreate (animal "bar" "dog" "Ruff" 2 []));
     mkDoc (Some 2) (animalCreate (animal "baz" "cat" "Felix" 8 []));
     mkDoc (Some 3) (animalCreate (animal "qux" "horse" "Sammy" 4 []));
     mkDoc (Some 4) (animalCreate (animal "biz" "horse" "Lightning" 3
                                     [("ssn", VStr "123-123-1234")]))]
    5.

Definition world0 : World := mkWorld testAnimals [].

Definition maskOf (paths : list string) : Mask :=
  fold_left addField paths (MObj []).

Definition everything : PermissionSet :=
  PermissionSet_new [mkPermissionSpec "Animal" (VObj []) GrantAll].

Definition partialWrite : PermissionSet :=
  PermissionSet_new
    [mkPermissionSpec "Animal" (VObj [])
       (GrantObj ["read"; "query"; "aggregate"; "write"]
          [("readMask", maskOf ["id"; "animalType"]);
           ("writeMask", maskOf ["id"; "animalType"; "favNumber"])])].

Definition almostEverything : PermissionSet :=
  PermissionSet_new
    [mkPermissionSpec "Animal" (VObj [])
       (GrantObj ["read"; "query"; "aggregate"; "write"]
          [("readMask", MBool true); ("writeMask", MBool true)])].

Definition singleDoc : PermissionSet :=
  PermissionSet_new
    [mkPermissionSpec "Animal" (VObj [("name", VStr "Felix")]) GrantAll;
     mkPermissionSpec "Animal" (VObj [])
       (GrantObj ["query"] [("readMask", MBool true)])].

Definition noRead : PermissionSet :=
  PermissionSet_new [mkPermissionSpec "Animal" (VObj []) (GrantObj [] [])].

Definition options : Options.t := Options.mk Animal None None None false.

Definition params (permissions : PermissionSet) : Params.t :=
  Params.mk (Some permissions) None None None None false false None None None
    false false VUndef VUndef VUndef.

Definition withQuery (p : Params.t) (q : Value) : Params.t :=
  Params.mk (Params.permissions p) (Params.fields p) (Params.extraFields p)
    (Params.requestFields p) (Params.filterFields p)
    (Params.skipFilterFields p) (Params.skipFilterPermissions p)
    (Params.filterFieldsMask p) (Params.filterFieldsFunc p)
    (Params.filterPermissionsFunc p) (Params.allowPrivateFields p)
    (Params.overwriteProtected p) q (Params.update p) (Params.data p).

Definition withUpdate (p : Params.t) (u : Value) : Params.t :=
  Params.mk (Params.permissions p) (Params.fields p) (Params.extraFields p)
    (Params.requestFields p) (Params.filterFields p)
    (Params.skipFilterFields p) (Params.skipFilterPermissions p)
    (Params.filterFieldsMask p) (Params.filterFieldsFunc p)
    (Params.filterPermissionsFunc p) (Params.allowPrivateFields p)
    (Params.overwriteProtected p) (Params.query p) u (Params.data p).

Definition withData (p : Params.t) (d : Value) : Params.t :=
  Params.mk (Params.permissions p) (Params.fields p) (Params.extraFields p)
    (Params.requestFields p) (Params.filterFields p)
    (Params.skipFilterFields p) (Params.skipFilterPermissions p)
    (Params.filterFieldsMask p) (Params.filterFieldsFunc p)
    (Params.filterPermissionsFunc p) (Params.allowPrivateFields p)
    (Params.overwriteProtected p) (Params.query p) (Params.update p) d.

(** A model whose protected field [meta] is an object with a subfield. *)
Definition Profile : Model :=
  mkModel "Profile" (Some ["id"])
    (mkSchema [(plain, "id"); (mkSubschema false true, "meta");
               (plain, "meta.note")]
              (fun v => Resolved v))
    (fun data => Resolved data).

Definition profileOptions : Options.t :=
  Options.mk Profile None None None false.

(** The wrapper [new ModelAccessWrapper({ model: Animal })]. *)
Definition wrapper : ModelAccessWrapper :=
  match constructor env options with
  | Resolved this => this
  | Rejected _ =>
      mkModelAccessWrapper "" false Animal (fun doc _ => ret (getData doc)) []
        false false (MBool true) (MBool false) (MBool false) [] (MBool true)
        everything animalSchema noHooks
  end.

(** [query({ query: {} })] under the [singleDoc] permissions, and what
    the call has found when the results are prepared. *)
Definition singleDocQuery : Params.t := withQuery (params singleDoc) (VObj []).

Definition found (this : ModelAccessWrapper) (p : Params.t)
  : (Params.t * list Doc) * World :=
  match queryDocuments env this p world0 with
  | (Resolved x, w) => (x, w)
  | (Rejected _, w) => ((p, []), w)
  end.

(** A wrapper whose [serialize] option yields nothing for any document. *)
Definition silentOptions : Options.t :=
  Options.mk Animal (Some (fun _ _ => ret VNull)) None None false.

Definition silentWrapper : ModelAccessWrapper :=
  match constructor env silentOptions with
  | Resolved this => this
  | Rejected _ => wrapper
  end.

(** The value a call resolved with. *)
Definition resolvedOr {A : Type} (dflt : A) (r : Outcome A * World) : A :=
  match fst r with
  | Resolved a => a
  | Rejected _ => dflt
  end.

Definition parsedQuery (raw : Value) : Query :=
  match createQuery raw with
  | Resolved q => q
  | Rejected _ => mkQuery (fun _ => false) []
  end.

Definition parsedUpdate (raw : Value) : Update :=
  match createUpdate raw false with
  | Resolved u => u
  | Rejected _ => mkUpdate [] false (fun d => d)
  end.

(** The parameter bag as [_preprocessParams] and the pre-hook leave it. *)
Definition preprocessed (this : ModelAccessWrapper) (p : Params.t) : Params.t :=
  resolvedOr p (prelude this p "" "" world0).

(** [update({ query: {}, update: { $set: { coolness: 9 } } })] with every
    permission. *)
Definition coolnessUpdate : Params.t :=
  withUpdate (withQuery (params everything) (VObj []))
    (VObj [("$set", VObj [("coolness", VNum 9)])]).

(** [update({ query: {}, update: { $set: { age: 9 } } })] under the
    [singleDoc] permissions. *)
Definition ageUpdate (permissions : PermissionSet) (q : Value) : Params.t :=
  withUpdate (withQuery (params permissions) q)
    (VObj [("$set", VObj [("age", VNum 9)])]).

(** A grant that may query, and write the [age] field only. *)
Definition ageWriter : PermissionSet :=
  PermissionSet_new
    [mkPermissionSpec "Animal" (VObj [])
       (GrantObj ["read"; "query"; "write"]
          [("readMask", MBool true); ("writeMask", maskOf ["age"])])].

(** Everything on the document named Toby, querying on the others. *)
Definition tobyWriter : PermissionSet :=
  PermissionSet_new
    [mkPermissionSpec "Animal" (VObj [("name", VStr "Toby")]) GrantAll;
     mkPermissionSpec "Animal" (VObj [])
       (GrantObj ["query"] [("readMask", MBool true)])].


(** Write access to the public fields of an animal. *)
Definition publicWriter : PermissionSet :=
  PermissionSet_new
    [mkPermissionSpec "Animal" (VObj [])
       (GrantObj ["read"; "query"; "write"]
          [("readMask", MBool true);
           ("writeMask", maskOf ["id"; "animalType"; "name"; "age"])])].

(** The payloads of the [put] examples. *)
Definition frog : Value :=
  VObj [("id", VStr "asdf"); ("animalType", VStr "frog")].

Definition olderLightning : Value :=
  VObj [("id", VStr "biz"); ("animalType", VStr "horse");
        ("name", VStr "Lightning"); ("age", VNum 4)].


(** What [put] has prepared, found and checked for a payload. *)
Definition prepared (this : ModelAccessWrapper) (p : Params.t)
  : (Value * list (string * Value)) * World :=
  match putPrepare this (preprocessed this p) world0 with
  | (Resolved x, w) => (x, w)
  | (Rejected _, w) => ((VUndef, []), w)
  end.

Definition lookedUp (e : Env) (this : ModelAccessWrapper) (p : Params.t)
  : Outcome Doc * World :=
  modelFindOne e (RawQuery (VObj (snd (fst (prepared this p)))))
    (snd (prepared this p)).

Definition noDoc : Doc := mkDoc None VUndef.

Definition noError : XError := mkXError (OtherCode "") "".

Definition rejectionOf {A : Type} (o : Outcome A) : XError :=
  match o with Rejected e => e | Resolved _ => noError end.

Definition noGrant : Grant :=
  mkGrant (fun k => denied k) (fun m _ => denied m).

End Ref.

(* ================================================================== *)
(** * Vocabulary of the statements *)
(* ================================================================== *)

Definition isDenied {A : Type} (o : Outcome A) : bool :=
  match o with
  | Rejected e => codeEqb (code e) ACCESS_DENIED
  | Resolved _ => false
  end.

(** An outcome [query] absorbs: a result, or an ACCESS_DENIED rejection. *)
Definition absorbed {A : Type} (o : Outcome A) : bool :=
  match o with
  | Rejected e => codeEqb (code e) ACCESS_DENIED
  | Resolved _ => true
  end.

(** The entry of the result array that stands for a document. *)
Definition slot (o : Outcome (option ResultObject)) : option ResultObject :=
  match o with
  | Resolved r => r
  | Rejected _ => None
  end.

(** The outcome of [prepareResultObject] for each document in turn, each
    run in the world the previous one left. *)
Fixpoint prepareEach (this : ModelAccessWrapper) (params : Params.t)
  (docs : list Doc) (w : World) : list (Outcome (option ResultObject)) * World :=
  match docs with
  | [] => ([], w)
  | d :: t =>
      let (o, w1) := prepareResultObject this d params w in
      let (os, w2) := prepareEach this params t w1 in
      (o :: os, w2)
  end.

Definition allFiltered : XError := mkXError ACCESS_DENIED "All results filtered.".

Definition passes (o : Outcome unit) : bool :=
  match o with Resolved _ => true | Rejected _ => false end.

(** The first rejection in a series of checks. *)
Fixpoint denialOf (os : list (Outcome unit)) : option XError :=
  match os with
  | [] => None
  | Resolved _ :: t => denialOf t
  | Rejected e :: _ => Some e
  end.

(** The keys a series of checks looks at: all of them up to and including
    the first that is rejected. *)
Fixpoint upToDenial (check : string -> Outcome unit) (ks : list string)
  : list string :=
  match ks with
  | [] => []
  | k :: t => if passes (check k) then k :: upToDenial check t else [k]
  end.

Definition outcomeOf (d : option XError) : Outcome unit :=
  match d with None => Resolved tt | Some e => Rejected e end.

(** The world with further events in its trace. *)
Definition logged (w : World) (evs : list Event) : World :=
  mkWorld (store w) (trace w ++ evs).

(** The events a call added to the trace of the world it started in. *)
Definition eventsSince {A : Type} (w : World) (r : Outcome A * World)
  : list Event :=
  skipn (length (trace w)) (trace (snd r)).

(** [m] only ever appends to the trace, and only events satisfying [P]. *)
Definition emits {A : Type} (P : Event -> Prop) (m : M A) : Prop :=
  forall w, exists evs,
    trace (snd (m w)) = (trace w ++ evs)%list /\ Forall P evs.

(** The grant keys a per-document update needs: [write], and the write
    mask entry of every updated field. *)
Definition writeKeys (update : Update) : list string :=
  "write" :: map (fun field => "writeMask." ++ field) (getUpdatedFields update).

(** The rejection, if any, when the grant resolved for the document's own
    data is checked for the given keys. *)
Definition denial (this : ModelAccessWrapper) (permissions : PermissionSet)
  (ks : list string) (doc : Doc) : option XError :=
  denialOf (map (checkKey (getTargetGrant permissions (permissionsTarget this)
                              (getData doc))) ks).

(** The grant resolved for the document's own data allows the keys. *)
Definition authorizedFor (this : ModelAccessWrapper)
  (permissions : PermissionSet) (ks : list string) (doc : Doc) : bool :=
  match denial this permissions ks doc with
  | None => true
  | Some _ => false
  end.

Definition memDoc (x : Doc) (l : list Doc) : bool :=
  existsb (sameId (docId x)) l.

(** Every stored document has an identity of its own. *)
Definition wfStore (s : Store) : Prop :=
  NoDup (map docId (docs s)) /\ Forall (fun d => docId d <> None) (docs s).

Definition isStoreWrite (e : Event) : bool :=
  match e with
  | EvSave _ | EvRemove _ | EvModelUpdate | EvModelUpsert | EvModelRemove => true
  | _ => false
  end.

Definition protectedError : XError :=
  mkXError INVALID_ARGUMENT "Target document contains protected fields.".

(** The events of the per-document loops: lookups, grant resolution and
    checks, and single-document saves and removals. *)
Definition perDocument (e : Event) : Prop :=
  match e with
  | EvFindOne | EvFindStream | EvSave _ | EvRemove _
  | EvGetTargetGrant _ _ | EvGrantCheck _ => True
  | _ => False
  end.

(** How a query-driven write continues after its bulk check: the store's
    bulk operation when the check passed, the per-document loop when it
    was rejected with ACCESS_DENIED, the check's own rejection otherwise;
    [marker] is the event only the loop emits. *)
Definition fallsBack (check call : Outcome unit * World) (bulk loop : M unit)
  (marker : Event) : Prop :=
  call = match fst check with
         | Resolved _ => bulk (snd check)
         | Rejected ex =>
             if codeEqb (code ex) ACCESS_DENIED then loop (snd check)
             else (Rejected ex, snd check)
         end /\
  (In marker (eventsSince (snd check) call) <-> isDenied (fst check) = true).

(** The grant checks a per-document step starts with: the grant for the
    document's own data is resolved and checked for the keys in turn. *)
Definition checked (this : ModelAccessWrapper) (permissions : PermissionSet)
  (ks : list string) (doc : Doc) : M unit :=
  grant <- permGetTargetGrant permissions (permissionsTarget this) (getData doc) ;;
  eachSeries (fun k => grantCheck grant k "") ks.

(** The sources [merge] merges key by key or skips. *)
Definition mergeable (source : Value) : bool :=
  match source with VObj _ | VUndef => true | _ => false end.

(** A scalar that is there. *)
Definition isLeaf (v : Value) : bool := isScalar v && negb (isUndef v).

(** [m] leaves the store alone: all it does to the world is log. *)
Definition logsOnly {A : Type} (m : M A) : Prop :=
  forall w, exists evs, snd (m w) = logged w evs.

(** The wrapper built from [options], with [hooks] registered on it. *)
Definition instanceOf (env : Env) (options : Options.t) (hooks : CrispHooks)
  (this : ModelAccessWrapper) : Prop :=
  exists this0,
    constructor env options = Resolved this0 /\ this = withHooks this0 hooks.

Definition operatorsError : XError :=
  mkXError INVALID_ARGUMENT "put() cannot use update operators".


(** The event is not a write-mask check of one of the given fields. *)
Definition notChargedFor (fields : list string) (e : Event) : Prop :=
  forall field, In field fields -> e <> EvGrantCheck ("writeMask." ++ field).

(** The paths of the visited subschemas that are flagged [protected], in
    visiting order. *)
Definition protectedPaths (visits : list (Subschema * string)) : list string :=
  map snd (filter (fun visit => isProtected (fst visit)) visits).

(* ================================================================== *)
(** * The read operations and aggregates *)
(* ================================================================== *)

(** [_.isNil(x)]. *)
Definition isNil (v : Value) : bool :=
  match v with VUndef | VNull => true | _ => false end.

(** Modelled from the spec: [model.count(query)] of the store
    collaborator (unimodel), which is not part of this repository: the
    number of documents the query matches.  Counting leaves no record in
    the trace. *)
Definition modelCount (env : Env) (q : QuerySpec) : M nat :=
  q' <- parseQuery env q ;;
  s <- getStore ;;
  ret (length (matching q' s)).

(** A parsed common-query aggregate: the fields it reads. *)
Record Aggregate : Type := mkAggregate {
  getQueriedFields : list string
}.

Section Reads.

Variable env : Env.
Variable this : ModelAccessWrapper.

(** The first loop of [get], over the fields of [params.keys]: each one
    names a key field and holds a scalar that is neither [null] nor
    [undefined]. *)
Fixpoint checkGivenKeys (keys : list (string * Value)) (names : list string)
  : M unit :=
  match names with
  | [] => ret tt
  | field :: rest =>
      if negb (includes (keyFields this) field)
      then throw INVALID_ARGUMENT (field ++ " is not a document key")
      else if negb (isScalar (prop (VObj keys) field))
              || isNil (prop (VObj keys) field)
      then throw INVALID_ARGUMENT (field ++ " key must be a scalar")
      else checkGivenKeys keys rest
  end.

(** The second loop of [get], over the key fields: each one is given. *)
Fixpoint checkKeyFields (keys : list (string * Value))
  (keyFields : list string) : M unit :=
  match keyFields with
  | [] => ret tt
  | field :: rest =>
      if isUndef (prop (VObj keys) field)
      then throw INVALID_ARGUMENT ("Missing document key " ++ field)
      else checkKeyFields keys rest
  end.

(** [get].  [params.keys] is passed beside the parameter bag; hook
    handlers are taken not to touch it. *)
Definition get (params : Params.t) (keys : option (list (string * Value)))
  : M (option ResultObject) :=
  params <- _preprocessParams this params "get" ;;
  let keys := match keys with Some ks => ks | None => [] end in
  checkGivenKeys keys (map fst keys) ;;;
  checkKeyFields keys (keyFields this) ;;;
  params <- trigger (hooks this) "pre-get" params ;;
  doc <- modelFindOne env (RawQuery (VObj keys)) ;;
  prepareResultObject this doc params.

(** The query checks of [query], [stream] and [count]: the caller's
    permissions for the capability [cap], then the global permissions
    that guard the private fields. *)
Definition authorizeRead (params : Params.t) (cap : string) : M unit :=
  match Params.permissions params with
  | Some permissions =>
      permCheckExecuteQuery permissions (permissionsTarget this)
        (RawQuery (Params.query params)) [cap]
  | None => ret tt
  end ;;;
  if negb (Params.allowPrivateFields params) && hasPrivateFields this
  then permCheckExecuteQuery (globalPermissions this) "global"
         (RawQuery (Params.query params)) ["global"]
  else ret tt.

(** The transform [stream] puts on the model's stream: a result, or
    [null] for a document the caller may not see.  A stored document is
    never falsy, so the [if (!doc)] guard does not apply. *)
Definition streamItem (params : Params.t) (doc : Doc)
  : M (option ResultObject) :=
  catch (prepareResultObject this doc params)
        (fun err =>
           if codeEqb (code err) ACCESS_DENIED then ret None
           else rethrow err).

(** What the stream keeps of the values its transform returns: a [null]
    is dropped, nothing is written for it. *)
Definition withoutNulls {A : Type} (rs : list (option A)) : list A :=
  flat_map (fun r => match r with Some x => [x] | None => [] end) rs.

(** What the stream yields for the documents of the model's stream, in
    order, when it is read to its end or to its first error: the results
    of the transform that are not [null]. *)
Definition streamResults (params : Params.t) (docs : list Doc)
  : M (list ResultObject) :=
  rs <- mapSeries (streamItem params) docs ;;
  ret (withoutNulls rs).

Definition stream (params : Params.t) : M (list ResultObject) :=
  params <- prelude this params "stream" "pre-query" ;;
  authorizeRead params "query" ;;;
  docs <- modelFindStream env (RawQuery (Params.query params)) ;;
  streamResults params docs.

Definition count (params : Params.t) : M nat :=
  params <- prelude this params "count" "pre-count" ;;
  authorizeRead params "count" ;;;
  modelCount env (RawQuery (Params.query params)).

End Reads.

Section Aggregates.

Variable env : Env.
Variable this : ModelAccessWrapper.

(** common-query's [createAggregate] and the model's [aggregateMulti],
    neither of which is part of this repository. *)
Variable createAggregate : Value -> Outcome Aggregate.
Variable modelAggregateMulti : Query -> list (string * Aggregate) -> M Value.

(** [_.mapValues(params.aggregates, createAggregate)]: the first spec that
    does not parse is the failure. *)
Fixpoint createAggregates (specs : list (string * Value))
  : Outcome (list (string * Aggregate)) :=
  match specs with
  | [] => Resolved []
  | (name, spec) :: rest =>
      match createAggregate spec with
      | Rejected e => Rejected e
      | Resolved aggr =>
          match createAggregates rest with
          | Rejected e => Rejected e
          | Resolved aggrs => Resolved ((name, aggr) :: aggrs)
          end
      end
  end.

(** The fields the aggregates read: those of a single aggregate as they
    are, the union of those of several. *)
Definition accessedFields (aggregates : list (string * Aggregate))
  : list string :=
  let aggregateAccessedFields :=
    map (fun kv => getQueriedFields (snd kv)) aggregates in
  match aggregateAccessedFields with
  | [fields] => fields
  | _ => union aggregateAccessedFields
  end.

(** The body of the loop over the accessed fields: the read mask is
    asked first, the aggregate mask when the read mask denies. *)
Definition checkAggregateField (grant : Grant) (field : string) : M unit :=
  catch (grantCheck grant field "readMask.")
        (fun ex =>
           if codeEqb (code ex) ACCESS_DENIED
           then grantCheck grant field "aggregateMask."
           else rethrow ex).

(** [aggregateMulti].  [params.aggregates] is passed beside the parameter
    bag; hook handlers are taken not to touch it. *)
Definition aggregateMulti (params : Params.t)
  (aggregates : list (string * Value)) : M Value :=
  params <- prelude this params "aggregateMulti" "pre-aggregate" ;;
  query <- lift (createQuery env (Params.query params)) ;;
  match Params.permissions params with
  | Some permissions =>
      permCheckExecuteQuery permissions (permissionsTarget this)
        (RawQuery (Params.query params)) ["query"; "aggregate"]
  | None => ret tt
  end ;;;
  (if hasPrivateFields this && negb (Params.allowPrivateFields params)
   then permCheckExecuteQuery (globalPermissions this) "global"
          (RawQuery (Params.query params)) ["global"]
   else ret tt) ;;;
  aggregates <- lift (createAggregates aggregates) ;;
  match Params.permissions params with
  | Some permissions =>
      grant <- permGetTargetGrant permissions (permissionsTarget this)
                 (VObj (getExactMatches query)) ;;
      eachSeries (checkAggregateField grant) (accessedFields aggregates)
  | None => ret tt
  end ;;;
  modelAggregateMulti query aggregates.

End Aggregates.

(* ================================================================== *)
(** * Further vocabulary and fixtures *)
(* ================================================================== *)

Definition noPermissions : XError :=
  mkXError INVALID_ARGUMENT "No permissions supplied".

(** The fields a permission set needs to resolve its grants. *)
Definition permissionFields (p : Params.t) : list string :=
  match Params.permissions p with
  | Some permissions => getTargetQueryFields permissions
  | None => []
  end.

(** Further fixtures.  The stand-ins for the aggregate collaborators: a
    spec reads the fields named by its [groupBy] and [stats] entries, and
    every aggregate reports the number of documents the query matches. *)
Module Fixtures.

Definition namedField (spec : Value) (k : string) : list string :=
  match prop spec k with
  | VStr field => [field]
  | _ => []
  end.

Definition createAggregate (spec : Value) : Outcome Aggregate :=
  match spec with
  | VObj _ =>
      Resolved (mkAggregate (namedField spec "groupBy" ++ namedField spec "stats"))
  | _ => Rejected (mkXError (OtherCode "aggregate_validation_error")
                     "Aggregate must be an object")
  end.

Definition aggregateMulti (q : Query) (aggregates : list (string * Aggregate))
  : M Value :=
  s <- getStore ;;
  ret (VObj (map (fun kv => (fst kv, VNum (Z.of_nat (length (matching q s)))))
                 aggregates)).

(** A call that carries no permissions. *)
Definition anonymous : Params.t :=
  Params.mk None None None None None false false None None None
    false false (VObj []) VUndef VUndef.

(** Everything on the document named Felix; querying and counting, but
    no reading, on the others. *)
Definition felixReader : PermissionSet :=
  Ref.PermissionSet_new
    [mkPermissionSpec "Animal" (VObj [("name", VStr "Felix")]) GrantAll;
     mkPermissionSpec "Animal" (VObj [])
       (GrantObj ["query"; "count"] [("readMask", MBool true)])].

(** Querying and aggregating; [animalType] may be read, [age] may only
    be aggregated. *)
Definition ageAggregator : PermissionSet :=
  Ref.PermissionSet_new
    [mkPermissionSpec "Animal" (VObj [])
       (GrantObj ["query"; "aggregate"]
          [("readMask", Ref.maskOf ["animalType"]);
           ("aggregateMask", Ref.maskOf ["age"])])].

Definition createdAggregates (specs : list (string * Value))
  : list (string * Aggregate) :=
  match createAggregates createAggregate specs with
  | Resolved aggrs => aggrs
  | Rejected _ => []
  end.

(** [update({ query: {}, update: { $set: { coolness: 9 } },
    overwriteProtected: true })]. *)
Definition overwriteCoolness (permissions : PermissionSet) : Params.t :=
  Params.mk (Some permissions) None None None None false false None None None
    false true (VObj []) (VObj [("$set", VObj [("coolness", VNum 9)])]) VUndef.

End Fixtures.

(** The keys [get] accepts: every given field is a key field holding a
    scalar that is neither [null] nor [undefined], and every key field is
    given. *)
Definition validKeys (keyFields : list string) (keys : list (string * Value))
  : bool :=
  forallb (fun field =>
             includes keyFields field
             && isScalar (prop (VObj keys) field)
             && negb (isNil (prop (VObj keys) field))) (map fst keys)
  && forallb (fun field => negb (isUndef (prop (VObj keys) field))) keyFields.

Definition givenKeys (keys : option (list (string * Value)))
  : list (string * Value) :=
  match keys with Some ks => ks | None => [] end.

(** Hook handlers and a serializer that leave the store alone. *)
Definition quiet (this : ModelAccessWrapper) : Prop :=
  (forall name p method, logsOnly (triggerSync (hooks this) name p method)) /\
  (forall name p, logsOnly (trigger (hooks this) name p)) /\
  (forall doc p, logsOnly (serialize this doc p)).

(** The rejection, if any, of the query checks that [query], [stream] and
    [count] start with. *)
Definition readRefusal (this : ModelAccessWrapper) (p : Params.t)
  (cap : string) : option XError :=
  match match Params.permissions p with
        | Some permissions =>
            checkExecuteQuery permissions (permissionsTarget this)
              (RawQuery (Params.query p)) [cap]
        | None => Resolved tt
        end with
  | Rejected e => Some e
  | Resolved _ =>
      if negb (Params.allowPrivateFields p) && hasPrivateFields this then
        match checkExecuteQuery (globalPermissions this) "global"
                (RawQuery (Params.query p)) ["global"] with
        | Rejected e => Some e
        | Resolved _ => None
        end
      else None
  end.

Definition isQueryCheck (e : Event) : Prop :=
  match e with EvCheckExecuteQuery _ => True | _ => False end.

(** A field an aggregate may read under a grant: the read mask covers
    it, or the read mask denies it and the aggregate mask covers it. *)
Definition mayAggregate (g : Grant) (field : string) : bool :=
  passes (checkKey g ("readMask." ++ field))
  || (isDenied (checkKey g ("readMask." ++ field))
      && passes (checkKey g ("aggregateMask." ++ field))).

(** The payload [put] works with: the caller's data, without its protected
    fields unless [overwriteProtected] is set. *)
Definition putPayload (this : ModelAccessWrapper) (p : Params.t) : Value :=
  if hasProtectedFields this && negb (Params.overwriteProtected p)
  then filterObject (Params.data p)
         (subtractMasks (publicPrivateMask this) (protectedMask this))
  else Params.data p.

(** A value [put] accepts for a key field. *)
Definition keyValueOk (v : Value) : bool := negb (isNil v) && isScalar v.

Definition isGlobalCheck (e : Event) : Prop :=
  match e with
  | EvGetTargetGrant _ _ | EvCheckMask _ => True
  | _ => False
  end.

(** Whether a grant's write mask covers every one of the fields. *)
Definition coversWrites (g : Grant) (fields : list string) : bool :=
  forallb (fun field => passes (checkKey g ("writeMask." ++ field))) fields.

(** The paths of the visited subschemas that are flagged [private], in
    visiting order. *)
Definition privatePaths (visits : list (Subschema * string)) : list string :=
  map snd (filter (fun visit => isPrivate (fst visit)) visits).

(** The key list the constructor settles on: [options.keys] when given,
    the model's own keys otherwise. *)
Definition chosenKeys (options : Options.t) : option (list string) :=
  match Options.keys options with
  | Some ks => Some ks
  | None => getKeys (Options.model options)
  end.

Definition noKeyFields : XError :=
  mkXError INTERNAL_ERROR "No key fields could be found".

(** The mask [_preprocessParams] builds from the fields to return. *)
Definition fieldsMask (filterFields : list string) : Mask :=
  fold_left (fun m field => maskSetPathL m (splitPath field))
            filterFields (MObj []).

(* ================================================================== *)
(** * Association lists and masks: basic facts *)
(* ================================================================== *)

Lemma assoc_app {A : Type} (k : string) (l1 l2 : list (string * A)) :
  assoc k (l1 ++ l2) =
  match assoc k l1 with Some v => Some v | None => assoc k l2 end.
Proof.
  induction l1 as [|[k' v] t IH]; simpl; [reflexivity|].
  destruct (String.eqb k k'); [reflexivity | exact IH].
Qed.

Lemma assoc_map {A B : Type} (f : A -> B) (k : string) (l : list (string * A)) :
  assoc k (map (fun kv => (fst kv, f (snd kv))) l) = option_map f (assoc k l).
Proof.
  induction l as [|[k' v] t IH]; simpl; [reflexivity|].
  destruct (String.eqb k k'); [reflexivity | exact IH].
Qed.

Lemma assoc_mapKept {A B : Type} (keep : string -> bool) (F : string -> A -> B)
  (k : string) (l : list (string * A)) :
  assoc k (mapKept keep F l) =
  if keep k then option_map (F k) (assoc k l) else None.
Proof.
  unfold mapKept.
  induction l as [|[k' v] t IH]; simpl.
  - destruct (keep k); reflexivity.
  - destruct (String.eqb k k') eqn:E.
    + apply String.eqb_eq in E; subst k'.
      destruct (keep k) eqn:K; simpl.
      * rewrite String.eqb_refl. reflexivity.
      * exact IH.
    + destruct (keep k'); simpl; [rewrite E|]; exact IH.
Qed.

Lemma assoc_assocSet_same {A : Type} (k : string) (v : A) (l : list (string * A)) :
  assoc k (assocSet k v l) = Some v.
Proof.
  induction l as [|[k' v'] t IH]; simpl.
  - rewrite String.eqb_refl. reflexivity.
  - destruct (String.eqb k k') eqn:E; simpl; rewrite E; [reflexivity | exact IH].
Qed.

Lemma assoc_assocSet_other {A : Type} (k k0 : string) (v : A)
  (l : list (string * A)) :
  String.eqb k0 k = false -> assoc k0 (assocSet k v l) = assoc k0 l.
Proof.
  intros Hne.
  induction l as [|[k' v'] t IH]; simpl.
  - rewrite Hne. reflexivity.
  - destruct (String.eqb k k') eqn:E; simpl.
    + apply String.eqb_eq in E; subst k'. rewrite Hne. reflexivity.
    + destruct (String.eqb k0 k'); [reflexivity | exact IH].
Qed.

(** ** Intersection and inversion act pointwise on submasks *)

Lemma andMasks_obj (ea eb : list (string * Mask)) :
  andMasks (MObj ea) (MObj eb) =
  MObj (andEntries (map (fun kv => (fst kv, andMasks (snd kv))) ea) eb).
Proof.
  cbn [andMasks]. do 2 f_equal.
  induction ea as [|[k v] t IH]; simpl; [reflexivity | now rewrite IH].
Qed.

Lemma invertMask_obj (es : list (string * Mask)) :
  invertMask (MObj es) =
  MObj (let es' := map (fun kv => (fst kv, invertMask (snd kv))) es in
        if hasKey "_" es then es' else es' ++ [("_", MBool true)]).
Proof.
  cbn [invertMask].
  assert (E : (fix go (l : list (string * Mask)) : list (string * Mask) :=
                 match l with
                 | [] => []
                 | (k, v) :: t => (k, invertMask v) :: go t
                 end) es = map (fun kv => (fst kv, invertMask (snd kv))) es).
  { induction es as [|[k v] t IH]; simpl; [reflexivity | now rewrite IH]. }
  rewrite E. reflexivity.
Qed.

Lemma andMasks_false_r (a : Mask) : andMasks a (MBool false) = MBool false.
Proof. destruct a as [[|]|ea]; reflexivity. Qed.

Lemma andMasks_true_r (a : Mask) : andMasks a (MBool true) = a.
Proof. destruct a as [[|]|ea]; reflexivity. Qed.

Lemma andMasks_true_inv (a b : Mask) :
  andMasks a b = MBool true -> a = MBool true /\ b = MBool true.
Proof.
  destruct a as [[|]|ea]; simpl.
  - intros ->. split; reflexivity.
  - discriminate.
  - destruct b as [[|]|eb]; discriminate.
Qed.

Lemma subMaskAt_andMasks (a b : Mask) (k : string) :
  subMaskAt (andMasks a b) k = andMasks (subMaskAt a k) (subMaskAt b k).
Proof.
  destruct a as [[|]|ea]; try reflexivity.
  destruct b as [[|]|eb].
  - cbn [andMasks subMaskAt]. now rewrite andMasks_true_r.
  - cbn [andMasks subMaskAt]. now rewrite andMasks_false_r.
  - rewrite andMasks_obj. unfold subMaskAt at 1 2. unfold assocW, andEntries.
    rewrite !assoc_app, !assoc_mapKept.
    unfold hasKey. rewrite !assoc_map.
    unfold subMaskAt, assocW.
    destruct (String.eqb k "_") eqn:Ek.
    + apply String.eqb_eq in Ek; subst k. simpl.
      destruct (assoc "_" ea) as [wa|], (assoc "_" eb) as [wb|]; simpl;
        rewrite ?andMasks_false_r; reflexivity.
    + simpl.
      destruct (assoc k ea) as [va|]; simpl; [reflexivity|].
      destruct (assoc k eb) as [vb|]; simpl.
      * destruct (assoc "_" ea) as [wa|]; reflexivity.
      * destruct (assoc "_" ea) as [wa|], (assoc "_" eb) as [wb|]; simpl;
          rewrite ?Ek, ?andMasks_false_r; reflexivity.
Qed.

Lemma getSubMaskL_andMasks (parts : list string) (a b : Mask) :
  getSubMaskL (andMasks a b) parts =
  andMasks (getSubMaskL a parts) (getSubMaskL b parts).
Proof.
  revert a b. induction parts as [|k rest IH]; intros a b; simpl.
  - reflexivity.
  - rewrite subMaskAt_andMasks. apply IH.
Qed.

Lemma subMaskAt_invertMask (m : Mask) (k : string) :
  subMaskAt (invertMask m) k = invertMask (subMaskAt m k).
Proof.
  destruct m as [b|es]; [reflexivity|].
  rewrite invertMask_obj. unfold subMaskAt, assocW, hasKey.
  destruct (assoc "_" es) as [w|] eqn:Ew.
  - rewrite !assoc_map, Ew.
    destruct (assoc k es); reflexivity.
  - rewrite !assoc_app, !assoc_map, Ew. simpl.
    destruct (assoc k es) as [v|]; simpl; [reflexivity|].
    destruct (String.eqb k "_"); reflexivity.
Qed.

Lemma getSubMaskL_invertMask (parts : list string) (m : Mask) :
  getSubMaskL (invertMask m) parts = invertMask (getSubMaskL m parts).
Proof.
  revert m. induction parts as [|k rest IH]; intros m; simpl.
  - reflexivity.
  - rewrite subMaskAt_invertMask. apply IH.
Qed.

(** Nothing that [sub] includes survives in [subtractMasks min sub]. *)
Lemma checkPath_subtractMasks (min sub : Mask) (path : string) :
  checkPath (subtractMasks min sub) path = true ->
  checkPath min path = true /\ checkPath sub path = false.
Proof.
  unfold checkPath, getSubMask, subtractMasks.
  rewrite getSubMaskL_andMasks, getSubMaskL_invertMask.
  destruct (andMasks (getSubMaskL min (splitPath path))
              (invertMask (getSubMaskL sub (splitPath path)))) as [[|]|es] eqn:E;
    try discriminate.
  intros _. apply andMasks_true_inv in E. destruct E as [Ea Eb].
  rewrite Ea. split; [reflexivity|].
  destruct (getSubMaskL sub (splitPath path)) as [[|]|es];
    try reflexivity; try discriminate.
Qed.

(** ** Adding fields to a mask *)

Lemma getSubMaskL_bool (b : bool) (parts : list string) :
  getSubMaskL (MBool b) parts = MBool b.
Proof. induction parts as [|k rest IH]; simpl; [reflexivity | exact IH]. Qed.

Lemma subMaskAt_set_same (k : string) (x : Mask) (es : list (string * Mask)) :
  subMaskAt (MObj (assocSet k x es)) k = x.
Proof. unfold subMaskAt, assocW. now rewrite assoc_assocSet_same. Qed.

(** Writing key [q] changes what governs [p] only when [p] is [q], or when
    [q] is the wildcard and [p] has no entry of its own. *)
Lemma subMaskAt_set_cases (q p : string) (x : Mask) (es : list (string * Mask)) :
  (subMaskAt (MObj (assocSet q x es)) p = x /\
   subMaskAt (MObj es) p = subMaskAt (MObj es) q /\
   (String.eqb p q || String.eqb q "_") = true) \/
  subMaskAt (MObj (assocSet q x es)) p = subMaskAt (MObj es) p.
Proof.
  destruct (String.eqb p q) eqn:Epq.
  - apply String.eqb_eq in Epq; subst p. left.
    rewrite subMaskAt_set_same. auto.
  - unfold subMaskAt, assocW.
    rewrite (assoc_assocSet_other _ _ _ _ Epq).
    destruct (assoc p es) as [v|] eqn:Ep; [right; reflexivity|].
    destruct (String.eqb q "_") eqn:Eq.
    + apply String.eqb_eq in Eq; subst q. left.
      rewrite assoc_assocSet_same.
      destruct (assoc "_" es); auto.
    + right. rewrite assoc_assocSet_other; [reflexivity|].
      rewrite String.eqb_sym. exact Eq.
Qed.

Lemma addFieldL_includes (qs : list string) (m : Mask) :
  isTrueMask (getSubMaskL (addFieldL qs m) qs) = true.
Proof.
  revert m. induction qs as [|q qs' IH]; intros m; [reflexivity|].
  destruct m as [[|]|es]; cbn [addFieldL getSubMaskL].
  - cbn. now rewrite getSubMaskL_bool.
  - change [(q, addFieldL qs' (MBool false))]
      with (assocSet q (addFieldL qs' (MBool false)) []).
    rewrite subMaskAt_set_same. apply IH.
  - rewrite subMaskAt_set_same. apply IH.
Qed.

Lemma addFieldL_keeps (qs ps : list string) (m : Mask) :
  isTrueMask (getSubMaskL m ps) = true ->
  isTrueMask (getSubMaskL (addFieldL qs m) ps) = true.
Proof.
  revert m ps. induction qs as [|q qs' IH]; intros m ps H.
  - cbn. now rewrite getSubMaskL_bool.
  - destruct m as [[|]|es]; cbn [addFieldL].
    + exact H.
    + rewrite getSubMaskL_bool in H. discriminate.
    + destruct ps as [|p ps']; [discriminate|].
      cbn [getSubMaskL] in *.
      destruct (subMaskAt_set_cases q p (addFieldL qs' (subMaskAt (MObj es) q)) es)
        as [(E1 & E2 & _)|E].
      * rewrite E1. apply IH. rewrite <- E2. exact H.
      * rewrite E. exact H.
Qed.

Lemma addFieldL_covers (qs ps : list string) (m : Mask) :
  isTrueMask (getSubMaskL (addFieldL qs m) ps) = true ->
  isTrueMask (getSubMaskL m ps) = true \/ coversL qs ps = true.
Proof.
  revert m ps. induction qs as [|q qs' IH]; intros m ps H.
  - right. reflexivity.
  - assert (Hobj : forall es,
               isTrueMask (getSubMaskL
                 (MObj (assocSet q (addFieldL qs' (subMaskAt (MObj es) q)) es)) ps) = true ->
               isTrueMask (getSubMaskL (MObj es) ps) = true \/
               coversL (q :: qs') ps = true).
    { intros es He. destruct ps as [|p ps']; [discriminate|].
      cbn [getSubMaskL coversL] in *.
      destruct (subMaskAt_set_cases q p (addFieldL qs' (subMaskAt (MObj es) q)) es)
        as [(E1 & E2 & E3)|E].
      - rewrite E1 in He. apply IH in He. destruct He as [He|He].
        + left. rewrite E2. exact He.
        + right. rewrite E3, He. reflexivity.
      - left. rewrite <- E. exact He. }
    destruct m as [[|]|es]; cbn [addFieldL] in H.
    + left. exact H.
    + change [(q, addFieldL qs' (MBool false))]
        with (assocSet q (addFieldL qs' (subMaskAt (MObj []) q)) []) in H.
      apply Hobj in H. destruct H as [H|H]; [|right; exact H].
      destruct ps; cbn in H; [discriminate|].
      rewrite getSubMaskL_bool in H. discriminate.
    + apply Hobj. exact H.
Qed.

Lemma addFields_includes (paths : list string) (m : Mask) (p : string) :
  In p paths \/ checkPath m p = true ->
  checkPath (fold_left addField paths m) p = true.
Proof.
  revert m. induction paths as [|q t IH]; intros m H; simpl.
  - destruct H as [[]|H]; exact H.
  - apply IH. destruct H as [[->|H]|H].
    + right. apply addFieldL_includes.
    + left. exact H.
    + right. apply addFieldL_keeps. exact H.
Qed.

Lemma addFields_covers (paths : list string) (m : Mask) (p : string) :
  checkPath (fold_left addField paths m) p = true ->
  checkPath m p = true \/ exists q, In q paths /\ pathCovers q p = true.
Proof.
  revert m. induction paths as [|q t IH]; intros m H; simpl in H.
  - left. exact H.
  - apply IH in H. destruct H as [H|(q' & Hin & Hc)].
    + apply addFieldL_covers in H. destruct H as [H|H].
      * left. exact H.
      * right. exists q. split; [left; reflexivity | exact H].
    + right. exists q'. split; [right; exact Hin | exact Hc].
Qed.

(* ================================================================== *)
(** * Field classification *)
(* ================================================================== *)

Lemma classify_protected (visits : list (Subschema * string)) (c : Classification) :
  cProtectedFields (fold_left onSubschema visits c) =
    (cProtectedFields c ++ protectedPaths visits)%list /\
  cProtectedMask (fold_left onSubschema visits c) =
    fold_left addField (protectedPaths visits) (cProtectedMask c) /\
  cHasProtectedFields (fold_left onSubschema visits c) =
    cHasProtectedFields c || negb (Nat.eqb (length (protectedPaths visits)) 0).
Proof.
  revert c.
  induction visits as [|[sub path] t IH]; intros c.
  - simpl. rewrite app_nil_r, orb_false_r. auto.
  - cbn [fold_left].
    destruct (IH (onSubschema c (sub, path))) as (F & K & H).
    rewrite F, K, H. unfold onSubschema, protectedPaths. simpl.
    destruct (isPrivate sub), (isProtected sub); simpl;
      rewrite <- ?app_assoc, ?orb_true_r, ?orb_true_l; auto.
Qed.

Lemma in_protectedPaths (visits : list (Subschema * string)) (path : string) :
  In path (protectedPaths visits) <->
  exists sub, In (sub, path) visits /\ isProtected sub = true.
Proof.
  unfold protectedPaths. rewrite in_map_iff. split.
  - intros ([sub p] & E & Hin). simpl in E. subst p.
    apply filter_In in Hin. destruct Hin as [Hin Hp].
    exists sub. split; assumption.
  - intros (sub & Hin & Hp). exists (sub, path). split; [reflexivity|].
    apply filter_In. split; assumption.
Qed.

Lemma checkPath_empty_mask (path : string) : checkPath (MObj []) path = false.
Proof.
  unfold checkPath, getSubMask.
  destruct (splitPath path) as [|k rest]; [reflexivity|].
  simpl. now rewrite getSubMaskL_bool.
Qed.

(** What the constructor leaves in a wrapper it returns. *)
Lemma constructor_fields (env : Env) (options : Options.t)
  (this : ModelAccessWrapper) :
  constructor env options = Resolved this ->
  let c := classify (schema (Options.model options)) in
  model this = Options.model options /\
  publicMask this = subtractMasks (MObj [("_", MBool true)]) (privateMask this) /\
  publicPrivateMask this = MObj [("_", MBool true)] /\
  privateMask this = cPrivateMask c /\
  protectedMask this = cProtectedMask c /\
  protectedFields this = cProtectedFields c /\
  hasProtectedFields this = cHasProtectedFields c /\
  hasPrivateFields this = cHasPrivateFields c.
Proof.
  unfold constructor.
  destruct (match Options.keys options with
            | Some ks => Some ks
            | None => getKeys (Options.model options)
            end) as [[|k ks]|]; try discriminate.
  intros E. injection E as <-. simpl. repeat split; reflexivity.
Qed.

(** C8, as stated, fails: on a model whose protected field [meta] has a
    subfield [meta.note], the protected mask includes the path [meta.note]
    while the [protectedFields] list holds only [meta]. *)
Lemma protectedFields_not_all_mask_paths :
  exists this,
    constructor Ref.env Ref.profileOptions = Resolved this /\
    checkPath (protectedMask this) "meta.note" = true /\
    ~ In "meta.note" (protectedFields this).
Proof.
  eexists. split; [reflexivity|]. split; [reflexivity|].
  simpl. intros [H|[]]. discriminate H.
Qed.

(** C8 (amended): for every schema classified at wrapper construction, no
    field path is included by both the public and the private mask; the
    [protectedFields] list holds exactly the paths of the subschemas flagged
    protected; every listed path is included by the protected mask; and
    every path the protected mask includes is a listed path or lies beneath
    one. *)
Theorem classification_masks (env : Env) (options : Options.t)
  (this : ModelAccessWrapper) :
  constructor env options = Resolved this ->
  (forall path,
      checkPath (publicMask this) path && checkPath (privateMask this) path = false) /\
  (forall path,
      In path (protectedFields this) <->
      exists sub, In (sub, path) (traverseSchema (schema (model this))) /\
                  isProtected sub = true) /\
  (forall path,
      In path (protectedFields this) ->
      checkPath (protectedMask this) path = true) /\
  (forall path,
      checkPath (protectedMask this) path = true ->
      exists q, In q (protectedFields this) /\ pathCovers q path = true).
Proof.
  intros Hc. apply constructor_fields in Hc. cbv zeta in Hc.
  destruct Hc as (Hm & Hpub & _ & _ & Hmask & Hfields & _ & _).
  destruct (classify_protected
              (traverseSchema (schema (Options.model options)))
              (mkClassification false false (MObj []) (MObj []) []))
    as (F & K & _).
  fold (classify (schema (Options.model options))) in F, K.
  simpl in F, K. rewrite <- Hfields in F. rewrite <- Hmask in K.
  rewrite Hm, F, K. split; [|split; [|split]].
  - intros path.
    destruct (checkPath (publicMask this) path) eqn:E; [|reflexivity].
    rewrite Hpub in E. apply checkPath_subtractMasks in E.
    destruct E as [_ ->]. reflexivity.
  - intros path. apply in_protectedPaths.
  - intros path Hin. apply addFields_includes. left. exact Hin.
  - intros path Hin. apply addFields_covers in Hin.
    destruct Hin as [Hin|Hin]; [|exact Hin].
    rewrite checkPath_empty_mask in Hin. discriminate.
Qed.

Lemma classification_masks_witness :
  constructor Ref.env Ref.options = Resolved Ref.wrapper /\
  (forall path,
      checkPath (publicMask Ref.wrapper) path
      && checkPath (privateMask Ref.wrapper) path = false).
Proof.
  split; [reflexivity|].
  apply (classification_masks Ref.env Ref.options Ref.wrapper). reflexivity.
Defined.

(* ================================================================== *)
(** * Reading: query *)
(* ================================================================== *)

Lemma codeEqb_eq (a b : ErrorCode) : codeEqb a b = true <-> a = b.
Proof.
  destruct a, b; simpl; split; intros H; try discriminate; try reflexivity.
  - apply String.eqb_eq in H. now subst.
  - injection H as ->. apply String.eqb_refl.
Qed.

Section QueryResults.

Variable this : ModelAccessWrapper.
Variable params : Params.t.

Lemma prepareOrNull_run (d : Doc) (w : World) :
  prepareOrNull this params d w =
  match prepareResultObject this d params w with
  | (Resolved r, w1) => (Resolved (r, false), w1)
  | (Rejected e, w1) =>
      if codeEqb (code e) ACCESS_DENIED then (Resolved (None, true), w1)
      else (Rejected e, w1)
  end.
Proof.
  unfold prepareOrNull, catch, bind.
  destruct (prepareResultObject this d params w) as [[r|e] w1]; simpl;
    [reflexivity|].
  destruct (codeEqb (code e) ACCESS_DENIED); reflexivity.
Qed.

(** While every preparation resolves or is denied, [mapSeries] goes
    through all documents. *)
Lemma mapSeries_absorbed (docs : list Doc) (w : World) :
  forallb absorbed (fst (prepareEach this params docs w)) = true ->
  mapSeries (prepareOrNull this params) docs w =
  (Resolved (map (fun o => (slot o, isDenied o))
                 (fst (prepareEach this params docs w))),
   snd (prepareEach this params docs w)).
Proof.
  revert w. induction docs as [|d t IH]; intros w H; [reflexivity|].
  cbn [mapSeries prepareEach] in *. unfold bind at 1.
  rewrite prepareOrNull_run.
  destruct (prepareResultObject this d params w) as [o w1].
  specialize (IH w1).
  destruct (prepareEach this params t w1) as [os w2].
  cbn [fst snd forallb map] in *.
  apply andb_prop in H. destruct H as [Ho Hos].
  destruct o as [r|e]; simpl in Ho |- *; rewrite ?Ho;
    cbv beta delta [bind]; rewrite (IH Hos); reflexivity.
Qed.

(** The first preparation that fails otherwise ends the series. *)
Lemma mapSeries_failure (ds1 ds2 : list Doc) (d : Doc) (w w3 : World)
  (e : XError) :
  forallb absorbed (fst (prepareEach this params ds1 w)) = true ->
  prepareResultObject this d params (snd (prepareEach this params ds1 w))
    = (Rejected e, w3) ->
  codeEqb (code e) ACCESS_DENIED = false ->
  mapSeries (prepareOrNull this params) (ds1 ++ d :: ds2) w = (Rejected e, w3).
Proof.
  revert w. induction ds1 as [|x t IH]; intros w H Hd He.
  - cbn [app mapSeries prepareEach snd] in *. unfold bind at 1.
    rewrite prepareOrNull_run, Hd, He. reflexivity.
  - cbn [app mapSeries prepareEach] in *. unfold bind at 1.
    rewrite prepareOrNull_run.
    destruct (prepareResultObject this x params w) as [o w1].
    specialize (IH w1).
    destruct (prepareEach this params t w1) as [os w2].
    cbn [fst snd forallb] in *.
    apply andb_prop in H. destruct H as [Ho Hos].
    assert (E : mapSeries (prepareOrNull this params) (t ++ d :: ds2) w1
                = (Rejected e, w3)) by (apply IH; assumption).
    destruct o as [r|e0]; simpl in Ho |- *; rewrite ?Ho;
      cbv beta delta [bind]; rewrite E; reflexivity.
Qed.

Lemma first_failure (docs : list Doc) (w : World) :
  forallb absorbed (fst (prepareEach this params docs w)) = false ->
  exists ds1 d ds2 e w3,
    docs = (ds1 ++ d :: ds2)%list /\
    forallb absorbed (fst (prepareEach this params ds1 w)) = true /\
    prepareResultObject this d params (snd (prepareEach this params ds1 w))
      = (Rejected e, w3) /\
    codeEqb (code e) ACCESS_DENIED = false.
Proof.
  revert w. induction docs as [|x t IH]; intros w H; [discriminate|].
  cbn [prepareEach] in H.
  destruct (prepareResultObject this x params w) as [o w1] eqn:Ex.
  destruct (prepareEach this params t w1) as [os w2] eqn:Et.
  cbn [fst forallb] in H.
  destruct (absorbed o) eqn:Eo.
  - simpl in H. specialize (IH w1). rewrite Et in IH.
    destruct (IH H) as (ds1 & d & ds2 & e & w3 & -> & Hp & Hd & He).
    exists (x :: ds1), d, ds2, e, w3.
    cbn [prepareEach]. rewrite Ex.
    destruct (prepareEach this params ds1 w1) as [os1 w1'].
    cbn [fst snd forallb] in *. rewrite Eo, Hp. auto.
  - destruct o as [r|e]; [discriminate|].
    exists [], x, t, e, w1. simpl. auto.
Qed.

Lemma prepareEach_length (docs : list Doc) (w : World) :
  length (fst (prepareEach this params docs w)) = length docs.
Proof.
  revert w. induction docs as [|x t IH]; intros w; [reflexivity|].
  cbn [prepareEach].
  destruct (prepareResultObject this x params w) as [o w1].
  specialize (IH w1). destruct (prepareEach this params t w1) as [os w2].
  simpl in *. now rewrite IH.
Qed.

Lemma countTrue_all {A : Type} (f : A -> bool) (l : list A) :
  Nat.leb (length l) (countTrue (map f l)) = forallb f l.
Proof.
  unfold countTrue.
  assert (B : forall l', length (filter (fun b : bool => b) (map f l')) <= length l').
  { induction l' as [|y l' IH]; simpl; [lia|].
    destruct (f y); simpl; lia. }
  induction l as [|x t IH]; [reflexivity|].
  cbn [map filter forallb length]. destruct (f x); cbn [length andb].
  - exact IH.
  - specialize (B t). apply Nat.leb_gt. lia.
Qed.

Lemma denied_absorbed {A : Type} (os : list (Outcome A)) :
  forallb isDenied os = true -> forallb absorbed os = true.
Proof.
  induction os as [|o t IH]; simpl; [reflexivity|].
  intros H. apply andb_prop in H. destruct H as [Ho Ht].
  rewrite (IH Ht). destruct o; [discriminate | simpl in *; now rewrite Ho].
Qed.

(** What [query] returns from the documents found, when no preparation
    fails for another reason than ACCESS_DENIED. *)
Lemma queryResults_absorbed (docs : list Doc) (w : World) :
  forallb absorbed (fst (prepareEach this params docs w)) = true ->
  queryResults this params docs w =
  (if negb (Nat.eqb (length docs) 0)
      && forallb isDenied (fst (prepareEach this params docs w))
   then Rejected allFiltered
   else Resolved (map slot (fst (prepareEach this params docs w))),
   snd (prepareEach this params docs w)).
Proof.
  intros H. unfold queryResults, bind.
  rewrite (mapSeries_absorbed docs w H).
  set (os := fst (prepareEach this params docs w)).
  assert (L : Nat.leb (length docs) (countTrue (map isDenied os))
              = forallb isDenied os).
  { rewrite <- (prepareEach_length docs w). apply countTrue_all. }
  rewrite !map_map. cbn [snd fst].
  rewrite (map_ext _ isDenied) by reflexivity.
  rewrite (map_ext (fun o => fst (slot o, isDenied o)) slot) by reflexivity.
  rewrite L, andb_comm.
  destruct (negb (Nat.eqb (length docs) 0) && forallb isDenied os);
    reflexivity.
Qed.

Lemma queryResults_failure (ds1 ds2 : list Doc) (d : Doc) (w w3 : World)
  (e : XError) :
  forallb absorbed (fst (prepareEach this params ds1 w)) = true ->
  prepareResultObject this d params (snd (prepareEach this params ds1 w))
    = (Rejected e, w3) ->
  codeEqb (code e) ACCESS_DENIED = false ->
  queryResults this params (ds1 ++ d :: ds2) w = (Rejected e, w3).
Proof.
  intros H Hd He. unfold queryResults, bind.
  now rewrite (mapSeries_failure ds1 ds2 d w w3 e H Hd He).
Qed.

End QueryResults.

(** C3: once [query] has found its documents, a document whose
    preparation is rejected with ACCESS_DENIED becomes a [null] slot of the
    returned array; the call is rejected with ACCESS_DENIED exactly when at
    least one document matched and every document was filtered out this
    way; and the first rejection with another code is the call's
    rejection. *)
Theorem query_filters_denied_documents (env : Env) (this : ModelAccessWrapper)
  (params params' : Params.t) (docs : list Doc) (w w1 : World) :
  queryDocuments env this params w = (Resolved (params', docs), w1) ->
  let os := fst (prepareEach this params' docs w1) in
  (forallb absorbed os = true ->
   query env this params w =
   (if negb (Nat.eqb (length docs) 0) && forallb isDenied os
    then Rejected allFiltered
    else Resolved (map slot os),
    snd (prepareEach this params' docs w1))) /\
  (forall ds1 d ds2 e w3,
      docs = (ds1 ++ d :: ds2)%list ->
      forallb absorbed (fst (prepareEach this params' ds1 w1)) = true ->
      prepareResultObject this d params' (snd (prepareEach this params' ds1 w1))
        = (Rejected e, w3) ->
      codeEqb (code e) ACCESS_DENIED = false ->
      query env this params w = (Rejected e, w3)) /\
  ((exists e w', query env this params w = (Rejected e, w') /\
                 code e = ACCESS_DENIED) <->
   docs <> [] /\ forallb isDenied os = true).
Proof.
  intros Hfound os.
  assert (Hq : query env this params w = queryResults this params' docs w1).
  { unfold query, bind. rewrite Hfound. reflexivity. }
  assert (Hnil : negb (Nat.eqb (length docs) 0) = true <-> docs <> []).
  { destruct docs; simpl; split; intros H; congruence. }
  split; [|split].
  - intros H. rewrite Hq. apply queryResults_absorbed. exact H.
  - intros ds1 d ds2 e w3 -> H Hd He. rewrite Hq.
    eapply queryResults_failure; eassumption.
  - rewrite Hq. split.
    + intros (e & w' & Hr & Hc).
      destruct (forallb absorbed os) eqn:Ha.
      * rewrite (queryResults_absorbed this params' docs w1 Ha) in Hr.
        fold os in Hr.
        destruct (negb (Nat.eqb (length docs) 0)) eqn:En;
          destruct (forallb isDenied os) eqn:Ed; simpl in Hr;
          try discriminate.
        split; [apply Hnil; reflexivity | reflexivity].
      * destruct (first_failure this params' docs w1 Ha)
          as (ds1 & d & ds2 & e' & w3 & -> & Hp & Hd & He).
        rewrite (queryResults_failure this params' ds1 ds2 d w1 w3 e' Hp Hd He) in Hr.
        injection Hr as <- <-. rewrite Hc in He. discriminate.
    + intros [Hne Hd].
      rewrite (queryResults_absorbed this params' docs w1
                 (denied_absorbed _ Hd)).
      fold os. rewrite Hd. apply Hnil in Hne. rewrite Hne.
      exists allFiltered. eexists. split; reflexivity.
Qed.

Lemma query_filters_denied_documents_witness :
  let found := Ref.found Ref.wrapper Ref.singleDocQuery in
  queryDocuments Ref.env Ref.wrapper Ref.singleDocQuery Ref.world0
    = (Resolved (fst found), snd found) /\
  map (option_map resultData)
      (match fst (query Ref.env Ref.wrapper Ref.singleDocQuery Ref.world0) with
       | Resolved rs => rs
       | Rejected _ => []
       end)
    = [None; None; Some (Ref.animalCreate (Ref.animal "baz" "cat" "Felix" 8 []));
       None; None].
Proof.
  intros found.
  assert (H : queryDocuments Ref.env Ref.wrapper Ref.singleDocQuery Ref.world0
              = (Resolved (fst (fst found), snd (fst found)), snd found))
    by (vm_compute; reflexivity).
  split; [vm_compute; reflexivity|].
  destruct (query_filters_denied_documents Ref.env Ref.wrapper
              Ref.singleDocQuery _ _ Ref.world0 _ H) as [A _].
  rewrite A by (vm_compute; reflexivity).
  vm_compute. reflexivity.
Defined.

Lemma countTrue_none {A : Type} (l : list A) :
  countTrue (map (fun _ => false) l) = 0.
Proof. induction l as [|x t IH]; [reflexivity | exact IH]. Qed.

(** C10: in [query], a document for which the serialize step yields a
    falsy value is prepared to [null] without any error and is not counted
    as filtered; a query all of whose documents serialize to nothing
    resolves with an array of [null]s. *)
Theorem query_unserialized_documents_are_null (env : Env)
  (this : ModelAccessWrapper) (params params' : Params.t) (docs : list Doc)
  (w w1 : World) :
  queryDocuments env this params w = (Resolved (params', docs), w1) ->
  (forall doc w0, In doc docs ->
     exists doc' data w0',
       serializeDocument this doc params' w0 = (Resolved (doc', data), w0') /\
       truthy data = false) ->
  (forall doc w0, In doc docs ->
     exists w0',
       prepareResultObject this doc params' w0 = (Resolved None, w0') /\
       prepareOrNull this params' doc w0 = (Resolved (None, false), w0')) /\
  exists w2,
    query env this params w = (Resolved (map (fun _ => None) docs), w2).
Proof.
  intros Hfound Hser.
  assert (Hone : forall doc w0, In doc docs ->
            exists w0',
              prepareResultObject this doc params' w0 = (Resolved None, w0') /\
              prepareOrNull this params' doc w0 = (Resolved (None, false), w0')).
  { intros doc w0 Hin.
    destruct (Hser doc w0 Hin) as (doc' & data & w0' & Hs & Ht).
    exists w0'.
    assert (Hp : prepareResultObject this doc params' w0 = (Resolved None, w0')).
    { unfold prepareResultObject, bind. rewrite Hs, Ht. reflexivity. }
    split; [exact Hp|].
    rewrite prepareOrNull_run, Hp. reflexivity. }
  split; [exact Hone|].
  assert (Hall : forall ds w0, incl ds docs ->
            exists w0',
              mapSeries (prepareOrNull this params') ds w0
              = (Resolved (map (fun _ => (None, false)) ds), w0')).
  { induction ds as [|d t IH]; intros w0 Hincl.
    - exists w0. reflexivity.
    - destruct (Hone d w0 (Hincl d (or_introl eq_refl))) as (w0' & _ & Hd).
      destruct (IH w0' (fun x Hx => Hincl x (or_intror Hx))) as (w0'' & Ht).
      exists w0''. cbn [mapSeries map]. unfold bind. rewrite Hd, Ht.
      reflexivity. }
  destruct (Hall docs w1 (incl_refl docs)) as (w2 & Hm).
  exists w2. unfold query, bind. rewrite Hfound. cbn [fst snd].
  unfold queryResults, bind. rewrite Hm. rewrite !map_map. cbn [fst snd].
  rewrite countTrue_none. destruct docs; reflexivity.
Qed.

Lemma query_unserialized_documents_are_null_witness :
  let p := Ref.withQuery (Ref.params Ref.everything) (VObj []) in
  let found := Ref.found Ref.silentWrapper p in
  queryDocuments Ref.env Ref.silentWrapper p Ref.world0
    = (Resolved (fst found), snd found) /\
  fst (query Ref.env Ref.silentWrapper p Ref.world0)
    = Resolved [None; None; None; None; None].
Proof.
  intros p found.
  assert (H : queryDocuments Ref.env Ref.silentWrapper p Ref.world0
              = (Resolved (fst (fst found), snd (fst found)), snd found))
    by (vm_compute; reflexivity).
  split; [vm_compute; reflexivity|].
  destruct (query_unserialized_documents_are_null Ref.env Ref.silentWrapper
              p _ _ Ref.world0 _ H) as [_ (w2 & Hq)].
  - intros doc w0 _.
    exists (setData doc (filterObject (getData doc)
                           (Ref.maskOf ["id"; "animalType"; "name"; "age";
                                        "coolness"; "favNumber"]))),
           VNull, w0.
    split; reflexivity.
  - rewrite Hq. reflexivity.
Defined.

(* ================================================================== *)
(** * Running asynchronous code *)
(* ================================================================== *)

Lemma bind_run {A B : Type} (m : M A) (k : A -> M B) (w : World) :
  bind m k w =
  match m w with
  | (Resolved a, w') => k a w'
  | (Rejected e, w') => (Rejected e, w')
  end.
Proof. reflexivity. Qed.

Lemma bind_resolved {A B : Type} {m : M A} (k : A -> M B) {w w' : World} {a : A} :
  m w = (Resolved a, w') -> bind m k w = k a w'.
Proof. intros H. rewrite bind_run, H. reflexivity. Qed.

Lemma bind_rejected {A B : Type} {m : M A} (k : A -> M B) {w w' : World}
  {e : XError} :
  m w = (Rejected e, w') -> bind m k w = (Rejected e, w').
Proof. intros H. rewrite bind_run, H. reflexivity. Qed.

Lemma logged_logged (w : World) (a b : list Event) :
  logged (logged w a) b = logged w (a ++ b).
Proof. unfold logged. simpl. now rewrite app_assoc. Qed.

Lemma logged_nil (w : World) : logged w [] = w.
Proof. destruct w. unfold logged. simpl. now rewrite app_nil_r. Qed.

Lemma grantCheck_run (g : Grant) (k prefix : string) (w : World) :
  grantCheck g k prefix w =
  (checkKey g (prefix ++ k), logged w [EvGrantCheck (prefix ++ k)]).
Proof. reflexivity. Qed.

Lemma permGetTargetGrant_run (p : PermissionSet) (target : string)
  (obj : Value) (w : World) :
  permGetTargetGrant p target obj w =
  (Resolved (getTargetGrant p target obj), logged w [EvGetTargetGrant target obj]).
Proof. reflexivity. Qed.

(** A list of keys is checked in order, up to the first rejection. *)
Lemma grantCheckAll_run (g : Grant) (ks : list string) (prefix : string)
  (w : World) :
  let check := fun k => checkKey g (prefix ++ k) in
  grantCheckAll g ks prefix w =
  (outcomeOf (denialOf (map check ks)),
   logged w (map (fun k => EvGrantCheck (prefix ++ k)) (upToDenial check ks))).
Proof.
  intros check. unfold grantCheckAll. revert w.
  induction ks as [|k t IH]; intros w.
  - simpl. unfold ret. now rewrite logged_nil.
  - cbn [eachSeries map denialOf upToDenial]. rewrite bind_run, grantCheck_run.
    fold (check k). destruct (check k) as [[]|e]; cbn [passes map].
    + rewrite IH, logged_logged. reflexivity.
    + reflexivity.
Qed.

Lemma denialOf_none (os : list (Outcome unit)) :
  denialOf os = None <-> forall o, In o os -> passes o = true.
Proof.
  induction os as [|o t IH]; simpl.
  - split; [intros _ o [] | reflexivity].
  - destruct o as [[]|e]; simpl.
    + rewrite IH. split.
      * intros H o [<-|Ho]; [reflexivity | apply H; exact Ho].
      * intros H o Ho. apply H. right. exact Ho.
    + split; [discriminate|].
      intros H. specialize (H (Rejected e) (or_introl eq_refl)). discriminate.
Qed.

Lemma eventsSince_logged {A : Type} (w : World) (o : Outcome A)
  (evs : list Event) :
  eventsSince w (o, logged w evs) = evs.
Proof.
  unfold eventsSince, logged. simpl.
  rewrite skipn_app, skipn_all, Nat.sub_diag. reflexivity.
Qed.

(** ** Which events a computation emits *)

Lemma emits_ret {A : Type} (P : Event -> Prop) (a : A) : emits P (ret a).
Proof. intros w. exists []. simpl. rewrite app_nil_r. auto. Qed.

Lemma emits_throw {A : Type} (P : Event -> Prop) (c : ErrorCode) (msg : string) :
  emits P (@throw A c msg).
Proof. intros w. exists []. simpl. rewrite app_nil_r. auto. Qed.

Lemma emits_rethrow {A : Type} (P : Event -> Prop) (e : XError) :
  emits P (@rethrow A e).
Proof. intros w. exists []. simpl. rewrite app_nil_r. auto. Qed.

Lemma emits_lift {A : Type} (P : Event -> Prop) (o : Outcome A) :
  emits P (lift o).
Proof. intros w. exists []. simpl. rewrite app_nil_r. auto. Qed.

Lemma emits_log (P : Event -> Prop) (e : Event) : P e -> emits P (log e).
Proof. intros H w. exists [e]. simpl. auto. Qed.

Lemma emits_getStore (P : Event -> Prop) : emits P getStore.
Proof. intros w. exists []. simpl. rewrite app_nil_r. auto. Qed.

Lemma emits_putStore (P : Event -> Prop) (s : Store) : emits P (putStore s).
Proof. intros w. exists []. simpl. rewrite app_nil_r. auto. Qed.

Lemma emits_bind {A B : Type} (P : Event -> Prop) (m : M A) (k : A -> M B) :
  emits P m -> (forall a, emits P (k a)) -> emits P (bind m k).
Proof.
  intros Hm Hk w. rewrite bind_run.
  destruct (Hm w) as (evs & Et & Hp).
  destruct (m w) as [[a|e] w1]; simpl in Et.
  - destruct (Hk a w1) as (evs' & Et' & Hp').
    exists (evs ++ evs')%list. rewrite Et', Et, app_assoc.
    split; [reflexivity | apply Forall_app; auto].
  - exists evs. simpl. auto.
Qed.

Lemma emits_tryThen {A B : Type} (P : Event -> Prop) (body : M A)
  (next : A -> M B) (onError : XError -> M B) :
  emits P body -> (forall a, emits P (next a)) ->
  (forall e, emits P (onError e)) -> emits P (tryThen body next onError).
Proof.
  intros Hm Hk He w. unfold tryThen.
  destruct (Hm w) as (evs & Et & Hp).
  destruct (body w) as [[a|e] w1]; simpl in Et.
  - destruct (Hk a w1) as (evs' & Et' & Hp').
    exists (evs ++ evs')%list. rewrite Et', Et, app_assoc.
    split; [reflexivity | apply Forall_app; auto].
  - destruct (He e w1) as (evs' & Et' & Hp').
    exists (evs ++ evs')%list. rewrite Et', Et, app_assoc.
    split; [reflexivity | apply Forall_app; auto].
Qed.

Lemma emits_eachSeries {A : Type} (P : Event -> Prop) (f : A -> M unit)
  (l : list A) :
  (forall x, emits P (f x)) -> emits P (eachSeries f l).
Proof.
  intros Hf. induction l as [|x t IH]; simpl.
  - apply emits_ret.
  - apply emits_bind; [apply Hf | intros _; exact IH].
Qed.

Lemma emits_drainSeries {A : Type} (P : Event -> Prop) (f : A -> M unit)
  (l : list A) :
  (forall x, emits P (f x)) -> emits P (drainSeries f l).
Proof.
  intros Hf. induction l as [|x t IH]; [apply emits_ret|].
  intros w. cbn [drainSeries].
  destruct (Hf x w) as (evs & Et & Hp).
  destruct (IH (snd (f x w))) as (evs' & Et' & Hp').
  exists (evs ++ evs')%list. rewrite Et', Et, app_assoc.
  split; [reflexivity | apply Forall_app; auto].
Qed.

Lemma emits_eachStream {A : Type} (P : Event -> Prop) (f : A -> M unit)
  (l : list A) :
  (forall x, emits P (f x)) -> emits P (eachStream f l).
Proof.
  intros Hf. induction l as [|x t IH]; [apply emits_ret|].
  intros w. cbn [eachStream].
  destruct (Hf x w) as (evs & Et & Hp).
  destruct (f x w) as [[[]|e] w1]; cbn [snd] in Et.
  - destruct (IH w1) as (evs' & Et' & Hp').
    exists (evs ++ evs')%list. rewrite Et', Et, app_assoc.
    split; [reflexivity | apply Forall_app; auto].
  - destruct (emits_drainSeries P f t Hf w1) as (evs' & Et' & Hp').
    exists (evs ++ evs')%list. cbn [snd]. rewrite Et', Et, app_assoc.
    split; [reflexivity | apply Forall_app; auto].
Qed.

Lemma emits_if {A : Type} (P : Event -> Prop) (b : bool) (m1 m2 : M A) :
  emits P m1 -> emits P m2 -> emits P (if b then m1 else m2).
Proof. destruct b; auto. Qed.

Lemma eventsSince_emits {A : Type} (P : Event -> Prop) (m : M A) (w : World) :
  emits P m -> Forall P (eventsSince w (m w)).
Proof.
  intros H. destruct (H w) as (evs & Et & Hp).
  unfold eventsSince. rewrite Et, skipn_app, skipn_all, Nat.sub_diag.
  exact Hp.
Qed.

Ltac emits_step :=
  lazymatch goal with
  | |- emits _ (ret _) => apply emits_ret
  | |- emits _ (throw _ _) => apply emits_throw
  | |- emits _ (rethrow _) => apply emits_rethrow
  | |- emits _ (lift _) => apply emits_lift
  | |- emits _ getStore => apply emits_getStore
  | |- emits _ (putStore _) => apply emits_putStore
  | |- emits _ (log _) => apply emits_log
  | |- emits _ (bind _ _) => apply emits_bind; [|intros ?]
  | |- emits _ (tryThen _ _ _) => apply emits_tryThen; [|intros ?|intros ?]
  | |- emits _ (eachSeries _ _) => apply emits_eachSeries; intros ?
  | |- emits _ (if _ then _ else _) => apply emits_if
  end.

(* ================================================================== *)
(** * Query-driven writes: update, upsert, remove *)
(* ================================================================== *)

Lemma memStr_In (x : string) (l : list string) : memStr x l = true <-> In x l.
Proof.
  unfold memStr. rewrite existsb_exists. split.
  - intros (y & Hin & E). apply String.eqb_eq in E. now subst.
  - intros H. exists x. split; [exact H | apply String.eqb_refl].
Qed.

Lemma lift_bind {A B : Type} {o : Outcome A} (k : A -> M B) (w : World) {a : A} :
  o = Resolved a -> bind (lift o) k w = k a w.
Proof. intros ->. reflexivity. Qed.

Section Writes.

Variable env : Env.
Variable this : ModelAccessWrapper.

Lemma rejectProtected_touching (params : Params.t) (updatedFields : list string)
  (w : World) :
  hasProtectedFields this = true ->
  Params.overwriteProtected params = false ->
  (exists field, In field (protectedFields this) /\ In field updatedFields) ->
  rejectProtected this params updatedFields w = (Rejected protectedError, w).
Proof.
  intros Hp Ho (field & Hf & Hu). unfold rejectProtected.
  rewrite Hp, Ho. simpl.
  replace (existsb (fun field0 => includes updatedFields field0)
             (protectedFields this)) with true; [reflexivity|].
  symmetry. apply existsb_exists. exists field. split; [exact Hf|].
  apply memStr_In. exact Hu.
Qed.

Lemma update_parsed (params p2 : Params.t) (w w2 : World) (q : Query) (u : Update) :
  prelude this params "update" "pre-update" w = (Resolved p2, w2) ->
  createQuery env (Params.query p2) = Resolved q ->
  createUpdate env (Params.update p2) false = Resolved u ->
  update env this params w = updateParsed env this p2 q u w2.
Proof.
  intros Hpre Hq Hu. unfold update.
  rewrite (bind_resolved _ Hpre).
  rewrite (lift_bind _ _ Hq), (lift_bind _ _ Hu). reflexivity.
Qed.

Lemma upsert_parsed (params p2 : Params.t) (w w2 : World) (q : Query) (u : Update) :
  prelude this params "upsert" "pre-upsert" w = (Resolved p2, w2) ->
  createQuery env (Params.query p2) = Resolved q ->
  createUpdate env (Params.update p2) false = Resolved u ->
  upsert env this params w = upsertParsed env this p2 q u w2.
Proof.
  intros Hpre Hq Hu. unfold upsert.
  rewrite (bind_resolved _ Hpre).
  rewrite (lift_bind _ _ Hq), (lift_bind _ _ Hu). reflexivity.
Qed.

Lemma remove_parsed (params p2 : Params.t) (w w2 : World) (q : Query) :
  prelude this params "remove" "pre-remove" w = (Resolved p2, w2) ->
  createQuery env (Params.query p2) = Resolved q ->
  remove env this params w = removeParsed env this p2 q w2.
Proof.
  intros Hpre Hq. unfold remove.
  rewrite (bind_resolved _ Hpre).
  rewrite (lift_bind _ _ Hq). reflexivity.
Qed.

End Writes.

(** C6: an update or upsert whose parsed update touches a protected field,
    on a model with protected fields and without [overwriteProtected], is
    rejected with INVALID_ARGUMENT in the very world the pre-hook left: no
    permission collaborator has been asked and the store is untouched,
    whatever the caller's permissions are. *)
Theorem update_touching_protected_rejected (env : Env)
  (this : ModelAccessWrapper) (params p2 : Params.t) (w w2 : World)
  (q : Query) (u : Update) :
  createQuery env (Params.query p2) = Resolved q ->
  createUpdate env (Params.update p2) false = Resolved u ->
  hasProtectedFields this = true ->
  Params.overwriteProtected p2 = false ->
  (exists field, In field (protectedFields this) /\
                 In field (getUpdatedFields u)) ->
  (prelude this params "update" "pre-update" w = (Resolved p2, w2) ->
   update env this params w = (Rejected protectedError, w2)) /\
  (prelude this params "upsert" "pre-upsert" w = (Resolved p2, w2) ->
   upsert env this params w = (Rejected protectedError, w2)).
Proof.
  intros Hq Hu Hp Ho Hf. split; intros Hpre.
  - rewrite (update_parsed env this params _ w _ _ _ Hpre Hq Hu).
    unfold updateParsed. apply bind_rejected.
    apply rejectProtected_touching; assumption.
  - rewrite (upsert_parsed env this params _ w _ _ _ Hpre Hq Hu).
    unfold upsertParsed. apply bind_rejected.
    apply rejectProtected_touching; assumption.
Qed.

Lemma update_touching_protected_rejected_witness :
  update Ref.env Ref.wrapper Ref.coolnessUpdate Ref.world0
    = (Rejected protectedError, Ref.world0) /\
  upsert Ref.env Ref.wrapper Ref.coolnessUpdate Ref.world0
    = (Rejected protectedError, Ref.world0).
Proof.
  destruct (update_touching_protected_rejected Ref.env Ref.wrapper
              Ref.coolnessUpdate
              (Ref.preprocessed Ref.wrapper Ref.coolnessUpdate)
              Ref.world0 Ref.world0
              (Ref.parsedQuery (VObj []))
              (Ref.parsedUpdate (VObj [("$set", VObj [("coolness", VNum 9)])])))
    as [Hupdate Hupsert].
  - vm_compute. reflexivity.
  - vm_compute. reflexivity.
  - reflexivity.
  - reflexivity.
  - exists "coolness". split; simpl; auto.
  - split; [apply Hupdate | apply Hupsert]; vm_compute; reflexivity.
Defined.

(** ** The events of the store operations and of the loops *)

Lemma modelFindStream_run (env : Env) (q : Query) (w : World) :
  modelFindStream env (ParsedQuery q) w =
  (Resolved (matching q (store w)), logged w [EvFindStream]).
Proof. reflexivity. Qed.

Lemma modelFindStreamLimited_run (env : Env) (q : Query) (w : World) :
  modelFindStreamLimited env (ParsedQuery q) w =
  (Resolved (firstn 1 (matching q (store w))), logged w [EvFindStream]).
Proof. reflexivity. Qed.

Lemma modelFindOne_run (env : Env) (q : Query) (w : World) :
  modelFindOne env (ParsedQuery q) w =
  (match matching q (store w) with
   | d :: _ => Resolved d
   | [] => Rejected (mkXError NOT_FOUND "No matching document")
   end, logged w [EvFindOne]).
Proof.
  unfold modelFindOne. cbn. destruct (matching q (store w)); reflexivity.
Qed.

Lemma modelUpdate_events (q : Query) (u : Update) (w : World) :
  eventsSince w (modelUpdate q u w) = [EvModelUpdate].
Proof. apply (eventsSince_logged w (Resolved tt) [EvModelUpdate]). Qed.

Lemma modelUpsert_events (m : Model) (q : Query) (u : Update) (w : World) :
  eventsSince w (modelUpsert m q u w) = [EvModelUpsert].
Proof.
  unfold modelUpsert, eventsSince, bind, log, getStore, lift, putStore.
  cbn [store trace].
  destruct (matching q (store w)); [destruct (create m _)|];
    cbn [snd trace];
    rewrite skipn_app, skipn_all, Nat.sub_diag; reflexivity.
Qed.

Lemma modelRemove_events (q : Query) (w : World) :
  eventsSince w (modelRemove q w) = [EvModelRemove].
Proof. apply (eventsSince_logged w (Resolved tt) [EvModelRemove]). Qed.

Lemma emits_grantCheck (P : Event -> Prop) (g : Grant) (k prefix : string) :
  P (EvGrantCheck (prefix ++ k)) -> emits P (grantCheck g k prefix).
Proof. intros H. unfold grantCheck. repeat emits_step. exact H. Qed.

Lemma emits_grantCheckAll (P : Event -> Prop) (g : Grant) (ks : list string)
  (prefix : string) :
  (forall k, P (EvGrantCheck k)) -> emits P (grantCheckAll g ks prefix).
Proof.
  intros H. unfold grantCheckAll. apply emits_eachSeries. intros k.
  apply emits_grantCheck. apply H.
Qed.

Lemma emits_permGetTargetGrant (P : Event -> Prop) (p : PermissionSet)
  (target : string) (obj : Value) :
  P (EvGetTargetGrant target obj) -> emits P (permGetTargetGrant p target obj).
Proof. intros H. unfold permGetTargetGrant. repeat emits_step. exact H. Qed.

Lemma emits_docSave (P : Event -> Prop) (d : Doc) :
  P (EvSave d) -> emits P (docSave d).
Proof.
  intros H. unfold docSave. emits_step; [emits_step; exact H|].
  emits_step; [emits_step|].
  destruct (docId d); [|repeat emits_step].
  match goal with |- emits _ (if ?b then _ else _) => destruct b end;
    repeat emits_step.
Qed.

Lemma emits_docRemove (P : Event -> Prop) (d : Doc) :
  P (EvRemove d) -> emits P (docRemove d).
Proof. intros H. unfold docRemove. repeat emits_step. exact H. Qed.

Section Loops.

Variable env : Env.
Variable this : ModelAccessWrapper.

Lemma emits_updateOne (u : Update) (permissions : PermissionSet) (doc : Doc) :
  emits perDocument (updateOne this u permissions doc).
Proof.
  unfold updateOne.
  emits_step; [apply emits_permGetTargetGrant; exact I|].
  emits_step; [apply emits_grantCheck; exact I|].
  emits_step; [apply emits_grantCheckAll; intros; exact I|].
  emits_step; [apply emits_docSave; exact I|].
  emits_step.
Qed.

Lemma emits_removeOne (permissions : PermissionSet) (doc : Doc) :
  emits perDocument (removeOne this permissions doc).
Proof.
  unfold removeOne.
  emits_step; [apply emits_permGetTargetGrant; exact I|].
  emits_step; [apply emits_grantCheck; exact I|].
  apply emits_docRemove. exact I.
Qed.

Lemma emits_stream (q : Query) (f : Doc -> M unit) :
  (forall d, emits perDocument (f d)) ->
  emits perDocument (docs <- modelFindStream env (ParsedQuery q) ;;
                     eachStream f docs).
Proof.
  intros Hf. apply emits_bind.
  - intros w. exists [EvFindStream]. rewrite modelFindStream_run.
    split; [reflexivity | repeat constructor].
  - intros docs. apply emits_eachStream. exact Hf.
Qed.

Lemma emits_streamLimited (q : Query) (f : Doc -> M unit) :
  (forall d, emits perDocument (f d)) ->
  emits perDocument (docs <- modelFindStreamLimited env (ParsedQuery q) ;;
                     eachStream f docs).
Proof.
  intros Hf. apply emits_bind.
  - intros w. exists [EvFindStream]. rewrite modelFindStreamLimited_run.
    split; [reflexivity | repeat constructor].
  - intros docs. apply emits_eachStream. exact Hf.
Qed.

(** The insert of the upsert loop. *)
Lemma emits_upsertInsert (q : Query) (u : Update) (permissions : PermissionSet)
  (err : XError) :
  emits perDocument
    (if negb (codeEqb (code err) NOT_FOUND) then rethrow err
     else
       grant <- permGetTargetGrant permissions (permissionsTarget this)
                  (applyUpdate u (objectFromPaths (getExactMatches q))) ;;
       grantCheck grant "write" "" ;;;
       grantCheckAll grant (getUpdatedFields u) "writeMask." ;;;
       created <- lift (create (model this)
                          (applyUpdate u (objectFromPaths (getExactMatches q)))) ;;
       _ <- docSave (mkDoc None created) ;;
       ret tt).
Proof.
  apply emits_if; [apply emits_rethrow|].
  emits_step; [apply emits_permGetTargetGrant; exact I|].
  emits_step; [apply emits_grantCheck; exact I|].
  emits_step; [apply emits_grantCheckAll; intros; exact I|].
  emits_step; [emits_step|].
  emits_step; [apply emits_docSave; exact I|].
  emits_step.
Qed.

Lemma emits_updateLoop (q : Query) (u : Update) (permissions : PermissionSet)
  (params : Params.t) :
  emits perDocument (_updateLoop env this q u permissions params).
Proof. apply emits_stream. apply emits_updateOne. Qed.

Lemma emits_removeLoop (q : Query) (permissions : PermissionSet)
  (params : Params.t) :
  emits perDocument (_removeLoop env this q permissions params).
Proof. apply emits_stream. apply emits_removeOne. Qed.

Lemma emits_upsertLoop (q : Query) (u : Update) (permissions : PermissionSet)
  (params : Params.t) :
  emits perDocument (_upsertLoop env this q u permissions params).
Proof.
  unfold _upsertLoop. apply emits_tryThen.
  - intros w. exists [EvFindOne]. rewrite modelFindOne_run.
    split; [reflexivity | repeat constructor].
  - intros _. apply emits_streamLimited. apply emits_updateOne.
  - intros err. apply emits_upsertInsert.
Qed.

(** Each loop starts by asking the store for the documents. *)
Lemma updateLoop_starts (q : Query) (u : Update) (permissions : PermissionSet)
  (params : Params.t) (w : World) :
  In EvFindStream
     (eventsSince w (_updateLoop env this q u permissions params w)).
Proof.
  unfold _updateLoop. rewrite bind_run, modelFindStream_run.
  destruct (emits_eachStream perDocument (updateOne this u permissions)
              (matching q (store w)) (emits_updateOne u permissions)
              (logged w [EvFindStream])) as (evs & Et & _).
  unfold eventsSince. rewrite Et. simpl.
  rewrite <- app_assoc, skipn_app, skipn_all, Nat.sub_diag. simpl. auto.
Qed.

Lemma removeLoop_starts (q : Query) (permissions : PermissionSet)
  (params : Params.t) (w : World) :
  In EvFindStream (eventsSince w (_removeLoop env this q permissions params w)).
Proof.
  unfold _removeLoop. rewrite bind_run, modelFindStream_run.
  destruct (emits_eachStream perDocument (removeOne this permissions)
              (matching q (store w)) (emits_removeOne permissions)
              (logged w [EvFindStream])) as (evs & Et & _).
  unfold eventsSince. rewrite Et. simpl.
  rewrite <- app_assoc, skipn_app, skipn_all, Nat.sub_diag. simpl. auto.
Qed.

Lemma upsertLoop_starts (q : Query) (u : Update) (permissions : PermissionSet)
  (params : Params.t) (w : World) :
  In EvFindOne (eventsSince w (_upsertLoop env this q u permissions params w)).
Proof.
  unfold _upsertLoop, tryThen. rewrite modelFindOne_run.
  match goal with
  | |- In _ (eventsSince _ (match ?o with _ => _ end)) =>
      destruct o as [d|err]
  end.
  - destruct (emits_streamLimited q (updateOne this u permissions)
                (emits_updateOne u permissions) (logged w [EvFindOne]))
      as (evs & Et & _).
    unfold eventsSince. rewrite Et. simpl.
    rewrite <- app_assoc, skipn_app, skipn_all, Nat.sub_diag. simpl. auto.
  - destruct (emits_upsertInsert q u permissions err (logged w [EvFindOne]))
      as (evs & Et & _).
    unfold eventsSince. rewrite Et. simpl.
    rewrite <- app_assoc, skipn_app, skipn_all, Nat.sub_diag. simpl. auto.
Qed.

(** The generic shape of the three [try] blocks. *)
Lemma tryThen_fallsBack (body bulk loop : M unit) (marker : Event) (w : World) :
  (forall w', ~ In marker (eventsSince w' (bulk w'))) ->
  (forall w', In marker (eventsSince w' (loop w'))) ->
  fallsBack (body w)
    (tryThen body (fun _ => bulk)
       (fun ex => if codeEqb (code ex) ACCESS_DENIED then loop else rethrow ex) w)
    bulk loop marker.
Proof.
  intros Hbulk Hloop. unfold fallsBack, tryThen.
  destruct (body w) as [[[]|ex] w'] eqn:E; cbn [fst snd isDenied].
  - split; [reflexivity|]. split; [|discriminate].
    intros H. exfalso. exact (Hbulk w' H).
  - destruct (codeEqb (code ex) ACCESS_DENIED).
    + split; [reflexivity|]. split; [reflexivity|]. intros _. apply Hloop.
    + split; [reflexivity|]. split; [|discriminate].
      unfold rethrow, eventsSince. simpl. rewrite skipn_all. intros [].
Qed.

End Loops.

(* ================================================================== *)
(** * The bulk check and its fallback *)
(* ================================================================== *)

Section Fallback.

Variable env : Env.
Variable this : ModelAccessWrapper.

Lemma updateParsed_run (p2 : Params.t) (q : Query) (u : Update)
  (perms : PermissionSet) (g : Grant) (w2 w3 : World) :
  rejectProtected this p2 (getUpdatedFields u) w2 = (Resolved tt, w2) ->
  Params.permissions p2 = Some perms ->
  updateGrant this p2 perms q w2 = (Resolved g, w3) ->
  updateParsed env this p2 q u w2 =
  tryThen (updateBulkCheck this p2 g q (getUpdatedFields u))
    (fun _ => modelUpdate q u)
    (fun ex => if codeEqb (code ex) ACCESS_DENIED
               then _updateLoop env this q u perms p2 else rethrow ex) w3.
Proof.
  intros Hr Hp Hg. unfold updateParsed.
  rewrite (bind_resolved _ Hr), Hp, (bind_resolved _ Hg). reflexivity.
Qed.

Lemma upsertParsed_run (p2 : Params.t) (q : Query) (u : Update)
  (perms : PermissionSet) (g : Grant) (w2 w3 : World) :
  rejectProtected this p2 (getUpdatedFields u) w2 = (Resolved tt, w2) ->
  Params.permissions p2 = Some perms ->
  upsertGrant this p2 perms q w2 = (Resolved g, w3) ->
  upsertParsed env this p2 q u w2 =
  tryThen (upsertBulkCheck g q u)
    (fun _ => modelUpsert (model this) q u)
    (fun ex => if codeEqb (code ex) ACCESS_DENIED
               then _upsertLoop env this q u perms p2 else rethrow ex) w3.
Proof.
  intros Hr Hp Hg. unfold upsertParsed.
  rewrite (bind_resolved _ Hr), Hp, (bind_resolved _ Hg). reflexivity.
Qed.

Lemma removeParsed_run (p2 : Params.t) (q : Query) (perms : PermissionSet)
  (w2 w3 : World) :
  Params.permissions p2 = Some perms ->
  authorizeQuery this p2 perms q w2 = (Resolved tt, w3) ->
  removeParsed env this p2 q w2 =
  tryThen (removeBulkCheck this perms q)
    (fun _ => modelRemove q)
    (fun ex => if codeEqb (code ex) ACCESS_DENIED
               then _removeLoop env this q perms p2 else rethrow ex) w3.
Proof.
  intros Hp Hg. unfold removeParsed.
  rewrite Hp, (bind_resolved _ Hg). reflexivity.
Qed.

End Fallback.

(** C4: in update, upsert and remove, once the steps before the [try]
    block have passed, the call continues with the store's bulk operation
    when the bulk check passes, with the per-document loop when the check
    is rejected with ACCESS_DENIED, and with the check's own rejection
    otherwise; the loop's first store request appears in the trace exactly
    when the check was rejected with ACCESS_DENIED.  Without permissions
    there is no check and the bulk operation runs. *)
Theorem fallback_exactly_on_denied (env : Env) (this : ModelAccessWrapper) :
  (forall params p2 w w2 q u,
      prelude this params "update" "pre-update" w = (Resolved p2, w2) ->
      createQuery env (Params.query p2) = Resolved q ->
      createUpdate env (Params.update p2) false = Resolved u ->
      rejectProtected this p2 (getUpdatedFields u) w2 = (Resolved tt, w2) ->
      match Params.permissions p2 with
      | None => update env this params w = modelUpdate q u w2
      | Some perms =>
          forall g w3,
            updateGrant this p2 perms q w2 = (Resolved g, w3) ->
            fallsBack (updateBulkCheck this p2 g q (getUpdatedFields u) w3)
              (update env this params w)
              (modelUpdate q u) (_updateLoop env this q u perms p2)
              EvFindStream
      end) /\
  (forall params p2 w w2 q u,
      prelude this params "upsert" "pre-upsert" w = (Resolved p2, w2) ->
      createQuery env (Params.query p2) = Resolved q ->
      createUpdate env (Params.update p2) false = Resolved u ->
      rejectProtected this p2 (getUpdatedFields u) w2 = (Resolved tt, w2) ->
      match Params.permissions p2 with
      | None => upsert env this params w = modelUpsert (model this) q u w2
      | Some perms =>
          forall g w3,
            upsertGrant this p2 perms q w2 = (Resolved g, w3) ->
            fallsBack (upsertBulkCheck g q u w3)
              (upsert env this params w)
              (modelUpsert (model this) q u)
              (_upsertLoop env this q u perms p2)
              EvFindOne
      end) /\
  (forall params p2 w w2 q,
      prelude this params "remove" "pre-remove" w = (Resolved p2, w2) ->
      createQuery env (Params.query p2) = Resolved q ->
      match Params.permissions p2 with
      | None => remove env this params w = modelRemove q w2
      | Some perms =>
          forall w3,
            authorizeQuery this p2 perms q w2 = (Resolved tt, w3) ->
            fallsBack (removeBulkCheck this perms q w3)
              (remove env this params w)
              (modelRemove q) (_removeLoop env this q perms p2)
              EvFindStream
      end).
Proof.
  split; [|split].
  - intros params p2 w w2 q u Hpre Hq Hu Hr.
    rewrite (update_parsed env this params _ w _ _ _ Hpre Hq Hu).
    destruct (Params.permissions p2) as [perms|] eqn:Hp.
    + intros g w3 Hg.
      rewrite (updateParsed_run env this p2 q u perms g w2 w3 Hr Hp Hg).
      apply tryThen_fallsBack.
      * intros w'. rewrite modelUpdate_events. intros [H|[]]. discriminate.
      * intros w'. apply updateLoop_starts.
    + unfold updateParsed. rewrite (bind_resolved _ Hr), Hp. reflexivity.
  - intros params p2 w w2 q u Hpre Hq Hu Hr.
    rewrite (upsert_parsed env this params _ w _ _ _ Hpre Hq Hu).
    destruct (Params.permissions p2) as [perms|] eqn:Hp.
    + intros g w3 Hg.
      rewrite (upsertParsed_run env this p2 q u perms g w2 w3 Hr Hp Hg).
      apply tryThen_fallsBack.
      * intros w'. rewrite modelUpsert_events. intros [H|[]]. discriminate.
      * intros w'. apply upsertLoop_starts.
    + unfold upsertParsed. rewrite (bind_resolved _ Hr), Hp. reflexivity.
  - intros params p2 w w2 q Hpre Hq.
    rewrite (remove_parsed env this params _ w _ _ Hpre Hq).
    destruct (Params.permissions p2) as [perms|] eqn:Hp.
    + intros w3 Hg.
      rewrite (removeParsed_run env this p2 q perms w2 w3 Hp Hg).
      apply tryThen_fallsBack.
      * intros w'. rewrite modelRemove_events. intros [H|[]]. discriminate.
      * intros w'. apply removeLoop_starts.
    + unfold removeParsed. rewrite Hp. reflexivity.
Qed.

Lemma fallback_exactly_on_denied_witness :
  let p := Ref.ageUpdate Ref.singleDoc (VObj []) in
  let p2 := Ref.preprocessed Ref.wrapper p in
  let q := Ref.parsedQuery (VObj []) in
  let u := Ref.parsedUpdate (VObj [("$set", VObj [("age", VNum 9)])]) in
  let granted := updateGrant Ref.wrapper p2 Ref.singleDoc q Ref.world0 in
  let check := updateBulkCheck Ref.wrapper p2 (Ref.resolvedOr Ref.noGrant granted)
                 q (getUpdatedFields u) (snd granted) in
  isDenied (fst check) = true /\
  In EvFindStream
     (eventsSince (snd check) (update Ref.env Ref.wrapper p Ref.world0)).
Proof.
  intros p p2 q u granted check.
  assert (Hd : isDenied (fst check) = true) by (vm_compute; reflexivity).
  split; [exact Hd|].
  pose proof (proj1 (fallback_exactly_on_denied Ref.env Ref.wrapper)
                p p2 Ref.world0 Ref.world0 q u) as H.
  assert (Hp : Params.permissions p2 = Some Ref.singleDoc)
    by (vm_compute; reflexivity).
  rewrite Hp in H.
  assert (Hf : fallsBack check (update Ref.env Ref.wrapper p Ref.world0)
                 (modelUpdate q u)
                 (_updateLoop Ref.env Ref.wrapper q u Ref.singleDoc p2)
                 EvFindStream).
  { apply H; vm_compute; reflexivity. }
  apply (proj2 Hf). exact Hd.
Defined.

(** ** What the bulk checks require *)

Lemma passes_outcomeOf (d : option XError) :
  passes (outcomeOf d) = true <-> d = None.
Proof. destruct d; simpl; split; congruence. Qed.

Lemma denialOf_map_none (check : string -> Outcome unit) (ks : list string) :
  denialOf (map check ks) = None <->
  forall k, In k ks -> passes (check k) = true.
Proof.
  rewrite denialOf_none. split.
  - intros H k Hk. apply H. apply in_map. exact Hk.
  - intros H o Ho. apply in_map_iff in Ho. destruct Ho as (k & <- & Hk).
    apply H. exact Hk.
Qed.

Lemma grantCheckAll_passes (g : Grant) (ks : list string) (prefix : string)
  (w : World) :
  passes (fst (grantCheckAll g ks prefix w)) = true <->
  forall k, In k ks -> passes (checkKey g (prefix ++ k)) = true.
Proof.
  rewrite grantCheckAll_run. cbn [fst].
  rewrite passes_outcomeOf. apply denialOf_map_none.
Qed.

Lemma upsertBulkCheck_passes (g : Grant) (q : Query) (u : Update) (w : World) :
  passes (fst (upsertBulkCheck g q u w)) = true <->
  passes (checkKey g "write") = true /\
  forall field,
    In field (union [keys (getExactMatches q); getUpdatedFields u]) ->
    passes (checkKey g ("writeMask." ++ field)) = true.
Proof.
  unfold upsertBulkCheck. rewrite bind_run, grantCheck_run.
  change ("" ++ "write") with "write".
  destruct (checkKey g "write") as [[]|e]; cbn [passes fst].
  - rewrite grantCheckAll_passes. tauto.
  - split; [discriminate | intros [H _]; discriminate].
Qed.

Lemma updateBulkCheck_passes (this : ModelAccessWrapper) (p2 : Params.t)
  (g : Grant) (q : Query) (fields : list string) (w : World) :
  passes (fst (updateBulkCheck this p2 g q fields w)) = true <->
  passes (checkKey g "write") = true /\
  (forall field, In field fields ->
                 passes (checkKey g ("writeMask." ++ field)) = true) /\
  (hasPrivateFields this && negb (Params.allowPrivateFields p2) = true ->
   forall k, In k (keys (getExactMatches q)) ->
     passes (checkKey (getTargetGrant (globalPermissions this) "global"
                         (objectFromPaths (getExactMatches q)))
                      ("writeMask." ++ k)) = true).
Proof.
  unfold updateBulkCheck. rewrite bind_run, grantCheck_run.
  change ("" ++ "write") with "write".
  destruct (checkKey g "write") as [[]|e]; cbn [passes fst];
    [|split; [discriminate | intros [H _]; discriminate]].
  rewrite bind_run.
  pose proof (grantCheckAll_passes g fields "writeMask."
                (logged w [EvGrantCheck "write"])) as Hf.
  destruct (grantCheckAll g fields "writeMask."
              (logged w [EvGrantCheck "write"])) as [[[]|e] w'];
    cbn [passes fst] in *.
  - destruct (hasPrivateFields this && negb (Params.allowPrivateFields p2)).
    + rewrite bind_run, permGetTargetGrant_run, grantCheckAll_passes.
      split.
      * intros H. split; [reflexivity|]. split; [apply Hf; reflexivity|].
        intros _. exact H.
      * intros (_ & _ & H). apply H. reflexivity.
    + cbn. split; [|reflexivity]. intros _.
      split; [reflexivity|]. split; [apply Hf; reflexivity | discriminate].
  - split; [discriminate|]. intros (_ & H & _). apply Hf in H. discriminate.
Qed.

Lemma emits_upsertBulkCheck (g : Grant) (q : Query) (u : Update) :
  emits perDocument (upsertBulkCheck g q u).
Proof.
  unfold upsertBulkCheck.
  emits_step; [apply emits_grantCheck; exact I|].
  apply emits_grantCheckAll. intros; exact I.
Qed.

Lemma emits_updateBulkCheck (this : ModelAccessWrapper) (p2 : Params.t)
  (g : Grant) (q : Query) (fields : list string) :
  emits perDocument (updateBulkCheck this p2 g q fields).
Proof.
  unfold updateBulkCheck.
  emits_step; [apply emits_grantCheck; exact I|].
  emits_step; [apply emits_grantCheckAll; intros; exact I|].
  emits_step; [|emits_step].
  emits_step; [apply emits_permGetTargetGrant; exact I|].
  apply emits_grantCheckAll. intros; exact I.
Qed.

(** The bulk operation's event shows up exactly when the check passed. *)
Lemma bulk_only_when_checked (check bulk loop : M unit) (marker : Event)
  (w : World) :
  emits perDocument check -> emits perDocument loop ->
  ~ perDocument marker ->
  (forall w', trace (snd (bulk w')) = (trace w' ++ [marker])%list) ->
  (In marker
      (eventsSince w
         (tryThen check (fun _ => bulk)
            (fun ex => if codeEqb (code ex) ACCESS_DENIED
                       then loop else rethrow ex) w)) <->
   passes (fst (check w)) = true).
Proof.
  intros Hc Hl Hm Hb.
  split.
  - intros Hin.
    destruct (fst (check w)) as [[]|ex] eqn:E; [reflexivity|]. exfalso.
    assert (He : emits perDocument
                   (tryThen check (fun _ : unit => @rethrow unit ex)
                      (fun ex => if codeEqb (code ex) ACCESS_DENIED
                                 then loop else rethrow ex))).
    { apply emits_tryThen; [exact Hc | intros; apply emits_rethrow|].
      intros e. apply emits_if; [exact Hl | apply emits_rethrow]. }
    apply (eventsSince_emits _ _ w) in He.
    unfold tryThen in Hin, He. destruct (check w) as [[[]|ex'] w'];
      [discriminate|].
    rewrite Forall_forall in He. exact (Hm (He _ Hin)).
  - intros Hp. unfold tryThen.
    destruct (Hc w) as (e1 & Et & _).
    destruct (check w) as [[[]|ex] w']; [|discriminate].
    unfold eventsSince. cbn [snd] in Et.
    rewrite (Hb w'), Et, <- app_assoc, skipn_app, skipn_all, Nat.sub_diag.
    cbn [app skipn]. apply in_or_app. right. left. reflexivity.
Qed.

Lemma modelUpdate_trace (q : Query) (u : Update) (w : World) :
  trace (snd (modelUpdate q u w)) = (trace w ++ [EvModelUpdate])%list.
Proof. reflexivity. Qed.

Lemma modelUpsert_trace (m : Model) (q : Query) (u : Update) (w : World) :
  trace (snd (modelUpsert m q u w)) = (trace w ++ [EvModelUpsert])%list.
Proof.
  unfold modelUpsert, bind, log, getStore, lift, putStore. cbn [store trace].
  destruct (matching q (store w)); [destruct (create m _)|]; reflexivity.
Qed.

(** C2, as stated, fails for update: under a grant whose write mask covers
    only [age], an update of [age] selected by the exact match
    [name = 'Felix'] is handed to the store's bulk update, although the
    grant's write mask does not cover the exact-match field [name]. *)
Lemma update_ignores_exact_match_fields :
  let p := Ref.ageUpdate Ref.ageWriter (VObj [("name", VStr "Felix")]) in
  let grant := getTargetGrant Ref.ageWriter "Animal"
                 (VObj [("name", VStr "Felix")]) in
  In "name" (union [keys (getExactMatches
                            (Ref.parsedQuery (VObj [("name", VStr "Felix")])));
                    ["age"]]) /\
  passes (checkKey grant "writeMask.name") = false /\
  In EvModelUpdate (trace (snd (update Ref.env Ref.wrapper p Ref.world0))).
Proof.
  vm_compute. split; [auto|]. split; [reflexivity|].
  repeat (try (left; reflexivity); right).
Qed.

(** C2 (amended): with permissions, an upsert is handed to the store's
    bulk operation exactly when the resolved grant passes [write] and its
    write mask covers every exact-match field name and every updated field;
    an update is handed to it exactly when the resolved grant passes
    [write] and its write mask covers every updated field and, on a model
    with private fields and without [allowPrivateFields], the global
    grant's write mask covers the exact-match field names. *)
Theorem bulk_write_requires_bulk_check (env : Env) (this : ModelAccessWrapper) :
  (forall params p2 w w2 q u perms g w3,
      prelude this params "upsert" "pre-upsert" w = (Resolved p2, w2) ->
      createQuery env (Params.query p2) = Resolved q ->
      createUpdate env (Params.update p2) false = Resolved u ->
      rejectProtected this p2 (getUpdatedFields u) w2 = (Resolved tt, w2) ->
      Params.permissions p2 = Some perms ->
      upsertGrant this p2 perms q w2 = (Resolved g, w3) ->
      (In EvModelUpsert (eventsSince w3 (upsert env this params w)) <->
       passes (checkKey g "write") = true /\
       forall field,
         In field (union [keys (getExactMatches q); getUpdatedFields u]) ->
         passes (checkKey g ("writeMask." ++ field)) = true)) /\
  (forall params p2 w w2 q u perms g w3,
      prelude this params "update" "pre-update" w = (Resolved p2, w2) ->
      createQuery env (Params.query p2) = Resolved q ->
      createUpdate env (Params.update p2) false = Resolved u ->
      rejectProtected this p2 (getUpdatedFields u) w2 = (Resolved tt, w2) ->
      Params.permissions p2 = Some perms ->
      updateGrant this p2 perms q w2 = (Resolved g, w3) ->
      (In EvModelUpdate (eventsSince w3 (update env this params w)) <->
       passes (checkKey g "write") = true /\
       (forall field,
           In field (getUpdatedFields u) ->
           passes (checkKey g ("writeMask." ++ field)) = true) /\
       (hasPrivateFields this && negb (Params.allowPrivateFields p2) = true ->
        forall k, In k (keys (getExactMatches q)) ->
          passes (checkKey (getTargetGrant (globalPermissions this) "global"
                              (objectFromPaths (getExactMatches q)))
                           ("writeMask." ++ k)) = true))).
Proof.
  split; intros params p2 w w2 q u perms g w3 Hpre Hq Hu Hr Hp Hg.
  - rewrite (upsert_parsed env this params _ w _ _ _ Hpre Hq Hu).
    rewrite (upsertParsed_run env this p2 q u perms g w2 w3 Hr Hp Hg).
    rewrite <- upsertBulkCheck_passes with (w := w3).
    apply bulk_only_when_checked.
    + apply emits_upsertBulkCheck.
    + apply emits_upsertLoop.
    + intros [].
    + apply modelUpsert_trace.
  - rewrite (update_parsed env this params _ w _ _ _ Hpre Hq Hu).
    rewrite (updateParsed_run env this p2 q u perms g w2 w3 Hr Hp Hg).
    rewrite <- updateBulkCheck_passes with (w := w3).
    apply bulk_only_when_checked.
    + apply emits_updateBulkCheck.
    + apply emits_updateLoop.
    + intros [].
    + apply modelUpdate_trace.
Qed.

Lemma bulk_write_requires_bulk_check_witness :
  let p := Ref.ageUpdate Ref.ageWriter (VObj [("name", VStr "Felix")]) in
  let p2 := Ref.preprocessed Ref.wrapper p in
  let q := Ref.parsedQuery (VObj [("name", VStr "Felix")]) in
  let granted := upsertGrant Ref.wrapper p2 Ref.ageWriter q Ref.world0 in
  passes (checkKey (Ref.resolvedOr Ref.noGrant granted) "writeMask.name") = false /\
  ~ In EvModelUpsert
      (eventsSince (snd granted) (upsert Ref.env Ref.wrapper p Ref.world0)).
Proof.
  intros p p2 q granted.
  assert (Hd : passes (checkKey (Ref.resolvedOr Ref.noGrant granted)
                         "writeMask.name") = false)
    by (vm_compute; reflexivity).
  split; [exact Hd|].
  intros Hin.
  apply (proj1 (bulk_write_requires_bulk_check Ref.env Ref.wrapper)
           p p2 Ref.world0 Ref.world0 q
           (Ref.parsedUpdate (VObj [("$set", VObj [("age", VNum 9)])]))
           Ref.ageWriter (Ref.resolvedOr Ref.noGrant granted) (snd granted))
    in Hin; try (vm_compute; reflexivity).
  destruct Hin as [_ Hin].
  assert (Hn : passes (checkKey (Ref.resolvedOr Ref.noGrant granted)
                         ("writeMask." ++ "name")) = true)
    by (apply Hin; vm_compute; auto).
  change ("writeMask." ++ "name") with "writeMask.name" in Hn.
  rewrite Hd in Hn. discriminate.
Defined.

(* ================================================================== *)
(** * The per-document loops *)
(* ================================================================== *)

Lemma sameId_true (i : option nat) (x : Doc) :
  sameId i x = true <-> i = docId x /\ i <> None.
Proof.
  unfold sameId. destruct i as [a|], (docId x) as [b|]; split;
    try discriminate; try (intros [H1 H2]; congruence).
  - intros H. apply Nat.eqb_eq in H. subst. split; congruence.
  - intros [H _]. injection H as ->. apply Nat.eqb_refl.
Qed.

Lemma sameId_sym (x p : Doc) : sameId (docId x) p = sameId (docId p) x.
Proof.
  unfold sameId. destruct (docId x), (docId p); try reflexivity.
  apply Nat.eqb_sym.
Qed.

Lemma NoDup_map_eq {A B : Type} (f : A -> B) (l : list A) (x y : A) :
  NoDup (map f l) -> In x l -> In y l -> f x = f y -> x = y.
Proof.
  induction l as [|a t IH]; simpl; intros Hnd Hx Hy E; [contradiction|].
  inversion Hnd as [|? ? Hnotin Hnd']; subst.
  destruct Hx as [->|Hx], Hy as [->|Hy].
  - reflexivity.
  - exfalso. apply Hnotin. rewrite E. apply in_map. exact Hy.
  - exfalso. apply Hnotin. rewrite <- E. apply in_map. exact Hx.
  - apply IH; assumption.
Qed.

Lemma NoDup_map_filter {A B : Type} (f : A -> B) (g : A -> bool) (l : list A) :
  NoDup (map f l) -> NoDup (map f (filter g l)).
Proof.
  induction l as [|a t IH]; simpl; intros Hnd; [constructor|].
  inversion Hnd as [|? ? Hnotin Hnd']; subst.
  destruct (g a); simpl; [|apply IH; exact Hnd'].
  constructor; [|apply IH; exact Hnd'].
  intros Hin. apply Hnotin. apply in_map_iff in Hin.
  destruct Hin as (y & E & Hy). apply filter_In in Hy.
  rewrite <- E. apply in_map. apply Hy.
Qed.

Lemma NoDup_map_app_l {A B : Type} (f : A -> B) (l1 l2 : list A) :
  NoDup (map f (l1 ++ l2)) -> NoDup (map f l1).
Proof. rewrite map_app. apply NoDup_app_remove_r. Qed.

Lemma memDoc_nil (x : Doc) : memDoc x [] = false.
Proof. reflexivity. Qed.

Lemma memDoc_cons (x p : Doc) (t : list Doc) :
  memDoc x (p :: t) = sameId (docId p) x || memDoc x t.
Proof. unfold memDoc. simpl. now rewrite sameId_sym. Qed.

Lemma memDoc_fresh (p : Doc) (t : list Doc) :
  ~ In (docId p) (map docId t) -> memDoc p t = false.
Proof.
  intros H. unfold memDoc. apply not_true_is_false. intros E.
  apply existsb_exists in E. destruct E as (y & Hy & Hs).
  apply sameId_true in Hs. destruct Hs as [Hs _].
  apply H. rewrite Hs. apply in_map. exact Hy.
Qed.

Lemma filter_writes_checks (prefix : string) (ks : list string) :
  filter isStoreWrite (map (fun k => EvGrantCheck (prefix ++ k)) ks) = [].
Proof. induction ks as [|k t IH]; [reflexivity | exact IH]. Qed.

Lemma filter_removed (p : Doc) (t l : list Doc) :
  filter (fun x => negb (memDoc x t))
         (filter (fun x => negb (sameId (docId p) x)) l) =
  filter (fun x => negb (memDoc x (p :: t))) l.
Proof.
  induction l as [|x l IHl]; [reflexivity|].
  cbn [filter]. rewrite memDoc_cons.
  destruct (sameId (docId p) x); cbn [negb orb filter].
  - exact IHl.
  - destruct (memDoc x t); cbn [negb]; [exact IHl | now rewrite IHl].
Qed.

(** What a stream's [each] leaves behind is what running the callback on
    every item leaves behind. *)
Lemma eachStream_world {A : Type} (f : A -> M unit) (l : list A) (w : World) :
  snd (eachStream f l w) = snd (drainSeries f l w).
Proof.
  revert w. induction l as [|x t IH]; intros w; [reflexivity|].
  cbn [eachStream drainSeries].
  destruct (f x w) as [[[]|e] w1]; cbn [snd]; [apply IH | reflexivity].
Qed.

(** Its outcome is the first rejection of the callback. *)
Lemma eachStream_outcome {A : Type} (f : A -> M unit)
  (verdict : A -> option XError) :
  (forall x w, fst (f x w) = outcomeOf (verdict x)) ->
  forall l w,
    fst (eachStream f l w) =
    outcomeOf (denialOf (map (fun x => outcomeOf (verdict x)) l)).
Proof.
  intros Hf. induction l as [|x t IH]; intros w; [reflexivity|].
  cbn [eachStream map]. specialize (Hf x w).
  destruct (f x w) as [[[]|e] w1]; cbn [fst] in Hf;
    destruct (verdict x) as [e'|]; cbn [outcomeOf] in Hf |- *;
    try discriminate; cbn [denialOf].
  - apply IH.
  - injection Hf as ->. reflexivity.
Qed.

Lemma denialOf_first {A : Type} (verdict : A -> option XError)
  (pre : list A) (d : A) (post : list A) (e : XError) :
  (forall x, In x pre -> verdict x = None) ->
  verdict d = Some e ->
  denialOf (map (fun x => outcomeOf (verdict x)) (pre ++ d :: post)) = Some e.
Proof.
  intros Hpre Hd. induction pre as [|p t IH]; cbn [app map].
  - rewrite Hd. reflexivity.
  - rewrite (Hpre p (or_introl eq_refl)). cbn [outcomeOf denialOf].
    apply IH. intros x Hx. apply Hpre. right. exact Hx.
Qed.

Lemma verdicts_none {A : Type} (verdict : A -> option XError) (l : list A) :
  (forall x, In x l -> verdict x = None) ->
  denialOf (map (fun x => outcomeOf (verdict x)) l) = None.
Proof.
  intros Hl. induction l as [|p t IH]; [reflexivity|]. cbn [map].
  rewrite (Hl p (or_introl eq_refl)). cbn [outcomeOf denialOf].
  apply IH. intros x Hx. apply Hl. right. exact Hx.
Qed.

Lemma docSave_resolves (d : Doc) (w : World) :
  exists d', fst (docSave d w) = Resolved d'.
Proof.
  unfold docSave, bind, log, getStore, putStore, ret. cbn [store trace].
  destruct (docId d) as [i|].
  - destruct (existsb (sameId (Some i)) (docs (store w)));
      eexists; reflexivity.
  - eexists; reflexivity.
Qed.

Section LoopRuns.

Variable env : Env.
Variable this : ModelAccessWrapper.
Variable permissions : PermissionSet.

Lemma checked_run (ks : list string) (doc : Doc) (w : World) :
  exists evs,
    filter isStoreWrite evs = [] /\
    checked this permissions ks doc w = (outcomeOf (denial this permissions ks doc), logged w evs).
Proof.
  unfold checked. rewrite bind_run, permGetTargetGrant_run.
  fold (grantCheckAll (getTargetGrant permissions (permissionsTarget this)
                         (getData doc)) ks "").
  rewrite grantCheckAll_run, logged_logged. cbv zeta.
  eexists. split; [|reflexivity].
  cbn [app filter isStoreWrite]. apply filter_writes_checks.
Qed.

Lemma updateOne_checked (u : Update) (doc : Doc) (w : World) :
  updateOne this u permissions doc w =
  bind (checked this permissions (writeKeys u) doc)
       (fun _ => _ <- docSave (setData doc (applyUpdate u (getData doc))) ;;
                 ret tt) w.
Proof.
  unfold updateOne, checked, writeKeys, grantCheckAll.
  rewrite !bind_run, permGetTargetGrant_run. cbn [eachSeries].
  rewrite !bind_run.
  destruct (grantCheck _ "write" "" _) as [[[]|e] w1]; [|reflexivity].
  rewrite !bind_run.
  assert (E : forall ks w0,
             eachSeries
               (fun k => grantCheck (getTargetGrant permissions
                                       (permissionsTarget this) (getData doc))
                           k "writeMask.") ks w0 =
             eachSeries
               (fun k => grantCheck (getTargetGrant permissions
                                       (permissionsTarget this) (getData doc))
                           k "")
               (map (fun field => "writeMask." ++ field) ks) w0).
  { induction ks as [|k t IH]; intros w0; [reflexivity|].
    cbn [eachSeries map]. rewrite !bind_run, !grantCheck_run.
    change ("" ++ ("writeMask." ++ k)) with ("writeMask." ++ k).
    destruct (checkKey _ ("writeMask." ++ k)); [apply IH | reflexivity]. }
  rewrite E. reflexivity.
Qed.

Lemma removeOne_checked (doc : Doc) (w : World) :
  removeOne this permissions doc w =
  bind (checked this permissions ["delete"] doc) (fun _ => docRemove doc) w.
Proof.
  unfold removeOne, checked. rewrite !bind_run, permGetTargetGrant_run.
  cbn [eachSeries]. rewrite !bind_run.
  destruct (grantCheck _ "delete" "" _) as [[[]|e] w1]; reflexivity.
Qed.

Lemma docSave_existing (d : Doc) (w : World) :
  docId d <> None ->
  existsb (sameId (docId d)) (docs (store w)) = true ->
  docSave d w =
  (Resolved d,
   mkWorld (mkStore (map (fun x => if sameId (docId d) x then d else x)
                         (docs (store w))) (nextId (store w)))
           (trace w ++ [EvSave d])).
Proof.
  intros Hid Hex. unfold docSave. rewrite bind_run. cbn [log].
  rewrite bind_run. cbn [getStore store trace].
  destruct (docId d) as [i|] eqn:Ei; [|congruence].
  rewrite Hex. reflexivity.
Qed.

Lemma docRemove_run (d : Doc) (w : World) :
  docRemove d w =
  (Resolved tt,
   mkWorld (mkStore (filter (fun x => negb (sameId (docId d) x))
                            (docs (store w))) (nextId (store w)))
           (trace w ++ [EvRemove d])).
Proof. reflexivity. Qed.

Lemma existsb_sameId (p : Doc) (l : list Doc) :
  In p l -> docId p <> None -> existsb (sameId (docId p)) l = true.
Proof.
  intros Hin Hid. apply existsb_exists. exists p. split; [exact Hin|].
  apply sameId_true. auto.
Qed.

Lemma updateOne_outcome (u : Update) (doc : Doc) (w : World) :
  fst (updateOne this u permissions doc w) =
  outcomeOf (denial this permissions (writeKeys u) doc).
Proof.
  rewrite updateOne_checked, bind_run.
  destruct (checked_run (writeKeys u) doc w) as (evs & _ & ->).
  destruct (denial this permissions (writeKeys u) doc); [reflexivity|].
  cbn [outcomeOf]. rewrite bind_run.
  destruct (docSave_resolves (setData doc (applyUpdate u (getData doc)))
              (logged w evs)) as (d' & Hd).
  destruct (docSave _ _) as [[x|e] w1]; [reflexivity | discriminate].
Qed.

Lemma removeOne_outcome (doc : Doc) (w : World) :
  fst (removeOne this permissions doc w) =
  outcomeOf (denial this permissions ["delete"] doc).
Proof.
  rewrite removeOne_checked, bind_run.
  destruct (checked_run ["delete"] doc w) as (evs & _ & ->).
  destruct (denial this permissions ["delete"] doc); reflexivity.
Qed.


Lemma filter_authorized (ks : list string) (l : list Doc) :
  (forall x, In x l -> denial this permissions ks x = None) ->
  filter (authorizedFor this permissions ks) l = l.
Proof.
  intros Hl. apply forallb_filter_id. apply forallb_forall. intros x Hx.
  unfold authorizedFor. rewrite (Hl x Hx). reflexivity.
Qed.

(** The update callback run on every document of a list: the documents
    whose grant allows the update are saved, in order, the others are
    left as they are. *)
Lemma update_drain (u : Update) (l : list Doc) (w : World) :
  let upd := fun x => setData x (applyUpdate u (getData x)) in
  let done := filter (authorizedFor this permissions (writeKeys u)) l in
  NoDup (map docId (docs (store w))) ->
  NoDup (map docId l) ->
  (forall x, In x l -> In x (docs (store w)) /\ docId x <> None) ->
  exists evs,
    filter isStoreWrite evs = map (fun x => EvSave (upd x)) done /\
    snd (drainSeries (updateOne this u permissions) l w) =
    mkWorld (mkStore (map (fun x => if memDoc x done then upd x else x)
                          (docs (store w))) (nextId (store w)))
            (trace w ++ evs).
Proof.
  intros upd. cbv zeta. revert w.
  induction l as [|p t IH]; intros w Hnd Hl Hin.
  - exists []. cbn [drainSeries filter map]. unfold ret. rewrite app_nil_r.
    split; [reflexivity|].
    destruct w as [[ds n] tr]. cbn. rewrite map_id. reflexivity.
  - cbn [drainSeries]. rewrite updateOne_checked, bind_run.
    destruct (checked_run (writeKeys u) p w) as (evs & Hf & ->).
    cbn [map] in Hl. inversion Hl as [|? ? Hfresh Hl']; subst.
    destruct (Hin p (or_introl eq_refl)) as [Hp Hid].
    cbn [filter].
    assert (Ha : authorizedFor this permissions (writeKeys u) p =
                 match denial this permissions (writeKeys u) p with
                 | None => true
                 | Some _ => false
                 end) by reflexivity.
    rewrite Ha; clear Ha.
    destruct (denial this permissions (writeKeys u) p) as [e|];
      cbn [outcomeOf snd].
    + destruct (IH (logged w evs) Hnd Hl') as (evs' & Hf' & ->); clear IH.
      * intros x Hx. apply Hin. right. exact Hx.
      * exists (evs ++ evs')%list. split.
        -- rewrite filter_app, Hf, Hf'. reflexivity.
        -- unfold logged. cbn [store trace]. rewrite app_assoc. reflexivity.
    + rewrite bind_run, docSave_existing;
        [|exact Hid | exact (existsb_sameId p _ Hp Hid)].
      cbn [ret snd].
      set (w1 := mkWorld _ _).
      destruct (IH w1) as (evs' & Hf' & ->); clear IH.
      * cbn. rewrite map_map.
        erewrite map_ext; [exact Hnd|].
        intros x. cbn. destruct (sameId (docId p) x) eqn:E; [|reflexivity].
        apply sameId_true in E. destruct E as [E _]. exact E.
      * exact Hl'.
      * intros x Hx. destruct (Hin x (or_intror Hx)) as [Hxin Hxid].
        split; [|exact Hxid]. cbn. apply in_map_iff. exists x.
        split; [|exact Hxin].
        destruct (sameId (docId p) x) eqn:E; [|reflexivity]. exfalso.
        apply sameId_true in E. apply Hfresh. cbn in E. destruct E as [E _].
        rewrite E. apply in_map. exact Hx.
      * exists (evs ++ [EvSave (upd p)] ++ evs')%list. split.
        -- rewrite !filter_app, Hf, Hf'. reflexivity.
        -- subst w1. unfold logged. cbn [store docs nextId trace].
           f_equal.
           ++ f_equal. rewrite map_map. apply map_ext_in. intros x Hx.
              subst upd. cbv beta. rewrite memDoc_cons.
              change (docId (setData p (applyUpdate u (getData p))))
                with (docId p).
              destruct (sameId (docId p) x) eqn:E; cbn [orb]; [|reflexivity].
              apply sameId_true in E. destruct E as [E _].
              assert (x = p) by (apply (NoDup_map_eq docId _ _ _ Hnd Hx Hp);
                                 symmetry; exact E).
              subst x.
              rewrite memDoc_fresh; [reflexivity|].
              intros Hm. apply Hfresh. apply in_map_iff in Hm.
              destruct Hm as (y & Ey & Hy). apply filter_In in Hy.
              change (docId (setData p (applyUpdate u (getData p))))
                with (docId p) in Ey.
              rewrite <- Ey. apply in_map. apply Hy.
           ++ rewrite <- !app_assoc. reflexivity.
Qed.

(** The remove callback run on every document of a list. *)
Lemma remove_drain (l : list Doc) (w : World) :
  let done := filter (authorizedFor this permissions ["delete"]) l in
  NoDup (map docId (docs (store w))) ->
  NoDup (map docId l) ->
  (forall x, In x l -> In x (docs (store w)) /\ docId x <> None) ->
  exists evs,
    filter isStoreWrite evs = map EvRemove done /\
    snd (drainSeries (removeOne this permissions) l w) =
    mkWorld (mkStore (filter (fun x => negb (memDoc x done))
                             (docs (store w))) (nextId (store w)))
            (trace w ++ evs).
Proof.
  cbv zeta. revert w.
  induction l as [|p t IH]; intros w Hnd Hl Hin.
  - exists []. cbn [drainSeries filter map]. unfold ret. rewrite app_nil_r.
    split; [reflexivity|].
    destruct w as [[ds n] tr]. cbn.
    rewrite forallb_filter_id by (apply forallb_forall; reflexivity).
    reflexivity.
  - cbn [drainSeries]. rewrite removeOne_checked, bind_run.
    destruct (checked_run ["delete"] p w) as (evs & Hf & ->).
    cbn [map] in Hl. inversion Hl as [|? ? Hfresh Hl']; subst.
    destruct (Hin p (or_introl eq_refl)) as [Hp Hid].
    cbn [filter].
    assert (Ha : authorizedFor this permissions ["delete"] p =
                 match denial this permissions ["delete"] p with
                 | None => true
                 | Some _ => false
                 end) by reflexivity.
    rewrite Ha; clear Ha.
    destruct (denial this permissions ["delete"] p) as [e|];
      cbn [outcomeOf snd].
    + destruct (IH (logged w evs) Hnd Hl') as (evs' & Hf' & ->); clear IH.
      * intros x Hx. apply Hin. right. exact Hx.
      * exists (evs ++ evs')%list. split.
        -- rewrite filter_app, Hf, Hf'. reflexivity.
        -- unfold logged. cbn [store trace]. rewrite app_assoc. reflexivity.
    + rewrite docRemove_run. cbn [snd].
      set (w1 := mkWorld _ _).
      destruct (IH w1) as (evs' & Hf' & ->); clear IH.
      * cbn. apply NoDup_map_filter. exact Hnd.
      * exact Hl'.
      * intros x Hx. destruct (Hin x (or_intror Hx)) as [Hxin Hxid].
        split; [|exact Hxid]. cbn. apply filter_In. split; [exact Hxin|].
        destruct (sameId (docId p) x) eqn:E; [|reflexivity]. exfalso.
        apply sameId_true in E. apply Hfresh. destruct E as [E _].
        rewrite E. apply in_map. exact Hx.
      * exists (evs ++ [EvRemove p] ++ evs')%list. split.
        -- rewrite !filter_app, Hf, Hf'. reflexivity.
        -- subst w1. unfold logged. cbn [store docs nextId trace].
           f_equal.
           ++ f_equal. apply filter_removed.
           ++ rewrite <- !app_assoc. reflexivity.
Qed.

End LoopRuns.

Lemma matching_stored (q : Query) (s : Store) :
  wfStore s ->
  NoDup (map docId (matching q s)) /\
  forall x, In x (matching q s) -> In x (docs s) /\ docId x <> None.
Proof.
  intros [Hnd Hids]. split.
  - apply NoDup_map_filter. exact Hnd.
  - intros x Hx. apply filter_In in Hx. destruct Hx as [Hx _].
    split; [exact Hx|]. rewrite Forall_forall in Hids. apply Hids. exact Hx.
Qed.

Section LoopsRun.

Variable env : Env.
Variable this : ModelAccessWrapper.
Variable permissions : PermissionSet.

(** The update loop: rejected with the first denial among the matched
    documents, if there is one, and every matched document whose grant
    allows the update saved. *)
Lemma updateLoop_run (q : Query) (u : Update) (params : Params.t) (w : World) :
  let upd := fun x => setData x (applyUpdate u (getData x)) in
  let done := filter (authorizedFor this permissions (writeKeys u))
                     (matching q (store w)) in
  let r := _updateLoop env this q u permissions params w in
  wfStore (store w) ->
  fst r = outcomeOf (denialOf (map (fun x => outcomeOf
                                      (denial this permissions (writeKeys u) x))
                                   (matching q (store w)))) /\
  store (snd r) =
    mkStore (map (fun x => if memDoc x done then upd x else x)
                 (docs (store w))) (nextId (store w)) /\
  filter isStoreWrite (eventsSince w r) = map (fun x => EvSave (upd x)) done.
Proof.
  intros upd done r Hwf. subst r done. pose proof Hwf as [Hnd _].
  destruct (matching_stored q (store w) Hwf) as [Hmnd Hmin].
  unfold _updateLoop. rewrite bind_run, modelFindStream_run. split.
  - apply eachStream_outcome. intros x w'. apply updateOne_outcome.
  - unfold eventsSince. rewrite eachStream_world.
    destruct (update_drain this permissions u (matching q (store w))
                (logged w [EvFindStream]) Hnd Hmnd Hmin) as (evs & Hf & ->).
    cbn [store trace logged]. split; [reflexivity|].
    rewrite <- app_assoc, skipn_app, skipn_all, Nat.sub_diag.
    cbn [skipn app filter isStoreWrite]. exact Hf.
Qed.

Lemma removeLoop_run (q : Query) (params : Params.t) (w : World) :
  let done := filter (authorizedFor this permissions ["delete"])
                     (matching q (store w)) in
  let r := _removeLoop env this q permissions params w in
  wfStore (store w) ->
  fst r = outcomeOf (denialOf (map (fun x => outcomeOf
                                      (denial this permissions ["delete"] x))
                                   (matching q (store w)))) /\
  store (snd r) =
    mkStore (filter (fun x => negb (memDoc x done)) (docs (store w)))
            (nextId (store w)) /\
  filter isStoreWrite (eventsSince w r) = map EvRemove done.
Proof.
  intros done r Hwf. subst r done. pose proof Hwf as [Hnd _].
  destruct (matching_stored q (store w) Hwf) as [Hmnd Hmin].
  unfold _removeLoop. rewrite bind_run, modelFindStream_run. split.
  - apply eachStream_outcome. intros x w'. apply removeOne_outcome.
  - unfold eventsSince. rewrite eachStream_world.
    destruct (remove_drain this permissions (matching q (store w))
                (logged w [EvFindStream]) Hnd Hmnd Hmin) as (evs & Hf & ->).
    cbn [store trace logged]. split; [reflexivity|].
    rewrite <- app_assoc, skipn_app, skipn_all, Nat.sub_diag.
    cbn [skipn app filter isStoreWrite]. exact Hf.
Qed.

End LoopsRun.



(* ================================================================== *)
(** * Filtering and merging documents *)
(* ================================================================== *)

Lemma splitFrom_not_nil (acc s : string) : splitFrom acc s <> [].
Proof.
  revert acc. induction s as [|c rest IH]; intros acc; simpl; [discriminate|].
  destruct (Ascii.eqb c "."%char); [discriminate | apply IH].
Qed.

Lemma splitPath_cons (path : string) :
  exists k rest, splitPath path = k :: rest.
Proof.
  unfold splitPath. pose proof (splitFrom_not_nil "" path) as H.
  destruct (splitFrom "" path) as [|k rest]; [congruence|].
  exists k, rest. reflexivity.
Qed.

Lemma getPathL_undef (parts : list string) : getPathL VUndef parts = VUndef.
Proof. induction parts as [|k rest IH]; [reflexivity | exact IH]. Qed.

Lemma filterObject_true (v : Value) : filterObject v (MBool true) = v.
Proof. destruct v; reflexivity. Qed.

Lemma filterObject_false (v : Value) : filterObject v (MBool false) = VUndef.
Proof. destruct v; reflexivity. Qed.

Lemma filterObject_undef (m : Mask) : filterObject VUndef m = VUndef.
Proof. destruct m as [[|]|es]; reflexivity. Qed.

Lemma filterObject_obj (ps : list (string * Value)) (es : list (string * Mask)) :
  filterObject (VObj ps) (MObj es) =
  let subs := map (fun kv => (fst kv, filterObject (snd kv))) ps in
  let filtered := fun k =>
    match assoc k subs with
    | Some f => f (subMaskAt (MObj es) k)
    | None => VUndef
    end in
  VObj (mapKept (fun k => negb (isUndef (filtered k)))
                (fun k _ => filtered k) subs).
Proof.
  cbn [filterObject].
  assert (E : (fix go (l : list (string * Value)) : list (string * (Mask -> Value)) :=
                 match l with
                 | [] => []
                 | (k, v) :: t => (k, filterObject v) :: go t
                 end) ps = map (fun kv => (fst kv, filterObject (snd kv))) ps).
  { induction ps as [|[k v] t IH]; simpl; [reflexivity | now rewrite IH]. }
  rewrite E. reflexivity.
Qed.

(** Filtering commutes with property access. *)
Lemma prop_filterObject (v : Value) (m : Mask) (k : string) :
  prop (filterObject v m) k = filterObject (prop v k) (subMaskAt m k).
Proof.
  destruct m as [[|]|es].
  - rewrite !filterObject_true. reflexivity.
  - rewrite !filterObject_false. reflexivity.
  - destruct v as [| | | | | |props];
      try (cbn [prop]; rewrite !filterObject_undef; reflexivity).
    rewrite filterObject_obj. cbv zeta. cbn [prop].
    rewrite assoc_mapKept, !assoc_map.
    destruct (assoc k props) as [x|]; cbn [option_map].
    + destruct (isUndef (filterObject x (subMaskAt (MObj es) k))) eqn:E;
        cbn [negb]; [|reflexivity].
      destruct (filterObject x (subMaskAt (MObj es) k)); try discriminate.
      reflexivity.
    + rewrite filterObject_undef. reflexivity.
Qed.

Lemma getPathL_filterObject (parts : list string) (v : Value) (m : Mask) :
  getPathL (filterObject v m) parts =
  filterObject (getPathL v parts) (getSubMaskL m parts).
Proof.
  revert v m. induction parts as [|k rest IH]; intros v m; [reflexivity|].
  cbn [getPathL getSubMaskL]. rewrite prop_filterObject. apply IH.
Qed.

(** A scalar that survives a filter is the original. *)
Lemma filterObject_scalar (x : Value) (m : Mask) (v : Value) :
  filterObject x m = v -> isScalar v = true -> v <> VUndef -> x = v.
Proof.
  intros E Hs Hu. destruct m as [[|]|es].
  - now rewrite filterObject_true in E.
  - rewrite filterObject_false in E. congruence.
  - destruct x; cbn in E; try congruence; subst v; discriminate.
Qed.

(** Nothing is left at a path the subtracted mask includes. *)
Lemma getPath_stripped (data : Value) (min sub : Mask) (path : string) :
  checkPath sub path = true ->
  getPath (filterObject data (subtractMasks min sub)) path = VUndef.
Proof.
  unfold checkPath, getPath, getSubMask, subtractMasks. intros H.
  rewrite getPathL_filterObject, getSubMaskL_andMasks, getSubMaskL_invertMask.
  destruct (getSubMaskL sub (splitPath path)) as [[|]|es]; try discriminate.
  cbn [invertMask negb]. rewrite andMasks_false_r. apply filterObject_false.
Qed.

Lemma mergeInto_obj (sps : list (string * Value)) (object : Value) :
  mergeInto (VObj sps) object =
  let subs := map (fun kv => (fst kv, mergeInto (snd kv))) sps in
  let mergedWith := fun k old =>
    match assoc k subs with Some f => f old | None => old end in
  let ops := match object with VObj ops => ops | _ => [] end in
  VObj (mapKept (fun _ => true) mergedWith ops
        ++ mapKept (fun k => negb (hasKey k ops)
                             && negb (isUndef (prop (VObj sps) k)))
                   (fun k _ => mergedWith k VUndef) subs).
Proof.
  cbn [mergeInto].
  assert (E : (fix go (l : list (string * Value)) : list (string * (Value -> Value)) :=
                 match l with
                 | [] => []
                 | (k, sv) :: t => (k, mergeInto sv) :: go t
                 end) sps = map (fun kv => (fst kv, mergeInto (snd kv))) sps).
  { induction sps as [|[k v] t IH]; simpl; [reflexivity | now rewrite IH]. }
  rewrite E. reflexivity.
Qed.

(** Merging commutes with property access. *)
Lemma prop_mergeInto (source object : Value) (k : string) :
  mergeable source = true ->
  prop (mergeInto source object) k = mergeInto (prop source k) (prop object k).
Proof.
  destruct source as [| | | | | |sps]; try discriminate; intros _.
  - reflexivity.
  - rewrite mergeInto_obj. cbv zeta.
    set (ops := match object with VObj ops => ops | _ => [] end).
    assert (Hp : prop object k
                 = match assoc k ops with Some x => x | None => VUndef end).
    { subst ops. destruct object; reflexivity. }
    rewrite Hp. cbn [prop].
    rewrite assoc_app, !assoc_mapKept, !assoc_map. unfold hasKey.
    destruct (assoc k ops) as [ov|]; cbn [option_map negb andb].
    + destruct (assoc k sps); reflexivity.
    + destruct (assoc k sps) as [sv|]; cbn [option_map isUndef];
        [|reflexivity].
      destruct (isUndef sv) eqn:E; cbn [negb]; [|reflexivity].
      destruct sv; try discriminate; reflexivity.
Qed.

Lemma mergeInto_leaf (v object : Value) :
  isLeaf v = true -> mergeInto v object = v.
Proof. destruct v; try discriminate; reflexivity. Qed.

Lemma leaf_needs_object (v : Value) (k : string) (rest : list string) :
  isLeaf (getPathL (prop v k) rest) = true -> exists ps, v = VObj ps.
Proof.
  destruct v; cbn [prop]; try (rewrite getPathL_undef; discriminate).
  intros _. eexists. reflexivity.
Qed.

(** A scalar the source holds at a path is what the merge holds there. *)
Lemma getPathL_mergeInto_source (parts : list string) (source object : Value) :
  isLeaf (getPathL source parts) = true ->
  getPathL (mergeInto source object) parts = getPathL source parts.
Proof.
  revert source object. induction parts as [|k rest IH]; intros source object H.
  - cbn in *. apply mergeInto_leaf. exact H.
  - cbn [getPathL] in *.
    destruct (leaf_needs_object _ _ _ H) as (ps & ->).
    rewrite prop_mergeInto by reflexivity. apply IH. exact H.
Qed.

Lemma mergeable_filterObject (ps : list (string * Value)) (m : Mask) :
  mergeable (filterObject (VObj ps) m) = true.
Proof. destruct m as [[|]|es]; reflexivity. Qed.

(** A scalar of the old document that the object already holds stays in
    place when a filtered copy of the old document is merged in. *)
Lemma getPathL_mergeInto_filtered (parts : list string) (old object : Value)
  (m : Mask) :
  isLeaf (getPathL old parts) = true ->
  getPathL object parts = getPathL old parts ->
  getPathL (mergeInto (filterObject old m) object) parts = getPathL old parts.
Proof.
  revert old object m.
  induction parts as [|k rest IH]; intros old object m Hl Ho.
  - cbn in *. subst object.
    destruct m as [[|]|es].
    + rewrite filterObject_true. apply mergeInto_leaf. exact Hl.
    + rewrite filterObject_false. reflexivity.
    + destruct old; try discriminate; reflexivity.
  - cbn [getPathL] in *.
    destruct (leaf_needs_object _ _ _ Hl) as (ps & ->).
    rewrite prop_mergeInto by apply mergeable_filterObject.
    rewrite prop_filterObject. apply IH; assumption.
Qed.

Lemma getPathL_merge_empty (object : Value) (k : string) (rest : list string) :
  getPathL (mergeInto (VObj []) object) (k :: rest) = getPathL object (k :: rest).
Proof.
  cbn [getPathL]. rewrite prop_mergeInto by reflexivity. reflexivity.
Qed.

(* ================================================================== *)
(** * Computations that leave the store alone *)
(* ================================================================== *)

Lemma logsOnly_store {A : Type} (m : M A) (w : World) :
  logsOnly m -> store (snd (m w)) = store w.
Proof. intros H. destruct (H w) as (evs & ->). reflexivity. Qed.

Lemma logsOnly_ret {A : Type} (a : A) : logsOnly (ret a).
Proof. intros w. exists []. simpl. now rewrite logged_nil. Qed.

Lemma logsOnly_throw {A : Type} (c : ErrorCode) (msg : string) :
  logsOnly (@throw A c msg).
Proof. intros w. exists []. simpl. now rewrite logged_nil. Qed.

Lemma logsOnly_rethrow {A : Type} (e : XError) : logsOnly (@rethrow A e).
Proof. intros w. exists []. simpl. now rewrite logged_nil. Qed.

Lemma logsOnly_lift {A : Type} (o : Outcome A) : logsOnly (lift o).
Proof. intros w. exists []. simpl. now rewrite logged_nil. Qed.

Lemma logsOnly_log (e : Event) : logsOnly (log e).
Proof. intros w. exists [e]. reflexivity. Qed.

Lemma logsOnly_getStore : logsOnly getStore.
Proof. intros w. exists []. simpl. now rewrite logged_nil. Qed.

Lemma logsOnly_bind {A B : Type} (m : M A) (k : A -> M B) :
  logsOnly m -> (forall a, logsOnly (k a)) -> logsOnly (bind m k).
Proof.
  intros Hm Hk w. rewrite bind_run.
  destruct (Hm w) as (evs & E).
  destruct (m w) as [[a|e] w1]; simpl in E; subst w1.
  - destruct (Hk a (logged w evs)) as (evs' & E').
    exists (evs ++ evs')%list. rewrite E'. apply logged_logged.
  - exists evs. reflexivity.
Qed.

Lemma logsOnly_eachSeries {A : Type} (f : A -> M unit) (l : list A) :
  (forall x, logsOnly (f x)) -> logsOnly (eachSeries f l).
Proof.
  intros Hf. induction l as [|x t IH]; simpl.
  - apply logsOnly_ret.
  - apply logsOnly_bind; [apply Hf | intros _; exact IH].
Qed.

Lemma logsOnly_if {A : Type} (b : bool) (m1 m2 : M A) :
  logsOnly m1 -> logsOnly m2 -> logsOnly (if b then m1 else m2).
Proof. destruct b; auto. Qed.

Ltac logsOnly_step :=
  lazymatch goal with
  | |- logsOnly (ret _) => apply logsOnly_ret
  | |- logsOnly (throw _ _) => apply logsOnly_throw
  | |- logsOnly (rethrow _) => apply logsOnly_rethrow
  | |- logsOnly (lift _) => apply logsOnly_lift
  | |- logsOnly getStore => apply logsOnly_getStore
  | |- logsOnly (log _) => apply logsOnly_log
  | |- logsOnly (bind _ _) => apply logsOnly_bind; [|intros ?]
  | |- logsOnly (eachSeries _ _) => apply logsOnly_eachSeries; intros ?
  | |- logsOnly (if _ then _ else _) => apply logsOnly_if
  | |- logsOnly (grantCheck _ _ _) => unfold grantCheck
  | |- logsOnly (grantCheckAll _ _ _) => unfold grantCheckAll
  | |- logsOnly (grantCheckMask _ _ _) => unfold grantCheckMask
  | |- logsOnly (permGetTargetGrant _ _ _) => unfold permGetTargetGrant
  end.

Lemma logsOnly_extractKeys (data : Value) (keyFields : list string) :
  logsOnly (extractKeys data keyFields).
Proof.
  induction keyFields as [|field rest IH]; cbn [extractKeys].
  - apply logsOnly_ret.
  - destruct (getPath data field); try apply logsOnly_throw;
      cbn [isScalar negb]; try apply logsOnly_throw;
      (apply logsOnly_bind; [exact IH | intros; apply logsOnly_ret]).
Qed.

Section PutSteps.

Variable env : Env.
Variable this : ModelAccessWrapper.

Lemma logsOnly_putPrepare (params : Params.t) :
  logsOnly (putPrepare this params).
Proof.
  unfold putPrepare.
  apply logsOnly_bind; [repeat logsOnly_step|intros _].
  apply logsOnly_bind; [apply logsOnly_extractKeys | intros; apply logsOnly_ret].
Qed.

Lemma logsOnly_modelFindOne (q : QuerySpec) : logsOnly (modelFindOne env q).
Proof.
  unfold modelFindOne. repeat logsOnly_step.
  - unfold parseQuery. destruct q; logsOnly_step.
  - match goal with |- logsOnly (match ?l with _ => _ end) => destruct l end;
      logsOnly_step.
Qed.

Lemma logsOnly_checkDiffPermissions (permissions : PermissionSet) (doc : Doc)
  (data : Value) (overwriteProtected : bool) :
  logsOnly (_checkDiffPermissions env this permissions doc data
              overwriteProtected).
Proof. unfold _checkDiffPermissions. repeat logsOnly_step. Qed.

Lemma logsOnly_putCheck (params : Params.t) (doc : Doc) (data : Value) :
  logsOnly (putCheck env this params doc data).
Proof.
  unfold putCheck. destruct (Params.permissions params).
  - apply logsOnly_checkDiffPermissions.
  - apply logsOnly_ret.
Qed.

(** The data [put] works on is the caller's, without the protected fields
    unless [overwriteProtected] is set. *)
Lemma putPrepare_data (params : Params.t) (data : Value)
  (keys : list (string * Value)) (w w' : World) :
  putPrepare this params w = (Resolved (data, keys), w') ->
  data = if hasProtectedFields this && negb (Params.overwriteProtected params)
         then filterObject (Params.data params)
                (subtractMasks (publicPrivateMask this) (protectedMask this))
         else Params.data params.
Proof.
  unfold putPrepare. rewrite bind_run.
  match goal with
  | |- context [match ?m w with _ => _ end] => destruct (m w) as [[[]|e] w1]
  end; [|discriminate].
  rewrite bind_run.
  match goal with
  | |- context [extractKeys ?d ?k w1] =>
      destruct (extractKeys d k w1) as [[ks|e] w2]
  end; [|discriminate].
  cbn [ret]. intros E. injection E as <- _ _. reflexivity.
Qed.

Lemma put_prepared (params p2 : Params.t) (w w2 w3 : World) (data : Value)
  (keys : list (string * Value)) :
  prelude this params "put" "pre-put" w = (Resolved p2, w2) ->
  putPrepare this p2 w2 = (Resolved (data, keys), w3) ->
  put env this params w =
  bind (putDocument env this p2 data keys)
       (fun doc =>
          result <- docSave doc ;;
          if truthy (getData result)
          then ret (map (fun field => (field, getPath (getData result) field))
                        (keyFields this))
          else ret keys) w3.
Proof.
  intros Hpre Hprep. unfold put.
  rewrite (bind_resolved _ Hpre), (bind_resolved _ Hprep). reflexivity.
Qed.

(** [putDocument] when the key lookup finds a document. *)
Lemma putDocument_found (p2 : Params.t) (data : Value)
  (keys : list (string * Value)) (doc : Doc) (w3 w4 : World) :
  modelFindOne env (RawQuery (VObj keys)) w3 = (Resolved doc, w4) ->
  putDocument env this p2 data keys w3 =
  match putCheck env this p2 doc data w4 with
  | (Resolved _, w5) =>
      let merged := mergeExisting this p2 doc data in
      match createUpdate env merged true with
      | Resolved u =>
          if negb (isFullReplace u)
          then putNotFound env this p2 merged operatorsError w5
          else (Resolved (setData doc (applyUpdate u (getData doc))), w5)
      | Rejected e => putNotFound env this p2 merged e w5
      end
  | (Rejected e, w5) => putNotFound env this p2 data e w5
  end.
Proof.
  intros Hf. unfold putDocument, tryThen at 1. rewrite Hf.
  unfold tryThen at 1.
  destruct (putCheck env this p2 doc data w4) as [[[]|e] w5]; [|reflexivity].
  unfold tryThen, lift.
  destruct (createUpdate env (mergeExisting this p2 doc data) true) as [u|e];
    [|reflexivity].
  destruct (isFullReplace u); reflexivity.
Qed.

Lemma putNotFound_other (p2 : Params.t) (data : Value) (e : XError) (w : World) :
  codeEqb (code e) NOT_FOUND = false ->
  putNotFound env this p2 data e w = (Rejected e, w).
Proof. intros H. unfold putNotFound. rewrite H. reflexivity. Qed.

End PutSteps.

(* ================================================================== *)
(** * Writing one document: put *)
(* ================================================================== *)




(** ** What the merge keeps *)

Lemma leaf_truthy_object (v : Value) (k : string) (rest : list string) :
  isLeaf (getPathL v (k :: rest)) = true -> orEmptyObject v = v.
Proof.
  intros H. destruct (leaf_needs_object _ _ _ H) as (ps & ->). reflexivity.
Qed.

Lemma merge_source_leaf (old object : Value) (m : Mask) (k : string)
  (rest : list string) :
  isLeaf (getPathL (filterObject old m) (k :: rest)) = true ->
  getPathL (merge object (orEmptyObject (filterObject old m))) (k :: rest)
  = getPathL (filterObject old m) (k :: rest).
Proof.
  intros H. rewrite (leaf_truthy_object _ _ _ H). unfold merge.
  apply getPathL_mergeInto_source. exact H.
Qed.

Lemma merge_filtered_keeps (old object : Value) (m : Mask) (k : string)
  (rest : list string) :
  isLeaf (getPathL old (k :: rest)) = true ->
  getPathL object (k :: rest) = getPathL old (k :: rest) ->
  getPathL (merge object (orEmptyObject (filterObject old m))) (k :: rest)
  = getPathL old (k :: rest).
Proof.
  intros Hl Ho. unfold merge.
  destruct (leaf_needs_object _ _ _ Hl) as (ps & ->).
  destruct m as [[|]|es].
  - rewrite filterObject_true. cbn [orEmptyObject truthy].
    rewrite <- (filterObject_true (VObj ps)) at 1.
    apply getPathL_mergeInto_filtered; assumption.
  - rewrite filterObject_false. cbn [orEmptyObject truthy].
    rewrite getPathL_merge_empty. exact Ho.
  - assert (E : orEmptyObject (filterObject (VObj ps) (MObj es))
                = filterObject (VObj ps) (MObj es)).
    { rewrite filterObject_obj. reflexivity. }
    rewrite E. apply getPathL_mergeInto_filtered; assumption.
Qed.

(** A scalar held by the existing document's private or protected part is
    held by the merged data at the same path. *)
Lemma mergeExisting_keeps (this : ModelAccessWrapper) (params : Params.t)
  (doc : Doc) (data : Value) (path : string) (v : Value) :
  isLeaf v = true ->
  (hasPrivateFields this && negb (Params.allowPrivateFields params) = true ->
   getPath (filterObject (getData doc) (privateMask this)) path = v ->
   getPath (mergeExisting this params doc data) path = v) /\
  (hasProtectedFields this && negb (Params.overwriteProtected params) = true ->
   getPath (filterObject (getData doc) (protectedMask this)) path = v ->
   getPath (mergeExisting this params doc data) path = v).
Proof.
  intros Hv. unfold getPath, mergeExisting.
  destruct (splitPath_cons path) as (k & rest & ->).
  split.
  - intros Hflag Hpriv. rewrite Hflag.
    assert (H1 : getPathL (merge data (orEmptyObject
                    (filterObject (getData doc) (privateMask this)))) (k :: rest) = v).
    { rewrite merge_source_leaf; rewrite Hpriv; [reflexivity | exact Hv]. }
    destruct (hasProtectedFields this && negb (Params.overwriteProtected params));
      [|exact H1].
    assert (Hold : getPathL (getData doc) (k :: rest) = v).
    { rewrite getPathL_filterObject in Hpriv.
      apply (filterObject_scalar _ _ _ Hpriv).
      - unfold isLeaf in Hv. apply andb_prop in Hv. apply Hv.
      - intros ->. discriminate. }
    rewrite merge_filtered_keeps; rewrite Hold; [reflexivity | exact Hv | exact H1].
  - intros Hflag Hprot. rewrite Hflag.
    rewrite merge_source_leaf; rewrite Hprot; [reflexivity | exact Hv].
Qed.

(** ** Which grant keys the diff check asks for *)

Lemma emits_eachSeries_in {A : Type} (P : Event -> Prop) (f : A -> M unit)
  (l : list A) :
  (forall x, In x l -> emits P (f x)) -> emits P (eachSeries f l).
Proof.
  induction l as [|x t IH]; intros Hf; simpl.
  - apply emits_ret.
  - apply emits_bind; [apply Hf; left; reflexivity|].
    intros _. apply IH. intros y Hy. apply Hf. right. exact Hy.
Qed.

Lemma pullAll_In (l xs : list string) (x : string) :
  In x (pullAll l xs) <-> In x l /\ ~ In x xs.
Proof.
  unfold pullAll. rewrite filter_In. split; intros [H1 H2]; split; auto.
  - intros Hin. apply memStr_In in Hin. rewrite Hin in H2. discriminate.
  - apply negb_true_iff. apply not_true_is_false. intros E.
    apply memStr_In in E. contradiction.
Qed.


Section DiffCheck.

Variable env : Env.
Variable this : ModelAccessWrapper.

(** Without [overwriteProtected], on a model with protected fields, the
    diff check never asks the grant for the write mask of a protected
    field. *)
Lemma checkDiff_spares_protected (permissions : PermissionSet) (doc : Doc)
  (data : Value) :
  hasProtectedFields this = true ->
  emits (notChargedFor (protectedFields this))
        (_checkDiffPermissions env this permissions doc data false).
Proof.
  intros Hp. unfold _checkDiffPermissions. rewrite Hp.
  apply emits_bind.
  { apply emits_permGetTargetGrant. intros f _. discriminate. }
  intros grant. apply emits_bind; [apply emits_lift|]. intros u.
  destruct (existsb (fun field => negb (isUndef (getPath data field)))
              (protectedFields this)).
  - intros w. exists []. cbn. rewrite app_nil_r. auto.
  - change (emits (notChargedFor (protectedFields this))
              (grantCheck grant "write" "" ;;;
               grantCheckAll grant
                 (pullAll (pull (getUpdatedFields u) "_id") (protectedFields this))
                 "writeMask.")).
    apply emits_bind.
    { apply emits_grantCheck. intros f _ H. discriminate H. }
    intros _. unfold grantCheckAll. apply emits_eachSeries_in.
    intros x Hx. apply emits_grantCheck. intros f Hf E.
    injection E as E. apply pullAll_In in Hx. destruct Hx as [_ Hx].
    apply Hx. subst x. exact Hf.
Qed.

End DiffCheck.

(** C1, as stated, fails: Lightning's stored document holds the private
    field [ssn]; a caller who may write every public field replaces the
    document without mentioning [ssn].  Had the private fields been merged
    back before the diff, only [age] would count as changed, which the
    grant covers; the call is nevertheless rejected for [writeMask.ssn]. *)
Lemma put_charges_omitted_private_field :
  let p := Ref.withData (Ref.params Ref.publicWriter) Ref.olderLightning in
  let p2 := Ref.preprocessed Ref.wrapper p in
  let doc := Ref.resolvedOr Ref.noDoc (Ref.lookedUp Ref.env Ref.wrapper p) in
  let merged := mergeExisting Ref.wrapper p2 doc Ref.olderLightning in
  let grant := getTargetGrant Ref.publicWriter "Animal" Ref.olderLightning in
  getPath Ref.olderLightning "ssn" = VUndef /\
  checkPath (privateMask Ref.wrapper) "ssn" = true /\
  getPath (getData doc) "ssn" = VStr "123-123-1234" /\
  getUpdatedFields (Ref.parsedUpdate (Ref.createFromDiff (getData doc) merged))
    = ["age"] /\
  passes (checkKey grant "write") = true /\
  passes (checkKey grant "writeMask.age") = true /\
  fst (put Ref.env Ref.wrapper p Ref.world0)
    = Rejected (mkXError ACCESS_DENIED "Access denied: writeMask.ssn").
Proof. vm_compute. repeat split; reflexivity. Qed.

(** C1 (amended): in put, when an existing document is found by key, the
    write authorization comes first and is computed from the diff between
    the existing document and the incoming data as it is then, not yet
    merged: its rejection is the call's rejection, and without
    [overwriteProtected] it never asks for the write mask of a protected
    field.  Only after it has passed are the existing document's private
    fields (when the model has private fields and [allowPrivateFields] is
    not set) and protected fields (when the model has protected fields and
    [overwriteProtected] is not set) merged onto the data, from which the
    replacing update is parsed; every scalar the existing document holds in
    those fields is held by the merged data, so a caller who omits those
    fields cannot erase them. *)
Theorem put_merges_after_authorization (env : Env) (this : ModelAccessWrapper)
  (params p2 : Params.t) (w w2 w3 w4 : World) (data : Value)
  (keys : list (string * Value)) (doc : Doc) :
  prelude this params "put" "pre-put" w = (Resolved p2, w2) ->
  putPrepare this p2 w2 = (Resolved (data, keys), w3) ->
  modelFindOne env (RawQuery (VObj keys)) w3 = (Resolved doc, w4) ->
  let check := putCheck env this p2 doc data w4 in
  let merged := mergeExisting this p2 doc data in
  (forall err,
      fst check = Rejected err -> codeEqb (code err) NOT_FOUND = false ->
      put env this params w = (Rejected err, snd check)) /\
  (hasProtectedFields this = true -> Params.overwriteProtected p2 = false ->
   Forall (notChargedFor (protectedFields this)) (eventsSince w4 check)) /\
  (forall u,
      fst check = Resolved tt ->
      createUpdate env merged true = Resolved u -> isFullReplace u = true ->
      exists ks,
        put env this params w =
        (Resolved ks,
         snd (docSave (setData doc (applyUpdate u (getData doc))) (snd check)))) /\
  (forall path v,
      isLeaf v = true ->
      (hasPrivateFields this && negb (Params.allowPrivateFields p2) = true ->
       getPath (filterObject (getData doc) (privateMask this)) path = v ->
       getPath merged path = v) /\
      (hasProtectedFields this && negb (Params.overwriteProtected p2) = true ->
       getPath (filterObject (getData doc) (protectedMask this)) path = v ->
       getPath merged path = v)).
Proof.
  intros Hpre Hprep Hfind check merged.
  pose proof (put_prepared env this params p2 w w2 w3 data keys Hpre Hprep)
    as Hput.
  pose proof (putDocument_found env this p2 data keys doc w3 w4 Hfind) as Hdoc.
  fold check in Hdoc.
  split; [|split; [|split]].
  - intros err Hc Hcode. rewrite Hput. apply bind_rejected. rewrite Hdoc.
    destruct check as [o w5]. cbn [fst snd] in *. subst o.
    apply putNotFound_other. exact Hcode.
  - intros Hp Ho. subst check. unfold putCheck. rewrite Ho.
    apply eventsSince_emits.
    destruct (Params.permissions p2); [|apply emits_ret].
    apply checkDiff_spares_protected. exact Hp.
  - intros u Hc Hu Hfull. rewrite Hput, bind_run, Hdoc.
    destruct check as [o w5]. cbn [fst snd] in *. subst o.
    cbv zeta. fold merged. rewrite Hu, Hfull. cbn [negb].
    rewrite bind_run.
    destruct (docSave_resolves (setData doc (applyUpdate u (getData doc))) w5)
      as (d' & Hs).
    destruct (docSave (setData doc (applyUpdate u (getData doc))) w5)
      as [o w6]. cbn [fst snd] in *. subst o.
    destruct (truthy (getData d')); eexists; reflexivity.
  - intros path v Hv. apply mergeExisting_keeps. exact Hv.
Qed.

Lemma put_merges_after_authorization_witness :
  let p := Ref.withData (Ref.params Ref.everything) Ref.olderLightning in
  let p2 := Ref.preprocessed Ref.wrapper p in
  let doc := Ref.resolvedOr Ref.noDoc (Ref.lookedUp Ref.env Ref.wrapper p) in
  getPath (mergeExisting Ref.wrapper p2 doc Ref.olderLightning) "ssn"
    = VStr "123-123-1234".
Proof.
  intros p p2 doc.
  assert (Hpre : prelude Ref.wrapper p "put" "pre-put" Ref.world0
                 = (Resolved p2, Ref.world0)) by (vm_compute; reflexivity).
  assert (Hprep : putPrepare Ref.wrapper p2 Ref.world0
                  = (Resolved (Ref.olderLightning,
                               snd (fst (Ref.prepared Ref.wrapper p))),
                     snd (Ref.prepared Ref.wrapper p)))
    by (vm_compute; reflexivity).
  assert (Hfind : modelFindOne Ref.env
                    (RawQuery (VObj (snd (fst (Ref.prepared Ref.wrapper p)))))
                    (snd (Ref.prepared Ref.wrapper p))
                  = (Resolved doc, snd (Ref.lookedUp Ref.env Ref.wrapper p)))
    by (vm_compute; reflexivity).
  destruct (put_merges_after_authorization Ref.env Ref.wrapper p p2
              Ref.world0 Ref.world0 _ _ _ _ _ Hpre Hprep Hfind)
    as (_ & _ & _ & Hkeep).
  apply (proj1 (Hkeep "ssn" (VStr "123-123-1234") eq_refl));
    vm_compute; reflexivity.
Defined.

(** ** Creating a document *)

Lemma instanceOf_fields (env : Env) (options : Options.t) (h : CrispHooks)
  (this : ModelAccessWrapper) :
  instanceOf env options h this ->
  publicPrivateMask this = MObj [("_", MBool true)] /\
  (forall field, In field (protectedFields this) ->
                 checkPath (protectedMask this) field = true) /\
  (forall field, In field (protectedFields this) ->
                 hasProtectedFields this = true).
Proof.
  intros (this0 & Hc & ->).
  apply constructor_fields in Hc. cbv zeta in Hc.
  destruct Hc as (_ & _ & Hu & _ & Hmask & Hf & Hh & _).
  cbn [withHooks publicPrivateMask protectedFields protectedMask
       hasProtectedFields].
  destruct (classify_protected
              (traverseSchema (schema (Options.model options)))
              (mkClassification false false (MObj []) (MObj []) []))
    as (F & K & H).
  fold (classify (schema (Options.model options))) in F, K, H.
  cbn [cProtectedFields cProtectedMask cHasProtectedFields app orb] in F, K, H.
  rewrite Hf, Hmask, Hh, F, K, H.
  split; [exact Hu|]. split.
  - intros field Hfield. apply addFields_includes. left. exact Hfield.
  - intros field Hfield.
    destruct (protectedPaths (traverseSchema (schema (Options.model options))));
      [contradiction | reflexivity].
Qed.

Lemma existsb_none {A : Type} (f : A -> bool) (l : list A) :
  (forall x, In x l -> f x = false) -> existsb f l = false.
Proof.
  intros H. apply not_true_is_false. intros E.
  apply existsb_exists in E. destruct E as (x & Hx & Hfx).
  rewrite (H x Hx) in Hfx. discriminate.
Qed.

Section Create.

Variable env : Env.
Variable this : ModelAccessWrapper.



End Create.




(* ================================================================== *)
(** * Properties of the read operations *)
(* ================================================================== *)

Lemma preprocess_no_permissions (this : ModelAccessWrapper)
  (params p1 : Params.t) (method : string) (w w1 : World) :
  allowNoPermissions this = false ->
  triggerSync (hooks this) "preprocess-params" params method w
    = (Resolved p1, w1) ->
  Params.permissions p1 = None ->
  _preprocessParams this params method w = (Rejected noPermissions, w1).
Proof.
  intros Hallow Hhook Hperm. unfold _preprocessParams.
  rewrite (bind_resolved _ Hhook), Hperm, Hallow. reflexivity.
Qed.

Lemma prelude_no_permissions (this : ModelAccessWrapper)
  (params p1 : Params.t) (method hook : string) (w w1 : World) :
  allowNoPermissions this = false ->
  triggerSync (hooks this) "preprocess-params" params method w
    = (Resolved p1, w1) ->
  Params.permissions p1 = None ->
  prelude this params method hook w = (Rejected noPermissions, w1).
Proof.
  intros Hallow Hhook Hperm. unfold prelude.
  apply bind_rejected.
  apply (preprocess_no_permissions this params p1 method w w1); assumption.
Qed.

(** Without [allowNoPermissions], a call whose parameters carry no
    permissions once the [preprocess-params] hook has run is rejected with
    INVALID_ARGUMENT by every operation, in the world the hook left: no
    pre-hook runs, and neither the permissions nor the store are asked
    anything. *)
Theorem operations_require_permissions (env : Env) (this : ModelAccessWrapper)
  (createAggregate : Value -> Outcome Aggregate)
  (modelAggregateMulti : Query -> list (string * Aggregate) -> M Value)
  (params p1 : Params.t) (w w1 : World) :
  allowNoPermissions this = false ->
  (forall method,
      triggerSync (hooks this) "preprocess-params" params method w
        = (Resolved p1, w1)) ->
  Params.permissions p1 = None ->
  (forall keys, get env this params keys w = (Rejected noPermissions, w1)) /\
  query env this params w = (Rejected noPermissions, w1) /\
  stream env this params w = (Rejected noPermissions, w1) /\
  count env this params w = (Rejected noPermissions, w1) /\
  (forall aggregates,
      aggregateMulti env this createAggregate modelAggregateMulti params
        aggregates w = (Rejected noPermissions, w1)) /\
  put env this params w = (Rejected noPermissions, w1) /\
  upsert env this params w = (Rejected noPermissions, w1) /\
  update env this params w = (Rejected noPermissions, w1) /\
  remove env this params w = (Rejected noPermissions, w1).
Proof.
  intros Hallow Hhook Hperm.
  assert (Hpre : forall method hook,
             prelude this params method hook w = (Rejected noPermissions, w1)).
  { intros method hook.
    apply (prelude_no_permissions this params p1); auto. }
  split.
  { intros keys. unfold get. apply bind_rejected.
    apply (preprocess_no_permissions this params p1); auto. }
  repeat split; intros;
    unfold query, queryDocuments, stream, count, aggregateMulti, put,
      upsert, update, remove;
    repeat first [apply Hpre | apply bind_rejected].
Qed.

Lemma operations_require_permissions_witness :
  fst (put Ref.env Ref.wrapper Fixtures.anonymous Ref.world0)
    = Rejected noPermissions /\
  get Ref.env Ref.wrapper Fixtures.anonymous (Some [("id", VStr "foo")]) Ref.world0
    = (Rejected noPermissions, Ref.world0).
Proof.
  destruct (operations_require_permissions Ref.env Ref.wrapper
              Fixtures.createAggregate Fixtures.aggregateMulti
              Fixtures.anonymous Fixtures.anonymous Ref.world0 Ref.world0)
    as (Hget & _ & _ & _ & _ & Hput & _).
  - reflexivity.
  - intros method. reflexivity.
  - reflexivity.
  - split; [rewrite Hput; reflexivity | apply Hget].
Defined.

(** ** Parameter preprocessing *)

Lemma uniq_In (x : string) (l seen : list string) :
  In x (uniq seen l) <-> In x l /\ ~ In x seen.
Proof.
  revert seen. induction l as [|y t IH]; intros seen; simpl.
  - tauto.
  - destruct (memStr y seen) eqn:E.
    + apply memStr_In in E. rewrite IH. split.
      * intros [H1 H2]. auto.
      * intros [[->|H1] H2]; [contradiction | auto].
    + assert (Hy : ~ In y seen)
        by (intros H; apply memStr_In in H; congruence).
      simpl. rewrite IH. simpl. split.
      * intros [->|[H1 H2]]; [auto | split; [auto | tauto]].
      * intros [[->|H1] H2]; [auto|].
        destruct (string_dec y x) as [->|Hne]; [auto|].
        right. split; [exact H1 | intros [?|?]; [contradiction | contradiction]].
Qed.

Lemma uniq_NoDup (l seen : list string) : NoDup (uniq seen l).
Proof.
  revert seen. induction l as [|y t IH]; intros seen; simpl.
  - constructor.
  - destruct (memStr y seen); [apply IH|].
    constructor; [|apply IH].
    rewrite uniq_In. simpl. tauto.
Qed.

Lemma union_In (x : string) (ls : list (list string)) :
  In x (union ls) <-> exists l, In l ls /\ In x l.
Proof.
  unfold union. rewrite uniq_In, in_concat. simpl. tauto.
Qed.

Lemma union_NoDup (ls : list (list string)) : NoDup (union ls).
Proof. apply uniq_NoDup. Qed.

(** When the caller names the fields to return and no [requestFields],
    [_preprocessParams] asks the store for the requested fields, the extra
    fields and the fields the permissions need, each once, and keeps the
    caller's own list as the list the result is filtered by (unless a
    filter list was already set).  Permissions, query, update, data and
    the two privilege flags are what the [preprocess-params] hook left. *)
Theorem preprocess_requests_needed_fields (this : ModelAccessWrapper)
  (params p1 p2 : Params.t) (method : string) (w w1 w2 : World)
  (fs : list string) :
  triggerSync (hooks this) "preprocess-params" params method w
    = (Resolved p1, w1) ->
  _preprocessParams this params method w = (Resolved p2, w2) ->
  Params.fields p1 = Some fs ->
  Params.requestFields p1 = None ->
  w2 = w1 /\
  (exists rs,
      Params.fields p2 = Some rs /\ Params.requestFields p2 = Some rs /\
      NoDup rs /\
      forall f, In f rs <->
                In f fs \/ In f (orNil (Params.extraFields p1))
                \/ In f (permissionFields p1)) /\
  Params.filterFields p2 =
    Some (match Params.filterFields p1 with Some ff => ff | None => fs end) /\
  Params.permissions p2 = Params.permissions p1 /\
  Params.query p2 = Params.query p1 /\
  Params.update p2 = Params.update p1 /\
  Params.data p2 = Params.data p1 /\
  Params.allowPrivateFields p2 = Params.allowPrivateFields p1 /\
  Params.overwriteProtected p2 = Params.overwriteProtected p1.
Proof.
  intros Hhook Hpre Hfs Hrs. unfold _preprocessParams in Hpre.
  rewrite (bind_resolved _ Hhook) in Hpre.
  destruct (negb (isSome (Params.permissions p1)) && negb (allowNoPermissions this));
    [discriminate|].
  rewrite Hfs, Hrs in Hpre. cbn [isSome negb andb orNil] in Hpre.
  fold (permissionFields p1) in Hpre.
  set (rs := union [fs; orNil (Params.extraFields p1); permissionFields p1]) in Hpre.
  assert (Hin : forall f, In f rs <->
                  In f fs \/ In f (orNil (Params.extraFields p1))
                  \/ In f (permissionFields p1)).
  { intros f. subst rs. rewrite union_In. split.
    - intros (l & [<-|[<-|[<-|[]]]] & Hf); auto.
    - intros [H|[H|H]]; eexists; (split; [|exact H]); simpl; auto. }
  assert (Hnd : NoDup rs) by apply union_NoDup.
  clearbody rs.
  destruct p1 as [perms fields extra request filter skipF skipP mask fF fP
                  allowP overP q u d].
  cbn in Hfs, Hrs, Hin. subst fields request.
  destruct filter as [ff|], skipF, perms as [perms|], skipP;
    cbn in Hpre; injection Hpre as <- <-; cbn;
    (split; [reflexivity|]);
    (split; [exists rs; auto|]); repeat split.
Qed.

Lemma preprocess_requests_needed_fields_witness :
  let p := Params.mk (Some Ref.singleDoc) (Some ["age"])
             (Some ["animalType"; "age"])
             None None false false None None None false false
             (VObj []) VUndef VUndef in
  exists p2,
    fst (_preprocessParams Ref.wrapper p "query" Ref.world0) = Resolved p2 /\
    Params.fields p2 = Some ["age"; "animalType"] /\
    Params.filterFields p2 = Some ["age"].
Proof.
  intros p.
  set (r := _preprocessParams Ref.wrapper p "query" Ref.world0).
  set (p2 := Ref.resolvedOr p r).
  assert (Hr : r = (Resolved p2, Ref.world0)) by reflexivity.
  destruct (preprocess_requests_needed_fields Ref.wrapper p p p2 "query"
              Ref.world0 Ref.world0 Ref.world0 ["age"]
              eq_refl Hr eq_refl eq_refl)
    as (_ & (rs & Hfields & _) & Hfilter & _).
  exists p2. split; [reflexivity|]. split; [reflexivity | exact Hfilter].
Defined.

(** ** get *)

Section Get.

Variable env : Env.
Variable this : ModelAccessWrapper.

Lemma checkGivenKeys_run (keys : list (string * Value)) (names : list string)
  (w : World) :
  let ok := fun field =>
    includes (keyFields this) field
    && isScalar (prop (VObj keys) field)
    && negb (isNil (prop (VObj keys) field)) in
  if forallb ok names
  then checkGivenKeys this keys names w = (Resolved tt, w)
  else exists e, checkGivenKeys this keys names w = (Rejected e, w)
                 /\ code e = INVALID_ARGUMENT.
Proof.
  intros ok. induction names as [|field rest IH]; [reflexivity|].
  cbn [forallb checkGivenKeys]. unfold ok at 1.
  destruct (includes (keyFields this) field); cbn [negb andb];
    [|eexists; split; reflexivity].
  destruct (isScalar (prop (VObj keys) field)); cbn [negb andb orb];
    [|eexists; split; reflexivity].
  destruct (isNil (prop (VObj keys) field)); cbn [negb];
    [eexists; split; reflexivity | exact IH].
Qed.

Lemma checkKeyFields_run (keys : list (string * Value)) (fields : list string)
  (w : World) :
  if forallb (fun field => negb (isUndef (prop (VObj keys) field))) fields
  then checkKeyFields keys fields w = (Resolved tt, w)
  else exists e, checkKeyFields keys fields w = (Rejected e, w)
                 /\ code e = INVALID_ARGUMENT.
Proof.
  induction fields as [|field rest IH]; [reflexivity|].
  cbn [forallb checkKeyFields].
  destruct (isUndef (prop (VObj keys) field)); cbn [negb andb];
    [eexists; split; reflexivity | exact IH].
Qed.

Lemma get_preprocessed (params p1 : Params.t)
  (keys : option (list (string * Value))) (w w1 : World) :
  _preprocessParams this params "get" w = (Resolved p1, w1) ->
  get env this params keys w =
  bind (checkGivenKeys this (givenKeys keys) (map fst (givenKeys keys)))
    (fun _ =>
       checkKeyFields (givenKeys keys) (keyFields this) ;;;
       params <- trigger (hooks this) "pre-get" p1 ;;
       doc <- modelFindOne env (RawQuery (VObj (givenKeys keys))) ;;
       prepareResultObject this doc params) w1.
Proof.
  intros Hpre. unfold get. rewrite (bind_resolved _ Hpre). reflexivity.
Qed.

End Get.

(** [get] looks a document up exactly when the keys it is given are the
    key fields, each with a scalar that is neither [null] nor [undefined].
    Otherwise it is rejected with INVALID_ARGUMENT in the world parameter
    preprocessing left: the [pre-get] hook has not run and the store has
    not been asked. *)
Theorem get_validates_keys (env : Env) (this : ModelAccessWrapper)
  (params p1 : Params.t) (keys : option (list (string * Value)))
  (w w1 : World) :
  _preprocessParams this params "get" w = (Resolved p1, w1) ->
  if validKeys (keyFields this) (givenKeys keys)
  then get env this params keys w =
       bind (trigger (hooks this) "pre-get" p1)
         (fun params =>
            doc <- modelFindOne env (RawQuery (VObj (givenKeys keys))) ;;
            prepareResultObject this doc params) w1
  else exists e, get env this params keys w = (Rejected e, w1)
                 /\ code e = INVALID_ARGUMENT.
Proof.
  intros Hpre. rewrite (get_preprocessed env this params p1 keys w w1 Hpre).
  unfold validKeys.
  pose proof (checkGivenKeys_run this (givenKeys keys)
                (map fst (givenKeys keys)) w1) as Hgiven.
  cbv zeta in Hgiven.
  destruct (forallb _ (map fst (givenKeys keys))); cbn [andb].
  - rewrite (bind_resolved _ Hgiven).
    pose proof (checkKeyFields_run (givenKeys keys) (keyFields this) w1)
      as Hfields.
    destruct (forallb _ (keyFields this)).
    + rewrite (bind_resolved _ Hfields). reflexivity.
    + destruct Hfields as (e & Hfields & Hcode). exists e.
      rewrite (bind_rejected _ Hfields). auto.
  - destruct Hgiven as (e & Hgiven & Hcode). exists e.
    rewrite (bind_rejected _ Hgiven). auto.
Qed.

Lemma get_validates_keys_witness :
  let p := Ref.params Ref.everything in
  (exists e,
      get Ref.env Ref.wrapper p (Some [("name", VStr "Toby")]) Ref.world0
        = (Rejected e, Ref.world0) /\ code e = INVALID_ARGUMENT) /\
  option_map resultData
    (Ref.resolvedOr None
       (get Ref.env Ref.wrapper p (Some [("id", VStr "foo")]) Ref.world0))
    = Some (Ref.animalCreate (Ref.animal "foo" "cat" "Toby" 5 [])).
Proof.
  intros p.
  set (r := _preprocessParams Ref.wrapper p "get" Ref.world0).
  assert (Hr : r = (Resolved (Ref.resolvedOr p r), Ref.world0)) by reflexivity.
  split.
  - pose proof (get_validates_keys Ref.env Ref.wrapper p _
                  (Some [("name", VStr "Toby")]) _ _ Hr) as H.
    change (validKeys (keyFields Ref.wrapper)
              (givenKeys (Some [("name", VStr "Toby")]))) with false in H.
    exact H.
  - pose proof (get_validates_keys Ref.env Ref.wrapper p _
                  (Some [("id", VStr "foo")]) _ _ Hr) as H.
    change (validKeys (keyFields Ref.wrapper)
              (givenKeys (Some [("id", VStr "foo")]))) with true in H.
    cbv iota in H. rewrite H. vm_compute. reflexivity.
Defined.

(** ** Reading never writes *)

Lemma logsOnly_catch {A : Type} (m : M A) (handler : XError -> M A) :
  logsOnly m -> (forall e, logsOnly (handler e)) -> logsOnly (catch m handler).
Proof.
  intros Hm Hh w. unfold catch.
  destruct (Hm w) as (evs & E).
  destruct (m w) as [[a|e] w1]; simpl in E; subst w1.
  - exists evs. reflexivity.
  - destruct (Hh e (logged w evs)) as (evs' & E').
    exists (evs ++ evs')%list. rewrite E'. apply logged_logged.
Qed.

Lemma logsOnly_mapSeries {A B : Type} (f : A -> M B) (l : list A) :
  (forall x, logsOnly (f x)) -> logsOnly (mapSeries f l).
Proof.
  intros Hf. induction l as [|x t IH]; simpl.
  - apply logsOnly_ret.
  - apply logsOnly_bind; [apply Hf | intros y].
    apply logsOnly_bind; [exact IH | intros ys; apply logsOnly_ret].
Qed.

Lemma logsOnly_permCheckExecuteQuery (p : PermissionSet) (target : string)
  (q : QuerySpec) (caps : list string) :
  logsOnly (permCheckExecuteQuery p target q caps).
Proof. unfold permCheckExecuteQuery. repeat logsOnly_step. Qed.

Lemma logsOnly_parseQuery (env : Env) (q : QuerySpec) :
  logsOnly (parseQuery env q).
Proof. destruct q; simpl; logsOnly_step. Qed.

Lemma logsOnly_modelFind (env : Env) (q : QuerySpec) :
  logsOnly (modelFind env q).
Proof.
  unfold modelFind. repeat logsOnly_step. apply logsOnly_parseQuery.
Qed.

Lemma logsOnly_modelFindStream (env : Env) (q : QuerySpec) :
  logsOnly (modelFindStream env q).
Proof.
  unfold modelFindStream. repeat logsOnly_step. apply logsOnly_parseQuery.
Qed.

Lemma logsOnly_modelCount (env : Env) (q : QuerySpec) :
  logsOnly (modelCount env q).
Proof.
  unfold modelCount. repeat logsOnly_step. apply logsOnly_parseQuery.
Qed.

Section Quiet.

Variable env : Env.
Variable this : ModelAccessWrapper.
Hypothesis Hquiet : quiet this.

Lemma logsOnly_preprocessParams (params : Params.t) (method : string) :
  logsOnly (_preprocessParams this params method).
Proof.
  unfold _preprocessParams.
  apply logsOnly_bind; [apply Hquiet | intros p].
  apply logsOnly_if; [apply logsOnly_throw | apply logsOnly_ret].
Qed.

Lemma logsOnly_prelude (params : Params.t) (method hook : string) :
  logsOnly (prelude this params method hook).
Proof.
  unfold prelude.
  apply logsOnly_bind; [apply logsOnly_preprocessParams | intros p].
  apply Hquiet.
Qed.

Lemma logsOnly_prepareResultObject (doc : Doc) (params : Params.t) :
  logsOnly (prepareResultObject this doc params).
Proof.
  unfold prepareResultObject, serializeDocument.
  apply logsOnly_bind.
  { apply logsOnly_bind; [repeat logsOnly_step | intros d].
    apply logsOnly_bind; [apply Hquiet | intros v; apply logsOnly_ret]. }
  intros [d data]. apply logsOnly_if; [apply logsOnly_ret|].
  apply logsOnly_bind.
  { destruct (Params.filterPermissionsFunc params); repeat logsOnly_step. }
  intros data1. apply logsOnly_bind; [|intros; apply logsOnly_ret].
  destruct (Params.filterFieldsFunc params); repeat logsOnly_step.
Qed.

Lemma logsOnly_authorizeRead (params : Params.t) (cap : string) :
  logsOnly (authorizeRead this params cap).
Proof.
  unfold authorizeRead. apply logsOnly_bind.
  - destruct (Params.permissions params);
      [apply logsOnly_permCheckExecuteQuery | apply logsOnly_ret].
  - intros _. apply logsOnly_if;
      [apply logsOnly_permCheckExecuteQuery | apply logsOnly_ret].
Qed.

Lemma logsOnly_checkGivenKeys (keys : list (string * Value))
  (names : list string) : logsOnly (checkGivenKeys this keys names).
Proof.
  induction names as [|field rest IH]; simpl; repeat logsOnly_step.
  exact IH.
Qed.

Lemma logsOnly_checkKeyFields (keys : list (string * Value))
  (fields : list string) : logsOnly (checkKeyFields keys fields).
Proof.
  induction fields as [|field rest IH]; simpl; repeat logsOnly_step.
  exact IH.
Qed.

Lemma logsOnly_get (params : Params.t) (keys : option (list (string * Value))) :
  logsOnly (get env this params keys).
Proof.
  unfold get.
  apply logsOnly_bind; [apply logsOnly_preprocessParams | intros p].
  apply logsOnly_bind; [apply logsOnly_checkGivenKeys | intros _].
  apply logsOnly_bind; [apply logsOnly_checkKeyFields | intros _].
  apply logsOnly_bind; [apply Hquiet | intros p'].
  apply logsOnly_bind; [apply logsOnly_modelFindOne | intros doc].
  apply logsOnly_prepareResultObject.
Qed.

Lemma logsOnly_query (params : Params.t) : logsOnly (query env this params).
Proof.
  unfold query, queryDocuments.
  apply logsOnly_bind.
  { apply logsOnly_bind; [apply logsOnly_prelude | intros p].
    pose proof (logsOnly_authorizeRead p "query") as Hauth.
    unfold authorizeRead in Hauth.
    apply logsOnly_bind.
    { destruct (Params.permissions p);
        [apply logsOnly_permCheckExecuteQuery | apply logsOnly_ret]. }
    intros _. apply logsOnly_bind.
    { apply logsOnly_if;
        [apply logsOnly_permCheckExecuteQuery | apply logsOnly_ret]. }
    intros _. apply logsOnly_bind; [apply logsOnly_modelFind | intros docs].
    apply logsOnly_ret. }
  intros [p docs]. unfold queryResults. cbn [fst snd].
  apply logsOnly_bind.
  - apply logsOnly_mapSeries. intros d. unfold prepareOrNull.
    apply logsOnly_catch.
    + apply logsOnly_bind; [apply logsOnly_prepareResultObject|].
      intros r. apply logsOnly_ret.
    + intros e. apply logsOnly_if; [apply logsOnly_ret | apply logsOnly_rethrow].
  - intros rs. apply logsOnly_if; [apply logsOnly_throw | apply logsOnly_ret].
Qed.

Lemma logsOnly_stream (params : Params.t) : logsOnly (stream env this params).
Proof.
  unfold stream.
  apply logsOnly_bind; [apply logsOnly_prelude | intros p].
  apply logsOnly_bind; [apply logsOnly_authorizeRead | intros _].
  apply logsOnly_bind; [apply logsOnly_modelFindStream | intros docs].
  unfold streamResults.
  apply logsOnly_bind; [|intros rs; apply logsOnly_ret].
  apply logsOnly_mapSeries. intros d. unfold streamItem.
  apply logsOnly_catch; [apply logsOnly_prepareResultObject|].
  intros e. apply logsOnly_if; [apply logsOnly_ret | apply logsOnly_rethrow].
Qed.

Lemma logsOnly_count (params : Params.t) : logsOnly (count env this params).
Proof.
  unfold count.
  apply logsOnly_bind; [apply logsOnly_prelude | intros p].
  apply logsOnly_bind; [apply logsOnly_authorizeRead | intros _].
  apply logsOnly_modelCount.
Qed.

End Quiet.

Lemma logsOnly_aggregateMulti (env : Env) (this : ModelAccessWrapper)
  (createAggregate : Value -> Outcome Aggregate)
  (modelAggregateMulti : Query -> list (string * Aggregate) -> M Value)
  (params : Params.t) (aggregates : list (string * Value)) :
  quiet this ->
  (forall q aggrs, logsOnly (modelAggregateMulti q aggrs)) ->
  logsOnly (aggregateMulti env this createAggregate modelAggregateMulti
              params aggregates).
Proof.
  intros Hquiet Hmodel. unfold aggregateMulti.
  apply logsOnly_bind; [apply logsOnly_prelude; exact Hquiet | intros p].
  apply logsOnly_bind; [apply logsOnly_lift | intros q].
  apply logsOnly_bind.
  { destruct (Params.permissions p);
      [apply logsOnly_permCheckExecuteQuery | apply logsOnly_ret]. }
  intros _. apply logsOnly_bind.
  { apply logsOnly_if;
      [apply logsOnly_permCheckExecuteQuery | apply logsOnly_ret]. }
  intros _. apply logsOnly_bind; [apply logsOnly_lift | intros aggrs].
  apply logsOnly_bind; [|intros _; apply Hmodel].
  destruct (Params.permissions p); [|apply logsOnly_ret].
  apply logsOnly_bind; [repeat logsOnly_step | intros g].
  apply logsOnly_eachSeries. intros field. unfold checkAggregateField.
  apply logsOnly_catch; [repeat logsOnly_step | intros e].
  apply logsOnly_if; [repeat logsOnly_step | apply logsOnly_rethrow].
Qed.

(** The read operations never write: when the hook handlers, the
    serializer and the model's aggregation leave the store alone, the store
    after [get], [query], [stream], [count] or [aggregateMulti] is the
    store before the call, whether the call resolves or is rejected. *)
Theorem reads_leave_store_unchanged (env : Env) (this : ModelAccessWrapper)
  (createAggregate : Value -> Outcome Aggregate)
  (modelAggregateMulti : Query -> list (string * Aggregate) -> M Value)
  (params : Params.t) (w : World) :
  quiet this ->
  (forall q aggrs, logsOnly (modelAggregateMulti q aggrs)) ->
  (forall keys, store (snd (get env this params keys w)) = store w) /\
  store (snd (query env this params w)) = store w /\
  store (snd (stream env this params w)) = store w /\
  store (snd (count env this params w)) = store w /\
  (forall aggregates,
      store (snd (aggregateMulti env this createAggregate modelAggregateMulti
                    params aggregates w)) = store w).
Proof.
  intros Hquiet Hmodel. repeat split; intros; apply logsOnly_store.
  - apply logsOnly_get; exact Hquiet.
  - apply logsOnly_query; exact Hquiet.
  - apply logsOnly_stream; exact Hquiet.
  - apply logsOnly_count; exact Hquiet.
  - apply logsOnly_aggregateMulti; assumption.
Qed.

Lemma reads_leave_store_unchanged_witness :
  store (snd (query Ref.env Ref.wrapper Ref.singleDocQuery Ref.world0))
    = Ref.testAnimals /\
  store (snd (count Ref.env Ref.wrapper Ref.singleDocQuery Ref.world0))
    = Ref.testAnimals.
Proof.
  destruct (reads_leave_store_unchanged Ref.env Ref.wrapper
              Fixtures.createAggregate Fixtures.aggregateMulti
              Ref.singleDocQuery Ref.world0)
    as (_ & Hquery & _ & Hcount & _).
  - repeat split; intros; apply logsOnly_ret.
  - intros q aggrs. unfold Fixtures.aggregateMulti.
    apply logsOnly_bind; [apply logsOnly_getStore | intros; apply logsOnly_ret].
  - split; [exact Hquery | exact Hcount].
Defined.

(** ** The query checks come first *)

Lemma bind_assoc {A B C : Type} (m : M A) (f : A -> M B) (g : B -> M C)
  (w : World) :
  bind (bind m f) g w = bind m (fun a => bind (f a) g) w.
Proof.
  unfold bind. destruct (m w) as [[a|e] w1]; reflexivity.
Qed.

Lemma permCheckExecuteQuery_run (p : PermissionSet) (target : string)
  (q : QuerySpec) (caps : list string) (w : World) :
  permCheckExecuteQuery p target q caps w =
  (checkExecuteQuery p target q caps, logged w [EvCheckExecuteQuery target]).
Proof. reflexivity. Qed.

Lemma authorizeRead_run (this : ModelAccessWrapper) (p : Params.t)
  (cap : string) (w : World) :
  exists evs,
    Forall isQueryCheck evs /\
    authorizeRead this p cap w
    = (outcomeOf (readRefusal this p cap), logged w evs).
Proof.
  unfold authorizeRead, readRefusal. rewrite bind_run.
  destruct (Params.permissions p) as [perms|].
  - rewrite permCheckExecuteQuery_run.
    destruct (checkExecuteQuery perms (permissionsTarget this)
                (RawQuery (Params.query p)) [cap]) as [[]|e].
    + destruct (negb (Params.allowPrivateFields p) && hasPrivateFields this).
      * rewrite permCheckExecuteQuery_run, logged_logged.
        eexists. split; [|destruct (checkExecuteQuery _ _ _ _) as [[]|e];
                           reflexivity].
        repeat constructor.
      * eexists. split; [|reflexivity]. repeat constructor.
    + eexists. split; [|reflexivity]. repeat constructor.
  - cbn [ret].
    destruct (negb (Params.allowPrivateFields p) && hasPrivateFields this).
    + rewrite permCheckExecuteQuery_run.
      eexists. split; [|destruct (checkExecuteQuery _ _ _ _) as [[]|e];
                         reflexivity].
      repeat constructor.
    + exists []. rewrite logged_nil. split; [constructor | reflexivity].
Qed.

Lemma queryDocuments_authorized (env : Env) (this : ModelAccessWrapper)
  (params : Params.t) (w : World) :
  queryDocuments env this params w =
  bind (prelude this params "query" "pre-query")
    (fun p =>
       authorizeRead this p "query" ;;;
       docs <- modelFind env (RawQuery (Params.query p)) ;;
       ret (p, docs)) w.
Proof.
  unfold queryDocuments, authorizeRead. rewrite !bind_run.
  destruct (prelude this params "query" "pre-query" w) as [[p|e] w1];
    [|reflexivity].
  rewrite bind_assoc. reflexivity.
Qed.



(** ** stream and query *)

Section StreamResults.

Variable this : ModelAccessWrapper.
Variable params : Params.t.




Lemma prepareOrNull_flag (d : Doc) (w w1 : World)
  (r : option ResultObject * bool) :
  prepareOrNull this params d w = (Resolved r, w1) ->
  snd r = true -> fst r = None.
Proof.
  rewrite prepareOrNull_run.
  destruct (prepareResultObject this d params w) as [[x|e] w2].
  - intros [= <- _]. discriminate.
  - destruct (codeEqb (code e) ACCESS_DENIED); [|discriminate].
    intros [= <- _]. reflexivity.
Qed.

Lemma mapSeries_flags (docs : list Doc) (w w1 : World)
  (rs : list (option ResultObject * bool)) :
  mapSeries (prepareOrNull this params) docs w = (Resolved rs, w1) ->
  length rs = length docs /\
  Forall (fun r => snd r = true -> fst r = None) rs.
Proof.
  revert w w1 rs. induction docs as [|d t IH]; intros w w1 rs.
  - intros [= <- _]. split; [reflexivity | constructor].
  - cbn [mapSeries]. rewrite bind_run.
    destruct (prepareOrNull this params d w) as [[r|e] w2] eqn:Er;
      [|discriminate].
    rewrite bind_run.
    destruct (mapSeries (prepareOrNull this params) t w2) as [[rs'|e] w3] eqn:Et;
      [|discriminate].
    intros [= <- _]. destruct (IH _ _ _ Et) as [Hlen Hall].
    split; [simpl; congruence|].
    constructor; [apply (prepareOrNull_flag d w w2 r Er) | exact Hall].
Qed.

End StreamResults.




(** ** count *)

Lemma modelFind_raw (env : Env) (v : Value) (w : World) :
  modelFind env (RawQuery v) w =
  (match createQuery env v with
   | Resolved q => Resolved (matching q (store w))
   | Rejected e => Rejected e
   end, logged w [EvFind]).
Proof.
  unfold modelFind, parseQuery, bind, log, lift, getStore, ret, logged.
  destruct (createQuery env v); reflexivity.
Qed.

Lemma modelCount_raw (env : Env) (v : Value) (w : World) :
  modelCount env (RawQuery v) w =
  (match createQuery env v with
   | Resolved q => Resolved (length (matching q (store w)))
   | Rejected e => Rejected e
   end, w).
Proof.
  unfold modelCount, parseQuery, bind, lift, getStore, ret.
  destruct (createQuery env v); reflexivity.
Qed.

Lemma mapSeries_length (this : ModelAccessWrapper) (params : Params.t)
  (docs : list Doc) (w w' : World) (rs : list (option ResultObject)) :
  queryResults this params docs w = (Resolved rs, w') ->
  length rs = length docs.
Proof.
  unfold queryResults. rewrite bind_run.
  destruct (mapSeries (prepareOrNull this params) docs w) as [[rs0|e] w1] eqn:E;
    [|discriminate].
  destruct (mapSeries_flags this params docs w w1 rs0 E) as [Hlen _].
  destruct (_ && _); [discriminate|].
  intros [= <- _]. rewrite length_map. exact Hlen.
Qed.

(** [count] counts every document the query matches, whether or not the
    caller may read it: when [query] and [count] both resolve for the same
    query on the same store, the count is the length of the array [query]
    returns, [null] entries included. *)
Theorem count_is_number_of_query_slots (env : Env) (this : ModelAccessWrapper)
  (params pq pc : Params.t) (w wq wc wq' wc' : World)
  (rs : list (option ResultObject)) (n : nat) :
  prelude this params "query" "pre-query" w = (Resolved pq, wq) ->
  prelude this params "count" "pre-count" w = (Resolved pc, wc) ->
  Params.query pq = Params.query pc ->
  store wq = store wc ->
  query env this params w = (Resolved rs, wq') ->
  count env this params w = (Resolved n, wc') ->
  n = length rs.
Proof.
  intros Hpq Hpc Hsame Hstore Hquery Hcount.
  unfold query in Hquery. rewrite bind_run, queryDocuments_authorized in Hquery.
  rewrite (bind_resolved _ Hpq), bind_run in Hquery.
  destruct (authorizeRead_run this pq "query" wq) as (evs & _ & Hauth).
  rewrite Hauth in Hquery.
  destruct (readRefusal this pq "query"); [discriminate|].
  cbn [outcomeOf] in Hquery. rewrite bind_run, modelFind_raw in Hquery.
  unfold count in Hcount. rewrite (bind_resolved _ Hpc), bind_run in Hcount.
  destruct (authorizeRead_run this pc "count" wc) as (evs' & _ & Hauth').
  rewrite Hauth' in Hcount.
  destruct (readRefusal this pc "count"); [discriminate|].
  cbn [outcomeOf] in Hcount. rewrite modelCount_raw, <- Hsame in Hcount.
  destruct (createQuery env (Params.query pq)) as [q|e]; [|discriminate].
  injection Hcount as <- _.
  cbn [ret fst snd] in Hquery.
  apply mapSeries_length in Hquery. rewrite Hquery.
  unfold logged. cbn [store]. rewrite Hstore. reflexivity.
Qed.

Lemma count_is_number_of_query_slots_witness :
  let p := Ref.withQuery (Ref.params Fixtures.felixReader) (VObj []) in
  map (option_map resultData)
      (Ref.resolvedOr [] (query Ref.env Ref.wrapper p Ref.world0))
    = [None; None; Some (Ref.animalCreate (Ref.animal "baz" "cat" "Felix" 8 []));
       None; None] /\
  Ref.resolvedOr 0 (count Ref.env Ref.wrapper p Ref.world0) = 5.
Proof.
  intros p. split; [vm_compute; reflexivity|].
  set (q := query Ref.env Ref.wrapper p Ref.world0).
  set (c := count Ref.env Ref.wrapper p Ref.world0).
  assert (Hq : q = (Resolved (Ref.resolvedOr [] q), snd q))
    by (vm_compute; reflexivity).
  assert (Hc : c = (Resolved (Ref.resolvedOr 0 c), snd c))
    by (vm_compute; reflexivity).
  rewrite (count_is_number_of_query_slots Ref.env Ref.wrapper p
             (Ref.preprocessed Ref.wrapper p) (Ref.preprocessed Ref.wrapper p)
             Ref.world0 Ref.world0 Ref.world0 (snd q) (snd c)
             (Ref.resolvedOr [] q) (Ref.resolvedOr 0 c)
             eq_refl eq_refl eq_refl eq_refl Hq Hc).
  vm_compute. reflexivity.
Defined.

(** ** aggregateMulti *)

Lemma checkAggregateField_run (g : Grant) (field : string) (w : World) :
  exists o evs,
    checkAggregateField g field w = (o, logged w evs) /\
    passes o = mayAggregate g field.
Proof.
  unfold checkAggregateField, catch, mayAggregate.
  rewrite grantCheck_run.
  destruct (checkKey g ("readMask." ++ field)) as [[]|e] eqn:E.
  - do 2 eexists. split; reflexivity.
  - cbn [isDenied passes orb].
    destruct (codeEqb (code e) ACCESS_DENIED); cbn [andb].
    + rewrite grantCheck_run, logged_logged.
      do 2 eexists. split; reflexivity.
    + do 2 eexists. split; reflexivity.
Qed.

Lemma checkAggregateFields_run (g : Grant) (fields : list string) (w : World) :
  exists o evs,
    eachSeries (checkAggregateField g) fields w = (o, logged w evs) /\
    passes o = forallb (mayAggregate g) fields.
Proof.
  revert w. induction fields as [|field rest IH]; intros w.
  - exists (Resolved tt), []. rewrite logged_nil. split; reflexivity.
  - cbn [eachSeries forallb]. rewrite bind_run.
    destruct (checkAggregateField_run g field w) as (o & evs & Hrun & Hpass).
    rewrite Hrun, <- Hpass. destruct o as [[]|e].
    + destruct (IH (logged w evs)) as (o' & evs' & Hrun' & Hpass').
      rewrite Hrun', logged_logged. exists o', (evs ++ evs')%list.
      split; [reflexivity | exact Hpass'].
    + exists (Rejected e), evs. split; reflexivity.
Qed.

(** With permissions, [aggregateMulti] hands the aggregates to the model
    exactly when the grant resolved for the query's exact matches lets
    every field the aggregates read through: its read mask covers the
    field, or its read mask denies the field and its aggregate mask covers
    it.  Otherwise the call is rejected and the model's aggregation is not
    run. *)
Theorem aggregate_requires_read_or_aggregate_mask (env : Env)
  (this : ModelAccessWrapper)
  (createAggregate : Value -> Outcome Aggregate)
  (modelAggregateMulti : Query -> list (string * Aggregate) -> M Value)
  (params p2 : Params.t) (aggregates : list (string * Value))
  (w w2 : World) (q : Query) (perms : PermissionSet)
  (aggrs : list (string * Aggregate)) :
  prelude this params "aggregateMulti" "pre-aggregate" w = (Resolved p2, w2) ->
  createQuery env (Params.query p2) = Resolved q ->
  Params.permissions p2 = Some perms ->
  checkExecuteQuery perms (permissionsTarget this)
    (RawQuery (Params.query p2)) ["query"; "aggregate"] = Resolved tt ->
  (hasPrivateFields this && negb (Params.allowPrivateFields p2) = true ->
   checkExecuteQuery (globalPermissions this) "global"
     (RawQuery (Params.query p2)) ["global"] = Resolved tt) ->
  createAggregates createAggregate aggregates = Resolved aggrs ->
  let g := getTargetGrant perms (permissionsTarget this)
             (VObj (getExactMatches q)) in
  let call := aggregateMulti env this createAggregate modelAggregateMulti
                params aggregates w in
  if forallb (mayAggregate g) (accessedFields aggrs)
  then exists evs, call = modelAggregateMulti q aggrs (logged w2 evs)
  else exists e evs, call = (Rejected e, logged w2 evs).
Proof.
  intros Hpre Hq Hperm Hcheck Hglobal Haggrs g call. subst call.
  unfold aggregateMulti.
  rewrite (bind_resolved _ Hpre), (lift_bind _ _ Hq), Hperm.
  rewrite bind_run, permCheckExecuteQuery_run, Hcheck.
  assert (Hg : exists evs0,
             (if hasPrivateFields this && negb (Params.allowPrivateFields p2)
              then permCheckExecuteQuery (globalPermissions this) "global"
                     (RawQuery (Params.query p2)) ["global"]
              else ret tt)
               (logged w2 [EvCheckExecuteQuery (permissionsTarget this)])
             = (Resolved tt, logged w2 evs0)).
  { destruct (hasPrivateFields this && negb (Params.allowPrivateFields p2)).
    - rewrite permCheckExecuteQuery_run, (Hglobal eq_refl), logged_logged.
      eexists. reflexivity.
    - eexists. reflexivity. }
  destruct Hg as (evs0 & Hg).
  rewrite (bind_resolved _ Hg), (lift_bind _ _ Haggrs).
  rewrite bind_run, bind_run, permGetTargetGrant_run, logged_logged.
  fold g.
  destruct (checkAggregateFields_run g (accessedFields aggrs)
              (logged w2 (evs0 ++ [EvGetTargetGrant (permissionsTarget this)
                                     (VObj (getExactMatches q))])))
    as (o & evs & Hrun & Hpass).
  rewrite Hrun, logged_logged, <- Hpass.
  destruct o as [[]|e]; cbn [passes].
  - eexists. reflexivity.
  - do 2 eexists. reflexivity.
Qed.

Lemma aggregate_requires_read_or_aggregate_mask_witness :
  let p := Ref.withQuery (Ref.params Fixtures.ageAggregator) (VObj []) in
  let ageByType :=
    [("byType", VObj [("groupBy", VStr "animalType"); ("stats", VStr "age")])] in
  passes (checkKey (getTargetGrant Fixtures.ageAggregator "Animal" (VObj []))
                   "readMask.age") = false /\
  fst (aggregateMulti Ref.env Ref.wrapper Fixtures.createAggregate
         Fixtures.aggregateMulti p ageByType Ref.world0)
    = Resolved (VObj [("byType", VNum 5)]).
Proof.
  intros p ageByType. split; [vm_compute; reflexivity|].
  pose proof (aggregate_requires_read_or_aggregate_mask Ref.env Ref.wrapper
                Fixtures.createAggregate Fixtures.aggregateMulti
                p (Ref.preprocessed Ref.wrapper p) ageByType
                Ref.world0 Ref.world0 (Ref.parsedQuery (VObj []))
                Fixtures.ageAggregator (Fixtures.createdAggregates ageByType))
    as H.
  assert (H1 : prelude Ref.wrapper p "aggregateMulti" "pre-aggregate" Ref.world0
               = (Resolved (Ref.preprocessed Ref.wrapper p), Ref.world0))
    by reflexivity.
  assert (H2 : createQuery Ref.env (Params.query (Ref.preprocessed Ref.wrapper p))
               = Resolved (Ref.parsedQuery (VObj []))) by reflexivity.
  assert (H3 : Params.permissions (Ref.preprocessed Ref.wrapper p)
               = Some Fixtures.ageAggregator) by reflexivity.
  assert (H4 : checkExecuteQuery Fixtures.ageAggregator
                 (permissionsTarget Ref.wrapper)
                 (RawQuery (Params.query (Ref.preprocessed Ref.wrapper p)))
                 ["query"; "aggregate"] = Resolved tt)
    by (vm_compute; reflexivity).
  assert (H5 : hasPrivateFields Ref.wrapper
               && negb (Params.allowPrivateFields (Ref.preprocessed Ref.wrapper p))
               = true ->
               checkExecuteQuery (globalPermissions Ref.wrapper) "global"
                 (RawQuery (Params.query (Ref.preprocessed Ref.wrapper p)))
                 ["global"] = Resolved tt)
    by (intros _; vm_compute; reflexivity).
  assert (H6 : createAggregates Fixtures.createAggregate ageByType
               = Resolved (Fixtures.createdAggregates ageByType))
    by reflexivity.
  specialize (H H1 H2 H3 H4 H5 H6). cbv zeta in H.
  match type of H with
  | if ?b then _ else _ =>
      replace b with true in H by (vm_compute; reflexivity)
  end.
  destruct H as (evs & H). rewrite H. vm_compute. reflexivity.
Defined.

(** ** put *)

Lemma logsOnly_tryThen {A B : Type} (body : M A) (next : A -> M B)
  (onError : XError -> M B) :
  logsOnly body -> (forall a, logsOnly (next a)) ->
  (forall e, logsOnly (onError e)) -> logsOnly (tryThen body next onError).
Proof.
  intros Hb Hn He w. unfold tryThen.
  destruct (Hb w) as (evs & E).
  destruct (body w) as [[a|e] w1]; simpl in E; subst w1.
  - destruct (Hn a (logged w evs)) as (evs' & E').
    exists (evs ++ evs')%list. rewrite E'. apply logged_logged.
  - destruct (He e (logged w evs)) as (evs' & E').
    exists (evs ++ evs')%list. rewrite E'. apply logged_logged.
Qed.

Lemma docSave_stored (d : Doc) (w : World) :
  exists saved,
    docSave d w = (Resolved saved, snd (docSave d w)) /\
    getData saved = getData d /\
    In saved (docs (store (snd (docSave d w)))) /\
    (length (docs (store (snd (docSave d w)))) = length (docs (store w)) \/
     length (docs (store (snd (docSave d w)))) = S (length (docs (store w)))).
Proof.
  unfold docSave, bind, log, getStore, putStore, ret. cbn [store trace].
  destruct (docId d) as [i|].
  - destruct (existsb (sameId (Some i)) (docs (store w))) eqn:E.
    + exists d. cbn [snd store docs]. repeat split.
      * apply existsb_exists in E. destruct E as (x & Hx & Hsame).
        apply in_map_iff. exists x. rewrite Hsame. auto.
      * left. apply length_map.
    + exists d. cbn [snd store docs]. repeat split.
      * apply in_or_app. right. left. reflexivity.
      * right. rewrite length_app. simpl. lia.
  - eexists. cbn [snd store docs]. repeat split.
    + apply in_or_app. right. left. reflexivity.
    + right. rewrite length_app. simpl. lia.
Qed.

Section PutRuns.

Variable env : Env.
Variable this : ModelAccessWrapper.

Lemma logsOnly_putNotFound (params : Params.t) (data : Value) (err : XError) :
  logsOnly (putNotFound env this params data err).
Proof.
  unfold putNotFound. apply logsOnly_if; [apply logsOnly_rethrow|].
  apply logsOnly_bind.
  - destruct (Params.permissions params); [|apply logsOnly_ret].
    apply logsOnly_bind; [apply logsOnly_lift|].
    intros fresh. apply logsOnly_putCheck.
  - intros _. apply logsOnly_bind; [apply logsOnly_lift|].
    intros created. apply logsOnly_ret.
Qed.

Lemma logsOnly_putDocument (params : Params.t) (data : Value)
  (keys : list (string * Value)) :
  logsOnly (putDocument env this params data keys).
Proof.
  unfold putDocument.
  apply logsOnly_tryThen;
    [apply logsOnly_modelFindOne | intros doc | apply logsOnly_putNotFound].
  apply logsOnly_tryThen;
    [apply logsOnly_putCheck | intros _ | apply logsOnly_putNotFound].
  apply logsOnly_tryThen;
    [apply logsOnly_lift | intros u | apply logsOnly_putNotFound].
  apply logsOnly_if; [apply logsOnly_putNotFound | apply logsOnly_ret].
Qed.

(** How a [put] that got past its pre-hook ends: rejected before anything
    is saved, or resolved by the one save. *)
Lemma put_run (params p2 : Params.t) (w w2 : World) :
  prelude this params "put" "pre-put" w = (Resolved p2, w2) ->
  (exists e evs, put env this params w = (Rejected e, logged w2 evs)) \/
  (exists doc evs keys saved,
      docSave doc (logged w2 evs)
        = (Resolved saved, snd (docSave doc (logged w2 evs))) /\
      put env this params w =
      (Resolved (if truthy (getData saved)
                 then map (fun field => (field, getPath (getData saved) field))
                          (keyFields this)
                 else keys),
       snd (docSave doc (logged w2 evs)))).
Proof.
  intros Hpre. unfold put. rewrite (bind_resolved _ Hpre), bind_run.
  destruct (logsOnly_putPrepare this p2 w2) as (evs1 & E1).
  destruct (putPrepare this p2 w2) as [[[data keys]|e] w3]; simpl in E1; subst w3;
    [|left; eauto].
  rewrite bind_run.
  destruct (logsOnly_putDocument p2 data keys (logged w2 evs1)) as (evs2 & E2).
  rewrite logged_logged in E2.
  destruct (putDocument env this p2 data keys (logged w2 evs1)) as [[doc|e] w4];
    simpl in E2; subst w4; [|left; eauto].
  right. rewrite bind_run.
  destruct (docSave_stored doc (logged w2 (evs1 ++ evs2)))
    as (saved & Hsave & _).
  exists doc, (evs1 ++ evs2)%list, keys, saved. split; [exact Hsave|].
  rewrite Hsave. destruct (truthy (getData saved)); reflexivity.
Qed.

End PutRuns.

(** [put] writes at most once, and only as its last step: a [put] that is
    rejected after its pre-hook leaves the store as the pre-hook left it. *)
Theorem rejected_put_saves_nothing (env : Env) (this : ModelAccessWrapper)
  (params p2 : Params.t) (w w2 w' : World) (e : XError) :
  prelude this params "put" "pre-put" w = (Resolved p2, w2) ->
  put env this params w = (Rejected e, w') ->
  store w' = store w2.
Proof.
  intros Hpre Hput.
  destruct (put_run env this params p2 w w2 Hpre)
    as [(e' & evs & H)|(doc & evs & keys & saved & _ & H)];
    rewrite H in Hput; [|discriminate].
  injection Hput as _ <-. reflexivity.
Qed.

Lemma rejected_put_saves_nothing_witness :
  let p := Ref.withData (Ref.params Ref.publicWriter) Ref.olderLightning in
  isDenied (fst (put Ref.env Ref.wrapper p Ref.world0)) = true /\
  store (snd (put Ref.env Ref.wrapper p Ref.world0)) = Ref.testAnimals.
Proof.
  intros p. split; [vm_compute; reflexivity|].
  set (r := put Ref.env Ref.wrapper p Ref.world0).
  apply (rejected_put_saves_nothing Ref.env Ref.wrapper p
           (Ref.preprocessed Ref.wrapper p) Ref.world0 Ref.world0 (snd r)
           (Ref.rejectionOf (fst r))).
  - reflexivity.
  - vm_compute. reflexivity.
Defined.

(** A [put] that resolves has saved exactly one document: it is in the
    store afterwards, the store holds as many documents as before or one
    more, and the keys the call returns are that document's values of the
    key fields. *)
Theorem put_returns_keys_of_saved_document (env : Env)
  (this : ModelAccessWrapper) (params p2 : Params.t) (w w2 w' : World)
  (ks : list (string * Value)) :
  prelude this params "put" "pre-put" w = (Resolved p2, w2) ->
  put env this params w = (Resolved ks, w') ->
  exists saved,
    In saved (docs (store w')) /\
    (truthy (getData saved) = true ->
     ks = map (fun field => (field, getPath (getData saved) field))
              (keyFields this)) /\
    (length (docs (store w')) = length (docs (store w2)) \/
     length (docs (store w')) = S (length (docs (store w2)))).
Proof.
  intros Hpre Hput.
  destruct (put_run env this params p2 w w2 Hpre)
    as [(e' & evs & H)|(doc & evs & keys & saved & Hsave & H)];
    rewrite H in Hput; [discriminate|].
  injection Hput as <- <-.
  destruct (docSave_stored doc (logged w2 evs))
    as (saved' & Hsave' & _ & Hin & Hlen).
  rewrite Hsave in Hsave'. injection Hsave' as <-.
  exists saved. split; [exact Hin|]. split; [|exact Hlen].
  intros ->. reflexivity.
Qed.

Lemma put_returns_keys_of_saved_document_witness :
  let p := Ref.withData (Ref.params Ref.partialWrite) Ref.frog in
  Ref.resolvedOr [] (put Ref.env Ref.wrapper p Ref.world0)
    = [("id", VStr "asdf")] /\
  exists saved,
    In saved (docs (store (snd (put Ref.env Ref.wrapper p Ref.world0)))) /\
    (truthy (getData saved) = true ->
     Ref.resolvedOr [] (put Ref.env Ref.wrapper p Ref.world0)
     = map (fun field => (field, getPath (getData saved) field)) ["id"]).
Proof.
  intros p. split; [vm_compute; reflexivity|].
  set (r := put Ref.env Ref.wrapper p Ref.world0).
  destruct (put_returns_keys_of_saved_document Ref.env Ref.wrapper p
              (Ref.preprocessed Ref.wrapper p) Ref.world0 Ref.world0 (snd r)
              (Ref.resolvedOr [] r))
    as (saved & Hin & Hkeys & _).
  - reflexivity.
  - vm_compute. reflexivity.
  - exists saved. split; [exact Hin | exact Hkeys].
Defined.

(** Round trip: after a [put] has resolved, looking the returned keys up
    in the store finds a document, provided a key query matches every
    document that holds the queried values. *)
Theorem put_then_lookup_finds_document (env : Env) (this : ModelAccessWrapper)
  (params p2 : Params.t) (w w2 w' : World) (ks : list (string * Value))
  (q : Query) :
  prelude this params "put" "pre-put" w = (Resolved p2, w2) ->
  put env this params w = (Resolved ks, w') ->
  (forall d, In d (docs (store w')) -> truthy (getData d) = true) ->
  createQuery env (VObj ks) = Resolved q ->
  (forall d, (forall k v, In (k, v) ks -> getPath d k = v) ->
             matches q d = true) ->
  exists found,
    modelFindOne env (RawQuery (VObj ks)) w'
      = (Resolved found, logged w' [EvFindOne]) /\
    In found (docs (store w')) /\
    matches q (getData found) = true.
Proof.
  intros Hpre Hput Htruthy Hq Hmatch.
  destruct (put_run env this params p2 w w2 Hpre)
    as [(e' & evs & H)|(doc & evs & keys & saved & Hsave & H)];
    rewrite H in Hput; [discriminate|].
  injection Hput as Hks <-.
  destruct (docSave_stored doc (logged w2 evs))
    as (saved' & Hsave' & _ & Hin & _).
  rewrite Hsave in Hsave'. injection Hsave' as <-.
  rewrite (Htruthy saved Hin) in Hks.
  assert (Hsaved : matches q (getData saved) = true).
  { apply Hmatch. intros k v Hkv. rewrite <- Hks in Hkv.
    apply in_map_iff in Hkv. destruct Hkv as (field & [= <- <-] & _).
    reflexivity. }
  set (w' := snd (docSave doc (logged w2 evs))) in *.
  assert (Hfound : exists found rest,
             matching q (store w') = found :: rest).
  { unfold matching.
    destruct (filter (fun d => matches q (getData d)) (docs (store w')))
      as [|found rest] eqn:E; [|eauto].
    assert (Hs : In saved (filter (fun d => matches q (getData d))
                                  (docs (store w'))))
      by (apply filter_In; auto).
    rewrite E in Hs. contradiction. }
  destruct Hfound as (found & rest & Hfound).
  exists found.
  assert (Hf : In found (matching q (store w')))
    by (rewrite Hfound; left; reflexivity).
  apply filter_In in Hf. destruct Hf as [Hf1 Hf2].
  split; [|auto].
  unfold modelFindOne, parseQuery, bind, log, lift, getStore. rewrite Hq.
  cbn [store]. rewrite Hfound. reflexivity.
Qed.

Lemma put_then_lookup_finds_document_witness :
  let p := Ref.withData (Ref.params Ref.partialWrite) Ref.frog in
  let w' := snd (put Ref.env Ref.wrapper p Ref.world0) in
  exists found,
    modelFindOne Ref.env (RawQuery (VObj [("id", VStr "asdf")])) w'
      = (Resolved found, logged w' [EvFindOne]) /\
    In found (docs (store w')) /\
    matches (Ref.parsedQuery (VObj [("id", VStr "asdf")])) (getData found)
      = true.
Proof.
  intros p w'.
  apply (put_then_lookup_finds_document Ref.env Ref.wrapper p
           (Ref.preprocessed Ref.wrapper p) Ref.world0 Ref.world0 w'
           [("id", VStr "asdf")] (Ref.parsedQuery (VObj [("id", VStr "asdf")]))).
  - reflexivity.
  - vm_compute. reflexivity.
  - intros d Hd. vm_compute in Hd.
    repeat (destruct Hd as [<-|Hd]; [reflexivity|]). contradiction.
  - reflexivity.
  - intros d Hd. specialize (Hd "id" (VStr "asdf") (or_introl eq_refl)).
    change (matches (Ref.parsedQuery (VObj [("id", VStr "asdf")])) d)
      with (Ref.valueEqb (VStr "asdf") (getPath d "id") && true).
    rewrite Hd. reflexivity.
Defined.

(** ** The keys of put *)

Lemma extractKeys_cons (data : Value) (field : string) (rest : list string)
  (w : World) :
  if keyValueOk (getPath data field)
  then extractKeys data (field :: rest) w =
       bind (extractKeys data rest)
            (fun ks => ret (assocSet field (getPath data field) ks)) w
  else exists e, extractKeys data (field :: rest) w = (Rejected e, w)
                 /\ code e = INVALID_ARGUMENT.
Proof.
  cbn [extractKeys]. unfold keyValueOk.
  destruct (getPath data field); cbn [isNil isScalar negb andb];
    try reflexivity; eexists; split; reflexivity.
Qed.

Lemma extractKeys_run (data : Value) (keyFields : list string) (w : World) :
  if forallb (fun field => keyValueOk (getPath data field)) keyFields
  then exists ks,
         extractKeys data keyFields w = (Resolved ks, w) /\
         forall field, In field keyFields ->
                       assoc field ks = Some (getPath data field)
  else exists e, extractKeys data keyFields w = (Rejected e, w)
                 /\ code e = INVALID_ARGUMENT.
Proof.
  induction keyFields as [|field rest IH].
  - exists []. split; [reflexivity | intros ? []].
  - pose proof (extractKeys_cons data field rest w) as Hcons.
    cbn [forallb].
    destruct (keyValueOk (getPath data field)); cbn [andb]; [|exact Hcons].
    rewrite Hcons.
    destruct (forallb _ rest).
    + destruct IH as (ks & Hrun & Hks).
      rewrite (bind_resolved _ Hrun). eexists. split; [reflexivity|].
      intros f Hf.
      destruct (String.eqb field f) eqn:Ef.
      * apply String.eqb_eq in Ef. subst f. apply assoc_assocSet_same.
      * rewrite assoc_assocSet_other.
        -- destruct Hf as [->|Hf]; [|apply Hks; exact Hf].
           rewrite String.eqb_refl in Ef. discriminate.
        -- rewrite String.eqb_sym. exact Ef.
    + destruct IH as (e & Hrun & Hcode).
      rewrite (bind_rejected _ Hrun). eauto.
Qed.

Lemma grantCheckMask_run (g : Grant) (mask : string) (obj : Value) (w : World) :
  grantCheckMask g mask obj w = (checkMask g mask obj, logged w [EvCheckMask mask]).
Proof. reflexivity. Qed.

Lemma putPrepare_bad_keys (this : ModelAccessWrapper) (p2 : Params.t)
  (w2 : World) :
  let data := putPayload this p2 in
  forallb (fun field => keyValueOk (getPath data field)) (keyFields this)
    = false ->
  exists e evs,
    putPrepare this p2 w2 = (Rejected e, logged w2 evs) /\
    Forall isGlobalCheck evs /\
    (code e = INVALID_ARGUMENT \/
     checkMask (getTargetGrant (globalPermissions this) "global" data)
               "writeMask" data = Rejected e).
Proof.
  intros data Hkeys. unfold putPrepare. fold (putPayload this p2). fold data.
  pose proof (extractKeys_run data (keyFields this)) as Hrun.
  rewrite Hkeys in Hrun. rewrite bind_run.
  destruct (hasPrivateFields this && negb (Params.allowPrivateFields p2)).
  - rewrite bind_run, permGetTargetGrant_run, grantCheckMask_run, logged_logged.
    destruct (checkMask (getTargetGrant (globalPermissions this) "global" data)
                "writeMask" data) as [[]|e] eqn:Emask.
    + destruct (Hrun (logged w2 [EvGetTargetGrant "global" data;
                                 EvCheckMask "writeMask"]))
        as (e & He & Hcode).
      rewrite (bind_rejected _ He). do 2 eexists.
      split; [reflexivity|]. split; [repeat constructor | left; exact Hcode].
    + do 2 eexists.
      split; [reflexivity|]. split; [repeat constructor | right; reflexivity].
  - cbn [ret]. destruct (Hrun w2) as (e & He & Hcode).
    rewrite (bind_rejected _ He). exists e, []. rewrite logged_nil.
    split; [reflexivity | split; [constructor | left; exact Hcode]].
Qed.

(** [put] looks nothing up unless every key field of the payload holds a
    scalar that is neither [null] nor [undefined]: otherwise the call is
    rejected before the store is asked, with INVALID_ARGUMENT unless the
    global write-mask check on a model with private fields has already
    rejected the payload. *)
Theorem put_requires_scalar_keys (env : Env) (this : ModelAccessWrapper)
  (params p2 : Params.t) (w w2 : World) :
  prelude this params "put" "pre-put" w = (Resolved p2, w2) ->
  let data := putPayload this p2 in
  forallb (fun field => keyValueOk (getPath data field)) (keyFields this)
    = false ->
  exists e evs,
    put env this params w = (Rejected e, logged w2 evs) /\
    Forall isGlobalCheck evs /\
    (code e = INVALID_ARGUMENT \/
     checkMask (getTargetGrant (globalPermissions this) "global" data)
               "writeMask" data = Rejected e).
Proof.
  intros Hpre data Hkeys.
  destruct (putPrepare_bad_keys this p2 w2 Hkeys) as (e & evs & Hprep & H).
  exists e, evs. split; [|exact H].
  unfold put. rewrite (bind_resolved _ Hpre). apply bind_rejected. exact Hprep.
Qed.

Lemma put_requires_scalar_keys_witness :
  let p := Ref.withData (Ref.params Ref.everything)
             (VObj [("name", VStr "Nemo")]) in
  exists e evs,
    put Ref.env Ref.wrapper p Ref.world0 = (Rejected e, logged Ref.world0 evs) /\
    Forall isGlobalCheck evs /\
    (code e = INVALID_ARGUMENT \/
     checkMask (getTargetGrant (globalPermissions Ref.wrapper) "global"
                  (putPayload Ref.wrapper (Ref.preprocessed Ref.wrapper p)))
               "writeMask"
               (putPayload Ref.wrapper (Ref.preprocessed Ref.wrapper p))
     = Rejected e).
Proof.
  intros p.
  apply (put_requires_scalar_keys Ref.env Ref.wrapper p
           (Ref.preprocessed Ref.wrapper p) Ref.world0 Ref.world0).
  - reflexivity.
  - vm_compute. reflexivity.
Defined.

(** Without [overwriteProtected], the data [put] has prepared for the
    lookup holds none of the model's protected fields, whatever the caller
    sent: they are stripped, not rejected.  The diff check [put] runs on
    that data, against the document it found or against a fresh one,
    therefore does not take the branch that refuses data with protected
    fields: it comes down to the check of [write] and of the write mask of
    the changed fields that are not protected. *)
Theorem put_payload_has_no_protected_fields (env : Env) (options : Options.t)
  (h : CrispHooks) (this : ModelAccessWrapper) (p2 : Params.t)
  (w2 w3 : World) (data : Value) (keys : list (string * Value)) :
  instanceOf env options h this ->
  Params.overwriteProtected p2 = false ->
  putPrepare this p2 w2 = (Resolved (data, keys), w3) ->
  (forall field, In field (protectedFields this) ->
                 getPath data field = VUndef) /\
  forall (permissions : PermissionSet) (doc : Doc) (w : World),
    _checkDiffPermissions env this permissions doc data false w =
    (grant <- permGetTargetGrant permissions (permissionsTarget this) data ;;
     u <- lift (createUpdate env (createFromDiff env (getData doc) data) false) ;;
     let fields := pull (getUpdatedFields u) "_id" in
     let fields := if hasProtectedFields this
                   then pullAll fields (protectedFields this)
                   else fields in
     grantCheck grant "write" "" ;;;
     grantCheckAll grant fields "writeMask.") w.
Proof.
  intros Hinst Ho Hprep.
  destruct (instanceOf_fields env options h this Hinst) as (_ & Hmask & Hhas).
  assert (H : forall field, In field (protectedFields this) ->
                            getPath data field = VUndef).
  { intros field Hfield.
    rewrite (putPrepare_data this p2 data keys w2 w3 Hprep).
    rewrite (Hhas field Hfield), Ho. cbn [negb andb].
    apply getPath_stripped. apply Hmask. exact Hfield. }
  split; [exact H|].
  intros permissions doc w. unfold _checkDiffPermissions.
  rewrite !bind_run, permGetTargetGrant_run.
  rewrite !bind_run. unfold lift at 1 2.
  destruct (createUpdate env (createFromDiff env (getData doc) data) false)
    as [u|e]; [|reflexivity].
  cbv zeta.
  rewrite existsb_none
    by (intros field Hfield; rewrite (H field Hfield); reflexivity).
  destruct (hasProtectedFields this); rewrite bind_run; reflexivity.
Qed.

Lemma put_payload_has_no_protected_fields_witness :
  let p := Ref.withData (Ref.params Ref.everything)
             (VObj [("id", VStr "foo"); ("coolness", VNum 9);
                    ("favNumber", VNum 7)]) in
  fst (putPrepare Ref.wrapper p Ref.world0)
    = Resolved (VObj [("id", VStr "foo")],
                [("id", VStr "foo")]) /\
  getPath (VObj [("id", VStr "foo")]) "coolness"
    = VUndef.
Proof.
  intros p. split; [vm_compute; reflexivity|].
  apply (proj1 (put_payload_has_no_protected_fields Ref.env Ref.options noHooks
                  Ref.wrapper p Ref.world0
                  (snd (putPrepare Ref.wrapper p Ref.world0))
                  (VObj [("id", VStr "foo")])
                  [("id", VStr "foo")]
                  (ex_intro _ Ref.wrapper (conj eq_refl eq_refl)) eq_refl
                  eq_refl)).
  vm_compute. auto.
Defined.

(** ** Overwriting protected fields *)

Lemma rejectProtected_overwrite (this : ModelAccessWrapper) (p2 : Params.t)
  (fields : list string) (w : World) :
  Params.overwriteProtected p2 = true ->
  rejectProtected this p2 fields w = (Resolved tt, w).
Proof.
  intros Ho. unfold rejectProtected. rewrite Ho, andb_false_r. reflexivity.
Qed.

Lemma resolveGrant_denied (this : ModelAccessWrapper) (p2 : Params.t)
  (perms : PermissionSet) (q : Query) (w : World) (e : XError) :
  Params.overwriteProtected p2 = true ->
  checkKey (getTargetGrant perms (permissionsTarget this)
              (objectFromPaths (getExactMatches q)))
           "overwriteProtected" = Rejected e ->
  resolveGrant this p2 perms q w =
  (Rejected e,
   logged w [EvGetTargetGrant (permissionsTarget this)
               (objectFromPaths (getExactMatches q));
             EvGrantCheck "overwriteProtected"]).
Proof.
  intros Ho Hdenied. unfold resolveGrant.
  rewrite bind_run, permGetTargetGrant_run, Ho, bind_run, grantCheck_run.
  change ("" ++ "overwriteProtected") with "overwriteProtected".
  rewrite Hdenied, logged_logged. reflexivity.
Qed.

(** An [update] or [upsert] that asks for [overwriteProtected] is
    rejected when the grant resolved for the query's exact matches lacks
    the [overwriteProtected] capability.  The check stands outside the
    bulk check's [try]: even an ACCESS_DENIED refusal is final, the
    per-document loop is not tried and nothing is written. *)
Theorem overwriteProtected_refusal_is_final (env : Env)
  (this : ModelAccessWrapper) (params p2 : Params.t) (w w2 w3 : World)
  (q : Query) (u : Update) (perms : PermissionSet) (e : XError) :
  createQuery env (Params.query p2) = Resolved q ->
  createUpdate env (Params.update p2) false = Resolved u ->
  Params.overwriteProtected p2 = true ->
  Params.permissions p2 = Some perms ->
  authorizeQuery this p2 perms q w2 = (Resolved tt, w3) ->
  checkKey (getTargetGrant perms (permissionsTarget this)
              (objectFromPaths (getExactMatches q)))
           "overwriteProtected" = Rejected e ->
  let refused :=
    (@Rejected unit e,
     logged w3 [EvGetTargetGrant (permissionsTarget this)
                  (objectFromPaths (getExactMatches q));
                EvGrantCheck "overwriteProtected"]) in
  (prelude this params "update" "pre-update" w = (Resolved p2, w2) ->
   update env this params w = refused) /\
  (prelude this params "upsert" "pre-upsert" w = (Resolved p2, w2) ->
   upsert env this params w = refused).
Proof.
  intros Hq Hu Ho Hperm Hauth Hdenied refused. subst refused.
  pose proof (resolveGrant_denied this p2 perms q w3 e Ho Hdenied) as Hgrant.
  split; intros Hpre.
  - rewrite (update_parsed env this params p2 w w2 q u Hpre Hq Hu).
    unfold updateParsed.
    rewrite (bind_resolved _ (rejectProtected_overwrite this p2 _ w2 Ho)), Hperm.
    apply bind_rejected. unfold updateGrant.
    rewrite (bind_resolved _ Hauth). exact Hgrant.
  - rewrite (upsert_parsed env this params p2 w w2 q u Hpre Hq Hu).
    unfold upsertParsed.
    rewrite (bind_resolved _ (rejectProtected_overwrite this p2 _ w2 Ho)), Hperm.
    apply bind_rejected. unfold upsertGrant.
    rewrite (bind_resolved _ Hauth). apply bind_rejected. exact Hgrant.
Qed.

Lemma overwriteProtected_refusal_is_final_witness :
  let p := Fixtures.overwriteCoolness Ref.almostEverything in
  isDenied (fst (update Ref.env Ref.wrapper p Ref.world0)) = true /\
  store (snd (update Ref.env Ref.wrapper p Ref.world0)) = Ref.testAnimals /\
  ~ In EvFindStream (trace (snd (update Ref.env Ref.wrapper p Ref.world0))).
Proof.
  intros p.
  set (p2 := Ref.preprocessed Ref.wrapper p).
  set (q := Ref.parsedQuery (VObj [])).
  set (auth := authorizeQuery Ref.wrapper p2 Ref.almostEverything q Ref.world0).
  pose proof (proj1 (overwriteProtected_refusal_is_final Ref.env Ref.wrapper p p2
                       Ref.world0 Ref.world0 (snd auth) q
                       (Ref.parsedUpdate (Params.update p2))
                       Ref.almostEverything
                       (mkXError ACCESS_DENIED "Access denied: overwriteProtected")
                       eq_refl eq_refl eq_refl eq_refl eq_refl eq_refl)
                    eq_refl) as H.
  rewrite H. cbn [fst snd]. split; [reflexivity|]. split; [reflexivity|].
  vm_compute. intuition discriminate.
Defined.

(** ** The per-document loops when every document is authorized *)

Lemma memDoc_matching (q : Query) (s : Store) (x : Doc) :
  wfStore s -> In x (docs s) ->
  memDoc x (matching q s) = matches q (getData x).
Proof.
  intros [Hnd Hids] Hx. unfold memDoc, matching.
  rewrite Forall_forall in Hids.
  destruct (matches q (getData x)) eqn:Hm.
  - apply existsb_sameId; [|apply Hids; exact Hx].
    apply filter_In. auto.
  - apply not_true_is_false. intros H.
    apply existsb_exists in H. destruct H as (y & Hy & Hsame).
    apply filter_In in Hy. destruct Hy as [Hy Hmy].
    apply sameId_true in Hsame. destruct Hsame as [Hsame _].
    assert (x = y) by (apply (NoDup_map_eq docId _ _ _ Hnd Hx Hy); exact Hsame).
    subst y. congruence.
Qed.

Section LoopsMatchBulk.

Variable env : Env.
Variable this : ModelAccessWrapper.
Variable permissions : PermissionSet.

Lemma updateLoop_pass (q : Query) (u : Update) (params : Params.t) (w : World) :
  wfStore (store w) ->
  (forall x, In x (matching q (store w)) ->
             denial this permissions (writeKeys u) x = None) ->
  let r := _updateLoop env this q u permissions params w in
  fst r = Resolved tt /\ store (snd r) = store (snd (modelUpdate q u w)).
Proof.
  intros Hwf Hok r. subst r.
  destruct (updateLoop_run env this permissions q u params w Hwf)
    as (Hr & Hs & _).
  rewrite (verdicts_none _ _ Hok) in Hr.
  rewrite (filter_authorized this permissions _ _ Hok) in Hs.
  split; [exact Hr|]. rewrite Hs.
  unfold modelUpdate, bind, log, getStore, putStore. cbn [snd store docs nextId].
  f_equal. apply map_ext_in. intros x Hx.
  rewrite (memDoc_matching q (store w) x Hwf Hx). reflexivity.
Qed.

Lemma removeLoop_pass (q : Query) (params : Params.t) (w : World) :
  wfStore (store w) ->
  (forall x, In x (matching q (store w)) ->
             denial this permissions ["delete"] x = None) ->
  let r := _removeLoop env this q permissions params w in
  fst r = Resolved tt /\ store (snd r) = store (snd (modelRemove q w)).
Proof.
  intros Hwf Hok r. subst r.
  destruct (removeLoop_run env this permissions q params w Hwf)
    as (Hr & Hs & _).
  rewrite (verdicts_none _ _ Hok) in Hr.
  rewrite (filter_authorized this permissions _ _ Hok) in Hs.
  split; [exact Hr|]. rewrite Hs.
  unfold modelRemove, bind, log, getStore, putStore. cbn [snd store docs nextId].
  f_equal. apply filter_ext_in. intros x Hx.
  rewrite (memDoc_matching q (store w) x Hwf Hx). reflexivity.
Qed.

End LoopsMatchBulk.

(** When the grant of every matched document allows the write, the
    per-document loop ends where the bulk operation would have: the update
    loop leaves the store [model.update] leaves, the remove loop the store
    [model.remove] leaves, and both resolve. *)
Theorem authorized_loops_match_bulk (env : Env) (this : ModelAccessWrapper)
  (q : Query) (permissions : PermissionSet) (params : Params.t) (w : World) :
  wfStore (store w) ->
  (forall u,
      (forall x, In x (matching q (store w)) ->
                 denial this permissions (writeKeys u) x = None) ->
      let r := _updateLoop env this q u permissions params w in
      fst r = Resolved tt /\
      store (snd r) = store (snd (modelUpdate q u w))) /\
  ((forall x, In x (matching q (store w)) ->
              denial this permissions ["delete"] x = None) ->
   let r := _removeLoop env this q permissions params w in
   fst r = Resolved tt /\
   store (snd r) = store (snd (modelRemove q w))).
Proof.
  intros Hwf. split.
  - intros u Hok. apply updateLoop_pass; assumption.
  - intros Hok. apply removeLoop_pass; assumption.
Qed.

Lemma authorized_loops_match_bulk_witness :
  let q := Ref.parsedQuery (VObj [("name", VStr "Toby")]) in
  let u := Ref.parsedUpdate (VObj [("$set", VObj [("age", VNum 9)])]) in
  let p := Ref.ageUpdate Ref.tobyWriter (VObj [("name", VStr "Toby")]) in
  let r := _updateLoop Ref.env Ref.wrapper q u Ref.tobyWriter p Ref.world0 in
  fst r = Resolved tt /\
  store (snd r) = store (snd (modelUpdate q u Ref.world0)).
Proof.
  intros q u p r.
  assert (Hwf : wfStore (store Ref.world0)).
  { split.
    - cbn. repeat constructor; cbn; intuition discriminate.
    - cbn. repeat constructor; discriminate. }
  apply (proj1 (authorized_loops_match_bulk Ref.env Ref.wrapper q
                  Ref.tobyWriter p Ref.world0 Hwf) u).
  intros x Hx. vm_compute in Hx.
  destruct Hx as [<-|[]]. vm_compute. reflexivity.
Defined.

(** ** What a resolved write has done *)

Lemma first_denial {A : Type} (deny : A -> option XError) (l : list A) :
  (forall x, In x l -> deny x = None) \/
  exists pre d post e,
    l = (pre ++ d :: post)%list /\
    (forall x, In x pre -> deny x = None) /\ deny d = Some e.
Proof.
  induction l as [|x t IH].
  - left. intros ? [].
  - destruct (deny x) as [e|] eqn:E.
    + right. exists [], x, t, e. repeat split; [intros ? []|exact E].
    + destruct IH as [IH|(pre & d & post & e & -> & Hpre & Hd)].
      * left. intros y [<-|Hy]; [exact E | apply IH; exact Hy].
      * right. exists (x :: pre), d, post, e. repeat split; [|exact Hd].
        intros y [<-|Hy]; [exact E | apply Hpre; exact Hy].
Qed.

Lemma after_logsOnly {A B : Type} (m : M A) (k : A -> M B) (w w' : World)
  (b : B) :
  logsOnly m -> bind m k w = (Resolved b, w') ->
  exists a w1, store w1 = store w /\ k a w1 = (Resolved b, w').
Proof.
  intros Hm H. rewrite bind_run in H.
  destruct (Hm w) as (evs & E).
  destruct (m w) as [[a|e] w1]; [|discriminate].
  simpl in E. subst w1. exists a, (logged w evs). split; [reflexivity | exact H].
Qed.

Lemma fallback_store (check bulk loop : M unit) (w w' : World) :
  logsOnly check ->
  (forall w1, store w1 = store w ->
              store (snd (bulk w1)) = store (snd (bulk w)) /\
              (fst (loop w1) = Resolved tt ->
               store (snd (loop w1)) = store (snd (bulk w1)))) ->
  tryThen check (fun _ => bulk)
    (fun ex => if codeEqb (code ex) ACCESS_DENIED then loop else rethrow ex) w
    = (Resolved tt, w') ->
  store w' = store (snd (bulk w)).
Proof.
  intros Hcheck Hsame H. unfold tryThen in H.
  destruct (Hcheck w) as (evs & E).
  destruct (check w) as [[[]|ex] w1]; simpl in E; subst w1.
  - rewrite <- (proj1 (Hsame (logged w evs) eq_refl)). rewrite H. reflexivity.
  - destruct (codeEqb (code ex) ACCESS_DENIED); [|discriminate].
    destruct (Hsame (logged w evs) eq_refl) as [Hb Hl].
    rewrite <- Hb, <- Hl; rewrite H; reflexivity.
Qed.

Section ResolvedLoops.

Variable env : Env.
Variable this : ModelAccessWrapper.
Variable permissions : PermissionSet.

Lemma updateLoop_resolved (q : Query) (u : Update) (params : Params.t)
  (w : World) :
  wfStore (store w) ->
  fst (_updateLoop env this q u permissions params w) = Resolved tt ->
  store (snd (_updateLoop env this q u permissions params w))
  = store (snd (modelUpdate q u w)).
Proof.
  intros Hwf Hres.
  destruct (first_denial (denial this permissions (writeKeys u))
              (matching q (store w)))
    as [Hok|(pre & d & post & e & Hsplit & Hpre & Hd)].
  - apply (updateLoop_pass env this permissions q u params w Hwf Hok).
  - exfalso.
    destruct (updateLoop_run env this permissions q u params w Hwf)
      as (Hr & _).
    rewrite Hsplit, (denialOf_first _ pre d post e Hpre Hd) in Hr.
    rewrite Hr in Hres. discriminate.
Qed.

Lemma removeLoop_resolved (q : Query) (params : Params.t) (w : World) :
  wfStore (store w) ->
  fst (_removeLoop env this q permissions params w) = Resolved tt ->
  store (snd (_removeLoop env this q permissions params w))
  = store (snd (modelRemove q w)).
Proof.
  intros Hwf Hres.
  destruct (first_denial (denial this permissions ["delete"])
              (matching q (store w)))
    as [Hok|(pre & d & post & e & Hsplit & Hpre & Hd)].
  - apply (removeLoop_pass env this permissions q params w Hwf Hok).
  - exfalso.
    destruct (removeLoop_run env this permissions q params w Hwf)
      as (Hr & _).
    rewrite Hsplit, (denialOf_first _ pre d post e Hpre Hd) in Hr.
    rewrite Hr in Hres. discriminate.
Qed.

End ResolvedLoops.

Section ResolvedWrites.

Variable env : Env.
Variable this : ModelAccessWrapper.

Lemma logsOnly_rejectProtected (p2 : Params.t) (fields : list string) :
  logsOnly (rejectProtected this p2 fields).
Proof. unfold rejectProtected. repeat logsOnly_step. Qed.

Lemma logsOnly_authorizeQuery (p2 : Params.t) (permissions : PermissionSet)
  (q : Query) : logsOnly (authorizeQuery this p2 permissions q).
Proof.
  unfold authorizeQuery.
  apply logsOnly_bind; [apply logsOnly_permCheckExecuteQuery | intros _].
  apply logsOnly_if; [apply logsOnly_permCheckExecuteQuery | apply logsOnly_ret].
Qed.

Lemma logsOnly_resolveGrant (p2 : Params.t) (permissions : PermissionSet)
  (q : Query) : logsOnly (resolveGrant this p2 permissions q).
Proof. unfold resolveGrant. repeat logsOnly_step. Qed.

Lemma logsOnly_updateGrant (p2 : Params.t) (permissions : PermissionSet)
  (q : Query) : logsOnly (updateGrant this p2 permissions q).
Proof.
  unfold updateGrant.
  apply logsOnly_bind; [apply logsOnly_authorizeQuery | intros _].
  apply logsOnly_resolveGrant.
Qed.

Lemma logsOnly_updateBulkCheck (p2 : Params.t) (g : Grant) (q : Query)
  (fields : list string) : logsOnly (updateBulkCheck this p2 g q fields).
Proof. unfold updateBulkCheck. repeat logsOnly_step. Qed.

Lemma logsOnly_removeBulkCheck (permissions : PermissionSet) (q : Query) :
  logsOnly (removeBulkCheck this permissions q).
Proof. unfold removeBulkCheck. repeat logsOnly_step. Qed.

End ResolvedWrites.

Lemma modelUpdate_store_ext (q : Query) (u : Update) (w1 w2 : World) :
  store w1 = store w2 ->
  store (snd (modelUpdate q u w1)) = store (snd (modelUpdate q u w2)).
Proof.
  intros E. unfold modelUpdate, bind, log, getStore, putStore.
  cbn [snd store]. rewrite E. reflexivity.
Qed.

Lemma modelRemove_store_ext (q : Query) (w1 w2 : World) :
  store w1 = store w2 ->
  store (snd (modelRemove q w1)) = store (snd (modelRemove q w2)).
Proof.
  intros E. unfold modelRemove, bind, log, getStore, putStore.
  cbn [snd store]. rewrite E. reflexivity.
Qed.

Lemma bulk_resolved (bulk : M unit) (w w' : World) :
  bulk w = (Resolved tt, w') -> store w' = store (snd (bulk w)).
Proof. intros ->. reflexivity. Qed.

(** An [update] or a [remove] that resolves has done to the store what
    the store's bulk operation does, whichever way it went: whether the
    call was handed to the model at once or degraded to the per-document
    loop, every matching document has been updated (resp. removed) and no
    other document has changed. *)
Theorem resolved_writes_match_bulk (env : Env) (this : ModelAccessWrapper)
  (params p2 : Params.t) (q : Query) (w w2 w' : World) :
  createQuery env (Params.query p2) = Resolved q ->
  wfStore (store w2) ->
  (forall u,
      createUpdate env (Params.update p2) false = Resolved u ->
      prelude this params "update" "pre-update" w = (Resolved p2, w2) ->
      update env this params w = (Resolved tt, w') ->
      store w' = store (snd (modelUpdate q u w2))) /\
  (prelude this params "remove" "pre-remove" w = (Resolved p2, w2) ->
   remove env this params w = (Resolved tt, w') ->
   store w' = store (snd (modelRemove q w2))).
Proof.
  intros Hq Hwf. split; [intros u Hu|]; intros Hpre Hres.
  - rewrite (update_parsed env this params p2 w w2 q u Hpre Hq Hu) in Hres.
    unfold updateParsed in Hres.
    apply after_logsOnly in Hres; [|apply logsOnly_rejectProtected].
    destruct Hres as (_ & w1 & E1 & Hres).
    rewrite <- (modelUpdate_store_ext q u w1 w2 E1).
    destruct (Params.permissions p2) as [perms|];
      [|apply bulk_resolved; exact Hres].
    apply after_logsOnly in Hres; [|apply logsOnly_updateGrant].
    destruct Hres as (g & w3 & E3 & Hres).
    rewrite <- (modelUpdate_store_ext q u w3 w1 E3).
    apply (fallback_store _ _ _ w3 w' (logsOnly_updateBulkCheck this p2 g q _))
      in Hres; [exact Hres|].
    intros w4 E4. split; [apply modelUpdate_store_ext; exact E4|].
    apply updateLoop_resolved. rewrite E4, E3, E1. exact Hwf.
  - rewrite (remove_parsed env this params p2 w w2 q Hpre Hq) in Hres.
    unfold removeParsed in Hres.
    destruct (Params.permissions p2) as [perms|];
      [|apply bulk_resolved; exact Hres].
    apply after_logsOnly in Hres; [|apply logsOnly_authorizeQuery].
    destruct Hres as (_ & w3 & E3 & Hres).
    rewrite <- (modelRemove_store_ext q w3 w2 E3).
    apply (fallback_store _ _ _ w3 w' (logsOnly_removeBulkCheck this perms q))
      in Hres; [exact Hres|].
    intros w4 E4. split; [apply modelRemove_store_ext; exact E4|].
    apply removeLoop_resolved. rewrite E4, E3. exact Hwf.
Qed.

Lemma resolved_writes_match_bulk_witness :
  let raw := VObj [("age", VObj [("$gt", VNum 7)])] in
  let p := Ref.ageUpdate Ref.singleDoc raw in
  let q := Ref.parsedQuery raw in
  let u := Ref.parsedUpdate (VObj [("$set", VObj [("age", VNum 9)])]) in
  let r := update Ref.env Ref.wrapper p Ref.world0 in
  fst r = Resolved tt /\
  In EvFindStream (trace (snd r)) /\
  store (snd r) = store (snd (modelUpdate q u Ref.world0)).
Proof.
  intros raw p q u r.
  split; [vm_compute; reflexivity|].
  split; [vm_compute; tauto|].
  assert (Hwf : wfStore (store Ref.world0)).
  { split.
    - cbn. repeat constructor; cbn; intuition discriminate.
    - cbn. repeat constructor; discriminate. }
  apply (proj1 (resolved_writes_match_bulk Ref.env Ref.wrapper p
                  (Ref.preprocessed Ref.wrapper p) q
                  Ref.world0 Ref.world0 (snd r) eq_refl Hwf)
           u eq_refl).
  - reflexivity.
  - vm_compute. reflexivity.
Defined.

(** ** The insert of the upsert loop *)

Lemma denialOf_forallb (check : string -> Outcome unit) (ks : list string) :
  passes (outcomeOf (denialOf (map check ks)))
  = forallb (fun k => passes (check k)) ks.
Proof.
  induction ks as [|k t IH]; [reflexivity|].
  cbn [map denialOf forallb].
  destruct (check k) as [[]|e]; [exact IH | reflexivity].
Qed.

(** When the query matches nothing, the upsert loop builds the document
    from the query's exact matches and the update and checks the grant
    resolved for that very document for [write] and for the write mask of
    the updated fields; the exact-match fields themselves are not checked
    here.  When the grant passes, the model decides: a document it accepts
    is inserted, one it refuses leaves the loop rejected with the model's
    error.  When the grant does not pass the loop is rejected.  A rejected
    loop leaves the store as it was. *)
Theorem upsertLoop_inserts_when_nothing_matches (env : Env)
  (this : ModelAccessWrapper) (q : Query) (u : Update)
  (permissions : PermissionSet) (params : Params.t) (w : World) :
  matching q (store w) = [] ->
  let data := applyUpdate u (objectFromPaths (getExactMatches q)) in
  let g := getTargetGrant permissions (permissionsTarget this) data in
  let r := _upsertLoop env this q u permissions params w in
  if passes (checkKey g "write")
     && forallb (fun field => passes (checkKey g ("writeMask." ++ field)))
                (getUpdatedFields u)
  then match create (model this) data with
       | Resolved created =>
           fst r = Resolved tt /\
           store (snd r) =
           mkStore (docs (store w)
                    ++ [mkDoc (Some (nextId (store w))) created])
                   (S (nextId (store w)))
       | Rejected refusal =>
           fst r = Rejected refusal /\ store (snd r) = store w
       end
  else passes (fst r) = false /\ store (snd r) = store w.
Proof.
  intros Hm data g r. subst r.
  unfold _upsertLoop, tryThen. rewrite modelFindOne_run, Hm.
  cbn [code codeEqb negb]. fold data.
  rewrite bind_run, permGetTargetGrant_run. fold g.
  rewrite bind_run, grantCheck_run. change ("" ++ "write") with "write".
  destruct (checkKey g "write") as [[]|e]; cbn [passes andb];
    [|split; reflexivity].
  rewrite bind_run, grantCheckAll_run. cbv zeta.
  rewrite <- (denialOf_forallb
                (fun k => checkKey g ("writeMask." ++ k)) (getUpdatedFields u)).
  destruct (denialOf _) as [e|]; cbn [outcomeOf passes];
    [split; reflexivity|].
  rewrite bind_run. unfold lift at 1.
  destruct (create (model this) data) as [created|refusal];
    [rewrite bind_run|]; split; reflexivity.
Qed.

Lemma upsertLoop_inserts_when_nothing_matches_witness :
  let raw := VObj [("id", VStr "new"); ("name", VStr "Felix")] in
  let q := Ref.parsedQuery raw in
  let u := Ref.parsedUpdate (VObj [("$set", VObj [("age", VNum 9)])]) in
  let r := _upsertLoop Ref.env Ref.wrapper q u Ref.singleDoc
             (Ref.ageUpdate Ref.singleDoc raw) Ref.world0 in
  fst r = Resolved tt /\
  map getData (skipn 5 (docs (store (snd r))))
    = [Ref.animalCreate (VObj [("id", VStr "new"); ("name", VStr "Felix");
                               ("age", VNum 9)])].
Proof.
  intros raw q u r.
  pose proof (upsertLoop_inserts_when_nothing_matches Ref.env Ref.wrapper q u
                Ref.singleDoc (Ref.ageUpdate Ref.singleDoc raw) Ref.world0
                eq_refl) as H.
  cbv zeta in H.
  match type of H with
  | if ?b then _ else _ =>
      replace b with true in H by (vm_compute; reflexivity)
  end.
  match type of H with
  | match ?c with Resolved _ => _ | Rejected _ => _ end =>
      replace c with
        (Resolved (Ref.animalCreate
                     (VObj [("id", VStr "new"); ("name", VStr "Felix");
                            ("age", VNum 9)])))
        in H by (vm_compute; reflexivity)
  end.
  destruct H as [H1 H2]. split; [exact H1|].
  fold r in H2. rewrite H2. vm_compute. reflexivity.
Defined.

(** ** The rule of the diff check *)

Lemma write_checks_pass (g : Grant) (fields : list string) (w : World) :
  passes (fst (bind (grantCheck g "write" "")
                 (fun _ => grantCheckAll g fields "writeMask.") w))
  = passes (checkKey g "write") && coversWrites g fields.
Proof.
  rewrite bind_run, grantCheck_run. change ("" ++ "write") with "write".
  destruct (checkKey g "write") as [[]|e]; [|reflexivity].
  rewrite grantCheckAll_run. cbv zeta. cbn [fst passes andb].
  apply (denialOf_forallb (fun k => checkKey g ("writeMask." ++ k))).
Qed.

(** What [_checkDiffPermissions] asks of the grant resolved for the new
    data, where the changed fields are the updated fields of the diff
    between the document and the data, [_id] left out.  With
    [overwriteProtected]: the [overwriteProtected] capability, [write], and
    write-mask coverage of every changed field.  Without it, on a model
    with protected fields: data that holds a protected field is rejected
    with INVALID_ARGUMENT before any check; otherwise [write] and coverage
    of the changed fields that are not protected.  On a model without
    protected fields: [write] and coverage of the changed fields. *)
Theorem diff_check_rule (env : Env) (this : ModelAccessWrapper)
  (permissions : PermissionSet) (doc : Doc) (data : Value)
  (overwriteProtected : bool) (pu : Update) (w : World) :
  createUpdate env (createFromDiff env (getData doc) data) false
    = Resolved pu ->
  let g := getTargetGrant permissions (permissionsTarget this) data in
  let changed := pull (getUpdatedFields pu) "_id" in
  let r := _checkDiffPermissions env this permissions doc data
             overwriteProtected w in
  if overwriteProtected then
    passes (fst r) =
    passes (checkKey g "overwriteProtected")
    && (passes (checkKey g "write") && coversWrites g changed)
  else if hasProtectedFields this then
    if existsb (fun field => negb (isUndef (getPath data field)))
               (protectedFields this)
    then r = (Rejected protectedError,
              logged w [EvGetTargetGrant (permissionsTarget this) data])
    else passes (fst r) =
         passes (checkKey g "write")
         && coversWrites g (pullAll changed (protectedFields this))
  else passes (fst r) = passes (checkKey g "write") && coversWrites g changed.
Proof.
  intros Hpu g changed r. subst r. unfold _checkDiffPermissions.
  rewrite bind_run, permGetTargetGrant_run. fold g.
  rewrite (lift_bind _ _ Hpu). fold changed.
  destruct overwriteProtected.
  - rewrite bind_run, bind_run, grantCheck_run.
    change ("" ++ "overwriteProtected") with "overwriteProtected".
    destruct (checkKey g "overwriteProtected") as [[]|e]; [|reflexivity].
    cbn [ret passes andb]. apply write_checks_pass.
  - destruct (hasProtectedFields this).
    + destruct (existsb _ (protectedFields this)); [reflexivity|].
      rewrite bind_run. cbn [ret]. apply write_checks_pass.
    + rewrite bind_run. cbn [ret]. apply write_checks_pass.
Qed.

Lemma diff_check_rule_witness :
  let doc := mkDoc None (Ref.animalCreate VUndef) in
  let r := _checkDiffPermissions Ref.env Ref.wrapper Ref.partialWrite doc
             Ref.frog false Ref.world0 in
  let g := getTargetGrant Ref.partialWrite "Animal" Ref.frog in
  passes (fst r) = true /\
  passes (checkKey g "writeMask.coolness") = false.
Proof.
  intros doc r g.
  pose proof (diff_check_rule Ref.env Ref.wrapper Ref.partialWrite doc Ref.frog
                false
                (Ref.parsedUpdate (Ref.createFromDiff (getData doc) Ref.frog))
                Ref.world0 eq_refl) as H.
  cbv zeta in H.
  change (hasProtectedFields Ref.wrapper) with true in H. cbv iota in H.
  match type of H with
  | if ?b then _ else _ =>
      replace b with false in H by (vm_compute; reflexivity)
  end.
  split; [|vm_compute; reflexivity].
  fold r in H. rewrite H. vm_compute. reflexivity.
Defined.

(** ** The constructor *)

Lemma classify_private (visits : list (Subschema * string)) (c : Classification) :
  cPrivateMask (fold_left onSubschema visits c) =
    fold_left addField (privatePaths visits) (cPrivateMask c) /\
  cHasPrivateFields (fold_left onSubschema visits c) =
    cHasPrivateFields c || negb (Nat.eqb (length (privatePaths visits)) 0).
Proof.
  revert c.
  induction visits as [|[sub path] t IH]; intros c.
  - simpl. rewrite orb_false_r. auto.
  - cbn [fold_left].
    destruct (IH (onSubschema c (sub, path))) as (K & H).
    rewrite K, H. unfold onSubschema, privatePaths. simpl.
    destruct (isPrivate sub), (isProtected sub); simpl;
      rewrite ?orb_true_r, ?orb_true_l; auto.
Qed.

Lemma in_privatePaths (visits : list (Subschema * string)) (path : string) :
  In path (privatePaths visits) <->
  exists sub, In (sub, path) visits /\ isPrivate sub = true.
Proof.
  unfold privatePaths. rewrite in_map_iff. split.
  - intros ([sub p] & E & Hin). simpl in E. subst p.
    apply filter_In in Hin. destruct Hin as [Hin Hp].
    exists sub. split; assumption.
  - intros (sub & Hin & Hp). exists (sub, path). split; [reflexivity|].
    apply filter_In. split; assumption.
Qed.

Lemma nonempty_length {A : Type} (l : list A) :
  negb (Nat.eqb (length l) 0) = true <-> l <> [].
Proof. destruct l; simpl; split; congruence. Qed.

(** The constructor fails, with INTERNAL_ERROR, exactly when the key list
    it settles on is missing or empty; a given [options.keys] wins over the
    model's keys even when it is empty.  A wrapper it returns has that
    non-empty list as its key fields, and the model's name as permission
    target unless the options name one. *)
Theorem constructor_requires_key_fields (env : Env) (options : Options.t) :
  match constructor env options with
  | Rejected e =>
      e = noKeyFields /\
      (chosenKeys options = None \/ chosenKeys options = Some [])
  | Resolved this =>
      chosenKeys options = Some (keyFields this) /\
      keyFields this <> [] /\
      (forall target, Options.permissionsTarget options = Some target ->
                      target <> "" -> permissionsTarget this = target) /\
      (Options.permissionsTarget options = None ->
       permissionsTarget this = getName (Options.model options))
  end.
Proof.
  unfold constructor. fold (chosenKeys options).
  destruct (chosenKeys options) as [[|k ks]|]; cbn [keyFields permissionsTarget].
  - split; [reflexivity | right; reflexivity].
  - split; [reflexivity|]. split; [discriminate|]. split.
    + intros target -> Hne. apply String.eqb_neq in Hne. rewrite Hne.
      reflexivity.
    + intros ->. reflexivity.
  - split; [reflexivity | left; reflexivity].
Qed.

(** The flags of a wrapper say what its schema holds: [hasPrivateFields]
    is set exactly when some subschema is flagged private,
    [hasProtectedFields] exactly when [protectedFields] is not empty, and
    every path flagged private is included by the private mask and not by
    the public mask the global permissions are built from. *)
Theorem constructor_flags_reflect_schema (env : Env) (options : Options.t)
  (this : ModelAccessWrapper) :
  constructor env options = Resolved this ->
  (hasPrivateFields this = true <->
   exists sub path, In (sub, path) (traverseSchema (schema (model this)))
                    /\ isPrivate sub = true) /\
  (hasProtectedFields this = true <-> protectedFields this <> []) /\
  (forall sub path,
      In (sub, path) (traverseSchema (schema (model this))) ->
      isPrivate sub = true ->
      checkPath (privateMask this) path = true /\
      checkPath (publicMask this) path = false).
Proof.
  intros Hc. apply constructor_fields in Hc. cbv zeta in Hc.
  destruct Hc as (Hm & Hpub & _ & Hpriv & _ & Hfields & Hprot & Hhas).
  destruct (classify_protected
              (traverseSchema (schema (Options.model options)))
              (mkClassification false false (MObj []) (MObj []) []))
    as (F & _ & P).
  destruct (classify_private
              (traverseSchema (schema (Options.model options)))
              (mkClassification false false (MObj []) (MObj []) []))
    as (K & H).
  fold (classify (schema (Options.model options))) in F, P, K, H.
  cbn [cProtectedFields cHasProtectedFields cPrivateMask cHasPrivateFields
       app orb] in F, P, K, H.
  rewrite Hm, Hhas, Hprot, Hfields, Hpriv, H, P, F, K.
  assert (Hin : forall sub path,
             In (sub, path) (traverseSchema (schema (Options.model options))) ->
             isPrivate sub = true ->
             checkPath (fold_left addField
                          (privatePaths
                             (traverseSchema (schema (Options.model options))))
                          (MObj [])) path = true).
  { intros sub path Hv Hp. apply addFields_includes. left.
    apply in_privatePaths. exists sub. auto. }
  split; [|split].
  - rewrite nonempty_length. split.
    + intros Hne.
      destruct (privatePaths (traverseSchema (schema (Options.model options))))
        as [|path rest] eqn:E; [congruence|].
      assert (Hp : In path (privatePaths
                              (traverseSchema (schema (Options.model options)))))
        by (rewrite E; left; reflexivity).
      apply in_privatePaths in Hp. destruct Hp as (sub & Hv & Hp).
      exists sub, path. auto.
    + intros (sub & path & Hv & Hp) E.
      assert (Hin' : In path (privatePaths
                                (traverseSchema (schema (Options.model options)))))
        by (apply in_privatePaths; exists sub; auto).
      rewrite E in Hin'. contradiction.
  - apply nonempty_length.
  - intros sub path Hv Hp. split; [apply (Hin sub path Hv Hp)|].
    destruct (checkPath (publicMask this) path) eqn:E; [|reflexivity].
    rewrite Hpub, Hpriv, K in E. apply checkPath_subtractMasks in E.
    destruct E as [_ E]. rewrite (Hin sub path Hv Hp) in E. discriminate.
Qed.

Lemma constructor_flags_reflect_schema_witness :
  hasPrivateFields Ref.wrapper = true /\
  checkPath (privateMask Ref.wrapper) "ssn" = true /\
  checkPath (publicMask Ref.wrapper) "ssn" = false.
Proof.
  destruct (constructor_flags_reflect_schema Ref.env Ref.options Ref.wrapper
              eq_refl) as (Hflag & _ & Hmask).
  split.
  - apply Hflag. exists (mkSubschema true false), "ssn".
    split; [|reflexivity]. vm_compute. tauto.
  - apply (Hmask (mkSubschema true false) "ssn"); [|reflexivity].
    vm_compute. tauto.
Defined.

Lemma constructor_requires_key_fields_witness :
  keyFields Ref.wrapper = ["id"] /\
  constructor Ref.env (Options.mk Ref.Animal None (Some []) None false)
    = Rejected noKeyFields.
Proof.
  split; [reflexivity|].
  pose proof (constructor_requires_key_fields Ref.env
                (Options.mk Ref.Animal None (Some []) None false)) as H.
  destruct (constructor Ref.env (Options.mk Ref.Animal None (Some []) None false))
    as [this|e].
  - destruct H as (H1 & H2 & _). exfalso. apply H2.
    injection H1 as H1. symmetry. exact H1.
  - destruct H as (-> & _). reflexivity.
Defined.

(** ** The field filter *)

Lemma getSubMaskL_empty (ps : list string) :
  isTrueMask (getSubMaskL (MObj []) ps) = false.
Proof.
  destruct ps as [|p ps']; [reflexivity|].
  cbn. now rewrite getSubMaskL_bool.
Qed.

Lemma maskSetPathL_covers (qs ps : list string) (m : Mask) :
  isTrueMask (getSubMaskL (maskSetPathL m qs) ps) = true ->
  isTrueMask (getSubMaskL m ps) = true \/ coversL qs ps = true.
Proof.
  revert m ps. induction qs as [|q qs' IH]; intros m ps H.
  - right. reflexivity.
  - destruct ps as [|p ps'].
    { destruct m; cbn in H; discriminate. }
    destruct m as [b|es]; cbn [maskSetPathL getSubMaskL coversL] in *.
    + change [(q, maskSetPathL (MObj []) qs')]
        with (assocSet q (maskSetPathL (MObj []) qs') []) in H.
      destruct (subMaskAt_set_cases q p (maskSetPathL (MObj []) qs') [])
        as [(E1 & _ & E3)|E].
      * rewrite E1 in H. apply IH in H. destruct H as [H|H].
        -- rewrite getSubMaskL_empty in H. discriminate.
        -- right. rewrite E3, H. reflexivity.
      * rewrite E in H. cbn in H. rewrite getSubMaskL_bool in H. discriminate.
    + set (sub0 := match assoc q es with Some v => v | None => MObj [] end) in *.
      destruct (subMaskAt_set_cases q p (maskSetPathL sub0 qs') es)
        as [(E1 & E2 & E3)|E].
      * rewrite E1 in H. apply IH in H. destruct H as [H|H].
        -- left. rewrite E2. subst sub0. unfold subMaskAt, assocW.
           destruct (assoc q es) as [v|]; [exact H|].
           rewrite getSubMaskL_empty in H. discriminate.
        -- right. rewrite E3, H. reflexivity.
      * left. rewrite <- E. exact H.
Qed.

Lemma fieldsMask_covers (fs : list string) (m : Mask) (p : string) :
  checkPath (fold_left (fun m field => maskSetPathL m (splitPath field)) fs m) p
    = true ->
  checkPath m p = true \/ exists q, In q fs /\ pathCovers q p = true.
Proof.
  revert m. induction fs as [|q t IH]; intros m H; simpl in H.
  - left. exact H.
  - apply IH in H. destruct H as [H|(q' & Hin & Hc)].
    + apply maskSetPathL_covers in H. destruct H as [H|H].
      * left. exact H.
      * right. exists q. split; [left; reflexivity | exact H].
    + right. exists q'. split; [right; exact Hin | exact Hc].
Qed.

Lemma filtered_leaf (obj : Value) (m : Mask) (path : string) (v : Value) :
  getPath (filterObject obj m) path = v -> isLeaf v = true ->
  getPath obj path = v /\ checkPath m path = true.
Proof.
  unfold getPath, checkPath, getSubMask. rewrite getPathL_filterObject.
  intros H Hleaf. unfold isLeaf in Hleaf.
  apply andb_prop in Hleaf. destruct Hleaf as [Hs Hu].
  assert (Hv : v <> VUndef) by (intros ->; discriminate).
  pose proof (filterObject_scalar _ _ _ H Hs Hv) as E.
  split; [exact E|]. rewrite E in H.
  destruct v; try discriminate;
    destruct (getSubMaskL m (splitPath path)) as [[|]|es];
    cbn in H; try reflexivity; congruence.
Qed.

(** The filter [_preprocessParams] builds from the fields to return lets
    nothing else through: every scalar found in a filtered object is the
    object's own value at that path, and the path is one of the requested
    fields or lies beneath one (a [_] step of a requested field standing
    for any key). *)
Theorem field_filter_returns_only_requested_fields
  (this : ModelAccessWrapper) (params p2 : Params.t) (method : string)
  (w w2 : World) (fs : list string) :
  _preprocessParams this params method w = (Resolved p2, w2) ->
  Params.filterFields p2 = Some fs ->
  Params.skipFilterFields p2 = false ->
  exists f,
    Params.filterFieldsFunc p2 = Some f /\
    Params.filterFieldsMask p2 = Some (fieldsMask fs) /\
    forall obj path v,
      getPath (f obj) path = v -> isLeaf v = true ->
      getPath obj path = v /\
      exists field, In field fs /\ pathCovers field path = true.
Proof.
  intros Hpre Hfs Hskip. unfold _preprocessParams in Hpre.
  rewrite bind_run in Hpre.
  destruct (triggerSync (hooks this) "preprocess-params" params method w)
    as [[p1|e] w1]; [|discriminate].
  destruct (negb (isSome (Params.permissions p1)) && negb (allowNoPermissions this));
    [discriminate|].
  exists (fun obj => filterObject obj (fieldsMask fs)).
  assert (Hfun : Params.filterFieldsFunc p2
                 = Some (fun obj => filterObject obj (fieldsMask fs)) /\
                 Params.filterFieldsMask p2 = Some (fieldsMask fs)).
  { destruct p1 as [perms fields extra request filter skipF skipP mask fF fP
                    allowP overP q u d].
    destruct perms as [perms|], fields as [fields|], request as [request|],
      filter as [filter|], skipF, skipP;
      cbn in Hpre; injection Hpre as <- <-; cbn in Hfs, Hskip |- *;
      try discriminate; injection Hfs as <-; split; reflexivity. }
  destruct Hfun as [Hf Hm]. split; [exact Hf|]. split; [exact Hm|].
  intros obj path v Hv Hleaf.
  destruct (filtered_leaf obj (fieldsMask fs) path v Hv Hleaf) as [E Hc].
  split; [exact E|].
  apply fieldsMask_covers in Hc. destruct Hc as [Hc|Hc]; [|exact Hc].
  rewrite checkPath_empty_mask in Hc. discriminate.
Qed.

Lemma field_filter_returns_only_requested_fields_witness :
  let p := Params.mk (Some Ref.everything) (Some ["name"]) None None None
             false false None None None false false (VObj []) VUndef VUndef in
  let p2 := Ref.resolvedOr p (_preprocessParams Ref.wrapper p "get" Ref.world0) in
  exists f,
    Params.filterFieldsFunc p2 = Some f /\
    f (Ref.animal "foo" "cat" "Toby" 5 []) = VObj [("name", VStr "Toby")].
Proof.
  intros p p2.
  destruct (field_filter_returns_only_requested_fields Ref.wrapper p p2 "get"
              Ref.world0 Ref.world0 ["name"] eq_refl eq_refl eq_refl)
    as (f & Hf & _).
  exists f. split; [exact Hf|].
  assert (E : Some f = Some (fun obj => filterObject obj (fieldsMask ["name"])))
    by (rewrite <- Hf; reflexivity).
  injection E as ->. vm_compute. reflexivity.
Defined.

(** ** The read filter *)

Lemma preprocess_read_filter (this : ModelAccessWrapper)
  (params p1 p2 : Params.t) (method : string) (w w1 w2 : World)
  (perms : PermissionSet) :
  triggerSync (hooks this) "preprocess-params" params method w
    = (Resolved p1, w1) ->
  _preprocessParams this params method w = (Resolved p2, w2) ->
  Params.permissions p1 = Some perms ->
  Params.skipFilterPermissions p1 = false ->
  Params.filterPermissionsFunc p2
  = Some (createFilterByMask perms (permissionsTarget this) "read" "readMask").
Proof.
  intros Hhook Hpre Hperm Hskip. unfold _preprocessParams in Hpre.
  rewrite (bind_resolved _ Hhook) in Hpre.
  destruct (negb (isSome (Params.permissions p1)) && negb (allowNoPermissions this));
    [discriminate|].
  destruct p1 as [perms' fields extra request filter skipF skipP mask fF fP
                  allowP overP q u d].
  cbn in Hperm, Hskip. subst perms' skipP.
  destruct fields as [fields|], request as [request|], filter as [filter|], skipF;
    cbn in Hpre; injection Hpre as <- <-; reflexivity.
Qed.

(** With permissions and without [skipFilterPermissions], a result that
    [prepareResultObject] hands back has passed the permission set's read
    filter: its data is what [createFilterByMask(target, 'read',
    'readMask')] leaves of the serialized document, cut down further by
    the field filter if there is one, and a document of which the read
    filter leaves nothing is never handed back. *)
Theorem results_pass_read_filter (this : ModelAccessWrapper)
  (params p1 p2 : Params.t) (method : string) (w w1 w2 w3 w4 : World)
  (perms : PermissionSet) (doc : Doc) (r : ResultObject) :
  triggerSync (hooks this) "preprocess-params" params method w
    = (Resolved p1, w1) ->
  _preprocessParams this params method w = (Resolved p2, w2) ->
  Params.permissions p1 = Some perms ->
  Params.skipFilterPermissions p1 = false ->
  prepareResultObject this doc p2 w3 = (Resolved (Some r), w4) ->
  exists doc' data,
    serializeDocument this doc p2 w3 = (Resolved (doc', data), w4) /\
    let visible := createFilterByMask perms (permissionsTarget this)
                     "read" "readMask" data in
    truthy visible = true /\
    resultDoc r = doc' /\
    resultData r = match Params.filterFieldsFunc p2 with
                   | Some f => f visible
                   | None => visible
                   end.
Proof.
  intros Hhook Hpre Hperm Hskip Hres.
  pose proof (preprocess_read_filter this params p1 p2 method w w1 w2 perms
                Hhook Hpre Hperm Hskip) as Hfilter.
  unfold prepareResultObject in Hres. rewrite bind_run in Hres.
  destruct (serializeDocument this doc p2 w3) as [[[doc' data]|e] w5];
    [|discriminate].
  exists doc', data.
  destruct (truthy data); cbn [negb] in Hres; [|discriminate].
  rewrite Hfilter in Hres. rewrite bind_run in Hres.
  destruct (truthy (createFilterByMask perms (permissionsTarget this)
                      "read" "readMask" data)) eqn:Hvisible;
    cbn [negb] in Hres; [|discriminate].
  cbn [ret] in Hres. rewrite bind_run in Hres.
  destruct (Params.filterFieldsFunc p2) as [f|].
  - destruct (truthy (f _)); cbn [negb] in Hres; [|discriminate].
    injection Hres as <- <-. repeat split. exact Hvisible.
  - injection Hres as <- <-. repeat split. exact Hvisible.
Qed.

Lemma results_pass_read_filter_witness :
  let p := Ref.params Ref.partialWrite in
  let p2 := Ref.resolvedOr p (_preprocessParams Ref.wrapper p "get" Ref.world0) in
  let doc := mkDoc (Some 0) (Ref.animalCreate (Ref.animal "foo" "cat" "Toby" 5 [])) in
  option_map resultData
    (Ref.resolvedOr None (prepareResultObject Ref.wrapper doc p2 Ref.world0))
  = Some (VObj [("id", VStr "foo"); ("animalType", VStr "cat")]).
Proof.
  intros p p2 doc.
  set (res := prepareResultObject Ref.wrapper doc p2 Ref.world0).
  set (r := match Ref.resolvedOr None res with
            | Some r => r
            | None => mkResultObject VUndef doc
            end).
  assert (Hres : res = (Resolved (Some r), Ref.world0))
    by (vm_compute; reflexivity).
  destruct (results_pass_read_filter Ref.wrapper p p p2 "get"
              Ref.world0 Ref.world0 Ref.world0 Ref.world0 Ref.world0
              Ref.partialWrite doc r eq_refl eq_refl eq_refl eq_refl Hres)
    as (doc' & data & Hser & _ & _ & Hdata).
  rewrite Hres. cbn [Ref.resolvedOr fst option_map]. rewrite Hdata.
  assert (Hd : data = getData doc).
  { assert (E : serializeDocument Ref.wrapper doc p2 Ref.world0
                = (Resolved (doc, getData doc), Ref.world0))
      by (vm_compute; reflexivity).
    rewrite E in Hser. injection Hser as _ <-. reflexivity. }
  rewrite Hd. vm_compute. reflexivity.
Defined.

(** ** What get asks of its collaborators *)

Lemma emits_weaken {A : Type} (P Q : Event -> Prop) (m : M A) :
  (forall e, P e -> Q e) -> emits P m -> emits Q m.
Proof.
  intros HPQ Hm w. destruct (Hm w) as (evs & E & Hall).
  exists evs. split; [exact E|].
  apply (Forall_impl _ HPQ). exact Hall.
Qed.

Section GetEvents.

Variable env : Env.
Variable this : ModelAccessWrapper.
Variable P : Event -> Prop.
Hypothesis HtriggerSync :
  forall name p method, emits P (triggerSync (hooks this) name p method).
Hypothesis Htrigger : forall name p, emits P (trigger (hooks this) name p).
Hypothesis Hserialize : forall doc p, emits P (serialize this doc p).

Lemma emits_prepareResultObject (doc : Doc) (params : Params.t) :
  emits P (prepareResultObject this doc params).
Proof.
  unfold prepareResultObject, serializeDocument.
  emits_step.
  { emits_step; [repeat emits_step|].
    emits_step; [apply Hserialize | emits_step]. }
  destruct a as [d data]. emits_step; [emits_step|].
  emits_step.
  { destruct (Params.filterPermissionsFunc params); repeat emits_step. }
  emits_step; [|emits_step].
  destruct (Params.filterFieldsFunc params); repeat emits_step.
Qed.

Lemma emits_checkGivenKeys (keys : list (string * Value)) (names : list string) :
  emits P (checkGivenKeys this keys names).
Proof.
  induction names as [|field rest IH]; simpl; repeat emits_step. exact IH.
Qed.

Lemma emits_checkKeyFields (keys : list (string * Value)) (fields : list string) :
  emits P (checkKeyFields keys fields).
Proof.
  induction fields as [|field rest IH]; simpl; repeat emits_step. exact IH.
Qed.

Lemma emits_get (params : Params.t) (keys : option (list (string * Value))) :
  emits (fun e => P e \/ e = EvFindOne) (get env this params keys).
Proof.
  assert (Hw : forall A (m : M A),
             emits P m -> emits (fun e => P e \/ e = EvFindOne) m)
    by (intros A m; apply emits_weaken; auto).
  unfold get. emits_step.
  { apply Hw. unfold _preprocessParams.
    emits_step; [apply HtriggerSync|]. repeat emits_step. }
  emits_step; [apply Hw, emits_checkGivenKeys|].
  emits_step; [apply Hw, emits_checkKeyFields|].
  emits_step; [apply Hw, Htrigger|].
  emits_step; [|apply Hw, emits_prepareResultObject].
  unfold modelFindOne. emits_step; [emits_step; right; reflexivity|].
  emits_step; [unfold parseQuery; emits_step|].
  emits_step; [emits_step|].
  destruct (matching _ _); emits_step.
Qed.

End GetEvents.

(** [get] and the recorded calls.  The trace records the calls to the
    store (lookups and writes) and to the permission sets
    ([checkExecuteQuery], the resolution of a grant, the checks of a grant).
    Of these, apart from what the hook handlers and the serializer issue,
    [get] issues none but [findOne] lookups: it never checks the query
    against the permissions, never resolves or checks a grant, and never
    writes.  Calls the trace does not record, such as the building of the
    read filter from the permissions, are not spoken of. *)
Theorem get_records_only_lookups (env : Env) (this : ModelAccessWrapper)
  (P : Event -> Prop) (params : Params.t)
  (keys : option (list (string * Value))) (w : World) :
  (forall name p method, emits P (triggerSync (hooks this) name p method)) ->
  (forall name p, emits P (trigger (hooks this) name p)) ->
  (forall doc p, emits P (serialize this doc p)) ->
  Forall (fun e => P e \/ e = EvFindOne)
         (eventsSince w (get env this params keys w)).
Proof.
  intros H1 H2 H3. apply eventsSince_emits.
  apply emits_get; assumption.
Qed.

Lemma get_records_only_lookups_witness :
  Forall (fun e => False \/ e = EvFindOne)
    (eventsSince Ref.world0
       (get Ref.env Ref.wrapper (Ref.params Ref.noRead)
          (Some [("id", VStr "foo")]) Ref.world0)) /\
  isDenied (fst (get Ref.env Ref.wrapper (Ref.params Ref.noRead)
                   (Some [("id", VStr "foo")]) Ref.world0)) = true.
Proof.
  split; [|vm_compute; reflexivity].
  apply (get_records_only_lookups Ref.env Ref.wrapper (fun _ => False)).
  - intros name p method. apply emits_ret.
  - intros name p. apply emits_ret.
  - intros doc p. apply emits_ret.
Defined.
